(** * qword kernel substrate: VFS dispatch layer and keyboard line discipline

  A shallow embedding of [kernel/fd/vfs/vfs.c] and [kernel/misc/kbd.c],
  followed by the properties of the mountpoint resolver, the path
  normaliser, the handle table dispatch, the filesystem registry and the
  keyboard state machine.

  Conventions.  C strings are lists of bytes ([ascii]) standing for the
  bytes before the terminator; reading at or past the end yields NUL.
  Caller-provided memory (the output buffer of the normaliser, the buffer
  of [kbd_read]) and the static keyboard arrays are total maps from
  offsets to bytes, updated with stdpp's function insert.  [int] and
  [size_t] values are in [Z], the wrap-around of [(size_t)-1] and of the
  [size_t] to [int] conversion written out. *)

From Stdlib Require Import ZArith Ascii String Lia.
From stdpp Require Import base option list functions strings gmap.

(** ** lib/klib: byte strings *)

Module Klib.

Abbreviation cstring := (list ascii).

Definition cs (s : string) : cstring := list_ascii_of_string s.
Arguments cs s%_string.

Definition NUL : ascii := "000"%char.
Definition SLASH : ascii := "/"%char.
Definition DOT : ascii := "."%char.

(** [s[i]]: the byte at offset [i] of a NUL-terminated string. *)
Definition byte_at (s : cstring) (i : nat) : ascii := nth i s NUL.

(** A well-formed C string holds no NUL before its terminator. *)
Definition is_cstr (s : cstring) : Prop := Forall (λ c, c ≠ NUL) s.

(** A block of memory addressed by offset. *)
Abbreviation buffer := (nat → ascii).

Definition SIZE_MAX : Z := 2 ^ 64 - 1.
Definition to_size_t (z : Z) : Z := z mod 2 ^ 64.
Definition to_int (z : Z) : Z := (z + 2 ^ 31) mod 2 ^ 32 - 2 ^ 31.

(** [a[i]] for an index held in a [size_t] or an [int]: [None] when the
    index is outside the array. *)
Definition index_Z {A} (a : list A) (i : Z) : option A :=
  if (0 <=? i)%Z && (i <? Z.of_nat (length a))%Z then a !! Z.to_nat i
  else None.

(** Modelled from the spec: [kstrlen], [kstrncmp], [kstrcmp] and [kstrcpy]
    are declared in lib/klib.h, their definitions are not available; they
    are the freestanding counterparts of the C library functions on
    NUL-terminated byte strings.  [kstrncmp] and [kstrcmp] return 0 on
    equality and 1 otherwise; [kstrncmp] compares [count] bytes and stops
    at the first difference. *)
Fixpoint kstrlen (s : cstring) : nat :=
  match s with
  | [] => 0
  | c :: r => if (c =? NUL)%char then 0 else S (kstrlen r)
  end.

Fixpoint kstrncmp (dst src : cstring) (count : nat) : Z :=
  match count with
  | 0 => 0
  | S n =>
      if (byte_at dst 0 =? byte_at src 0)%char
      then kstrncmp (tail dst) (tail src) n
      else 1
  end.

Fixpoint kstrcmp (dst src : cstring) : Z :=
  match dst with
  | [] => if (NUL =? byte_at src 0)%char then 0 else 1
  | c :: d =>
      if (c =? byte_at src 0)%char
      then if (c =? NUL)%char then 0 else kstrcmp d (tail src)
      else 1
  end.

(** [kstrcpy(dst + at, src)]: copies up to and including the terminator. *)
Fixpoint kstrcpy (dst : buffer) (at_ : nat) (src : cstring) : buffer :=
  match src with
  | [] => <[at_ := NUL]> dst
  | c :: r =>
      if (c =? NUL)%char then <[at_ := NUL]> dst
      else kstrcpy (<[at_ := c]> dst) (S at_) r
  end.

(** [kstrlen(buf + p)] on memory, scanning at most [bound] bytes. *)
Fixpoint buf_strlen (bound : nat) (buf : buffer) (p : nat) : nat :=
  match bound with
  | 0 => 0
  | S b => if (buf p =? NUL)%char then 0 else S (buf_strlen b buf (S p))
  end.

(** The C string that starts at offset [p] of [buf], at most [bound] bytes. *)
Fixpoint buf_cstr (bound : nat) (buf : buffer) (p : nat) : cstring :=
  match bound with
  | 0 => []
  | S b => if (buf p =? NUL)%char then [] else buf p :: buf_cstr b buf (S p)
  end.

End Klib.

Import Klib.

(** ** kernel/fd/vfs/vfs.c *)

Module Vfs.

(** *** Drivers and their operation tables *)

(** Arguments handed to a driver entry point; buffers and [struct]
    pointers are opaque to the dispatch layer. *)
Inductive arg :=
| A_int (z : Z)
| A_str (s : cstring)
| A_ptr.

(** One completed call into a driver: which driver, which slot of its
    table, with what arguments, and what it returned. *)
Record call_event := {
  ev_fs : cstring;
  ev_op : nat;
  ev_args : list arg;
  ev_ret : Z
}.

(** A slot of an operation table: unset (zero), the address of
    [vfs_call_invalid], or the address of a driver function.  Driver
    internals are outside the kernel core; a driver function is the
    value it returns given the calls made so far and its arguments. *)
Inductive fnptr :=
| fn_null
| fn_vfs_call_invalid
| fn_driver (impl : list call_event → list arg → Z).

(** Modelled from the spec: [struct fs_t] of fd/vfs/vfs.h, whose source
    is not available: a 256-byte name followed by the operations region,
    one pointer-sized slot per operation, in the order
    mount, open, close, dup, read, write, lseek, fstat, readdir, sync. *)
Record fs_t := {
  fs_name : cstring;
  fs_ops : list fnptr
}.

Definition OP_mount : nat := 0.
Definition OP_open : nat := 1.
Definition OP_close : nat := 2.
Definition OP_dup : nat := 3.
Definition OP_read : nat := 4.
Definition OP_write : nat := 5.
Definition OP_lseek : nat := 6.
Definition OP_fstat : nat := 7.
Definition OP_readdir : nat := 8.
Definition OP_sync : nat := 9.

Record vfs_handle_t := {
  vh_fs : fs_t;
  intern_fd : Z
}.

Record mnt_t := {
  name : cstring;
  fs : fs_t;
  magic : Z
}.

(** *** The handle table *)

(** Modelled from the spec: the [dynarray_*] macros of lib/dynarray.h,
    whose source is not available: a reference-counted sparse
    vector of bounded capacity.  [dynarray_add] stores a copy in the
    first free slot and returns its index, or -1 when the capacity is
    exhausted; [dynarray_getelem] takes a reference on a present element
    and yields it, or a null pointer; [dynarray_unref] drops a reference;
    [dynarray_remove] withdraws the element, whose slot is freed once no
    reference is left. *)
Record dyn_elem := {
  refcount : nat;
  present : bool;
  data : vfs_handle_t
}.

Record dynarray := {
  da_slots : list (option dyn_elem);
  da_capacity : nat
}.

Fixpoint find_free (slots : list (option dyn_elem)) (i : nat) : option nat :=
  match slots with
  | [] => None
  | None :: _ => Some i
  | Some _ :: rest => find_free rest (S i)
  end.

Definition fresh_elem (x : vfs_handle_t) : dyn_elem :=
  {| refcount := 0; present := true; data := x |}.

Definition da_add (d : dynarray) (x : vfs_handle_t) : Z * dynarray :=
  match find_free (da_slots d) 0 with
  | Some i =>
      (Z.of_nat i,
       {| da_slots := <[i := Some (fresh_elem x)]> (da_slots d);
          da_capacity := da_capacity d |})
  | None =>
      if decide (length (da_slots d) < da_capacity d)%nat
      then (Z.of_nat (length (da_slots d)),
            {| da_slots := da_slots d ++ [Some (fresh_elem x)];
               da_capacity := da_capacity d |})
      else (-1, d)%Z
  end.

Definition da_slot (d : dynarray) (i : Z) : option dyn_elem :=
  mjoin (index_Z (da_slots d) i).

Definition da_set (d : dynarray) (i : Z) (s : option dyn_elem) : dynarray :=
  {| da_slots := <[Z.to_nat i := s]> (da_slots d);
     da_capacity := da_capacity d |}.

(** An element is visible to [dynarray_getelem] while it is present. *)
Definition da_present (d : dynarray) (i : Z) : option vfs_handle_t :=
  match da_slot d i with
  | Some e => if present e then Some (data e) else None
  | None => None
  end.

Definition da_getelem (d : dynarray) (i : Z) : option vfs_handle_t * dynarray :=
  match da_slot d i with
  | Some e =>
      if present e
      then (Some (data e),
            da_set d i (Some {| refcount := S (refcount e);
                                present := true; data := data e |}))
      else (None, d)
  | None => (None, d)
  end.

Definition da_unref (d : dynarray) (i : Z) : dynarray :=
  match da_slot d i with
  | Some e =>
      let rc := pred (refcount e) in
      if negb (present e) && (rc =? 0)%nat
      then da_set d i None
      else da_set d i (Some {| refcount := rc; present := present e;
                               data := data e |})
  | None => d
  end.

Definition da_remove (d : dynarray) (i : Z) : dynarray :=
  match da_slot d i with
  | Some e =>
      if (refcount e =? 0)%nat
      then da_set d i None
      else da_set d i (Some {| refcount := refcount e; present := false;
                               data := data e |})
  | None => d
  end.

(** *** Kernel state seen by the VFS layer *)

Inductive loglevel := KPRN_INFO | KPRN_WARN.

(** Modelled from the spec: the [ht_*] macros of lib/ht.h, whose source
    is not available.  The mount table is represented by what [ht_dump]
    yields for it: a null pointer, or an array of record pointers (some
    possibly null).  The registry is a finite map from type name to
    driver; [ht_add] fails with -1 on a name collision. *)
Record kernel := {
  mountpoints : option (list (option mnt_t));
  mountpoints_lock : bool;
  filesystems : gmap (list ascii) fs_t;
  vfs_handles : dynarray;
  errno : Z;
  klog : list (loglevel * string);
  calls : list call_event;
  wild_reads : list Z
}.

Definition set_mountpoints (m : option (list (option mnt_t))) (k : kernel)
    : kernel :=
  {| mountpoints := m; mountpoints_lock := mountpoints_lock k;
     filesystems := filesystems k; vfs_handles := vfs_handles k;
     errno := errno k; klog := klog k; calls := calls k;
     wild_reads := wild_reads k |}.

Definition set_lock (b : bool) (k : kernel) : kernel :=
  {| mountpoints := mountpoints k; mountpoints_lock := b;
     filesystems := filesystems k; vfs_handles := vfs_handles k;
     errno := errno k; klog := klog k; calls := calls k;
     wild_reads := wild_reads k |}.

Definition set_filesystems (m : gmap (list ascii) fs_t) (k : kernel) : kernel :=
  {| mountpoints := mountpoints k; mountpoints_lock := mountpoints_lock k;
     filesystems := m; vfs_handles := vfs_handles k;
     errno := errno k; klog := klog k; calls := calls k;
     wild_reads := wild_reads k |}.

Definition set_handles (d : dynarray) (k : kernel) : kernel :=
  {| mountpoints := mountpoints k; mountpoints_lock := mountpoints_lock k;
     filesystems := filesystems k; vfs_handles := d;
     errno := errno k; klog := klog k; calls := calls k;
     wild_reads := wild_reads k |}.

Definition set_errno (e : Z) (k : kernel) : kernel :=
  {| mountpoints := mountpoints k; mountpoints_lock := mountpoints_lock k;
     filesystems := filesystems k; vfs_handles := vfs_handles k;
     errno := e; klog := klog k; calls := calls k;
     wild_reads := wild_reads k |}.

Definition add_log (l : loglevel) (msg : string) (k : kernel) : kernel :=
  {| mountpoints := mountpoints k; mountpoints_lock := mountpoints_lock k;
     filesystems := filesystems k; vfs_handles := vfs_handles k;
     errno := errno k; klog := klog k ++ [(l, msg)]; calls := calls k;
     wild_reads := wild_reads k |}.

Definition add_call (e : call_event) (k : kernel) : kernel :=
  {| mountpoints := mountpoints k; mountpoints_lock := mountpoints_lock k;
     filesystems := filesystems k; vfs_handles := vfs_handles k;
     errno := errno k; klog := klog k; calls := calls k ++ [e];
     wild_reads := wild_reads k |}.

Definition add_wild_read (i : Z) (k : kernel) : kernel :=
  {| mountpoints := mountpoints k; mountpoints_lock := mountpoints_lock k;
     filesystems := filesystems k; vfs_handles := vfs_handles k;
     errno := errno k; klog := klog k; calls := calls k;
     wild_reads := wild_reads k ++ [i] |}.

(** *** Kernel computations *)

(** A kernel routine either returns a value in a new state, never
    returns because it spins on a lock that is held, or dereferences a
    null pointer. *)
Inductive result (A : Type) :=
| Ok (a : A) (k : kernel)
| Spin (k : kernel)
| Fault (k : kernel).
Arguments Ok {A} a k.
Arguments Spin {A} k.
Arguments Fault {A} k.

Definition M (A : Type) : Type := kernel → result A.

Definition ret {A} (a : A) : M A := λ k, Ok a k.

Definition bind {A B} (m : M A) (f : A → M B) : M B := λ k,
  match m k with
  | Ok a k' => f a k'
  | Spin k' => Spin k'
  | Fault k' => Fault k'
  end.

Declare Scope kernel_scope.
Delimit Scope kernel_scope with kernel.
Notation "'let*' x := m 'in' f" := (bind m (λ x, f))
  (at level 100, x pattern, m at next level, right associativity)
  : kernel_scope.
Local Open Scope kernel_scope.

Definition modify (f : kernel → kernel) : M unit := λ k, Ok tt (f k).

Definition spinlock_acquire_mountpoints : M unit := λ k,
  if mountpoints_lock k then Spin k else Ok tt (set_lock true k).

Definition spinlock_release_mountpoints : M unit := modify (set_lock false).

Definition ht_dump_mountpoints : M (option (list (option mnt_t))) := λ k,
  Ok (mountpoints k) k.

Definition kprint (l : loglevel) (msg : string) : M unit := modify (add_log l msg).

(** *** Mountpoint resolution *)

(** The body of the scan loop for the record at index [i]; the state is
    [(guess, guess_size)]. *)
Definition scan_step (path : cstring) (i : nat) (m : option mnt_t)
    (g : Z * nat) : Z * nat :=
  match m with
  | None => g
  | Some m =>
      let len := kstrlen (name m) in
      if (kstrncmp path (name m) len =? 0)%Z then
        if (((byte_at path len =? SLASH)%char
             || (byte_at path len =? NUL)%char)
            || (kstrcmp (name m) (cs "/") =? 0)%Z)
           && (g.2 <? len)%nat
        then (Z.of_nat i, len)
        else g
      else g
  end.

Fixpoint scan (path : cstring) (mnts : list (option mnt_t)) (i : nat)
    (g : Z * nat) : Z * nat :=
  match mnts with
  | [] => g
  | m :: rest => scan path rest (S i) (scan_step path i m g)
  end.

(** [mnts[guess]]: the read is in bounds when the lookup succeeds;
    otherwise it is recorded as a wild read and yields no record. *)
Definition read_mnts (mnts : list (option mnt_t)) (guess : Z)
    : M (option mnt_t) := λ k,
  match index_Z mnts guess with
  | Some r => Ok r k
  | None => Ok None (add_wild_read guess k)
  end.

(** Returns the mount record and, through [local_path], the part of the
    path inside the mountpoint ([None] while [*local_path] is unwritten). *)
Definition vfs_get_mountpoint (path : cstring)
    : M (option mnt_t * option cstring) :=
  let* _ := spinlock_acquire_mountpoints in
  let* mnts := ht_dump_mountpoints in
  match mnts with
  | None => ret (None, None)
  | Some mnts =>
      let '(guess, guess_size) := scan path mnts 0 (to_size_t (-1), 0%nat) in
      let local_path := path in
      let local_path :=
        if (1 <? guess_size)%nat then drop guess_size local_path
        else local_path in
      let local_path :=
        if (byte_at local_path 0 =? NUL)%char then cs "/" else local_path in
      let* r := read_mnts mnts guess in
      let* _ := spinlock_release_mountpoints in
      if negb (guess =? to_size_t (-1))%Z
      then ret (r, Some local_path)
      else ret (None, Some local_path)
  end.

(** *** Path normalisation *)

(** [while ( *path_ptr != '/') path_ptr--;] on the output buffer, whose
    first byte is at offset 0; [None] when the pointer leaves the buffer. *)
Fixpoint rewind (buf : buffer) (path_ptr : nat) : option nat :=
  match path_ptr with
  | 0 => if (buf 0%nat =? SLASH)%char then Some 0%nat else None
  | S q => if (buf (S q) =? SLASH)%char then Some (S q) else rewind buf q
  end.

(** The code at label [term]. *)
Definition term (buf : buffer) (path_ptr : nat) : option buffer :=
  match path_ptr with
  | 0 => None
  | S q =>
      let path_ptr :=
        if (buf q =? SLASH)%char && negb (q =? 0)%nat then q else path_ptr in
      Some (<[path_ptr := NUL]> buf)
  end.

Inductive label := L_switch | L_first_run.

(** The loop of [vfs_get_absolute_path], entered at the [switch] or at
    [first_run]; [path] is the input from the read pointer on. *)
Fixpoint normalise (fuel : nat) (l : label) (path : cstring) (buf : buffer)
    (path_ptr : nat) : option buffer :=
  match fuel with
  | 0 => None
  | S fuel =>
      match l with
      | L_switch =>
          if (byte_at path 0 =? SLASH)%char then
            normalise fuel L_first_run (tail path) buf path_ptr
          else if (byte_at path 0 =? NUL)%char then
            term buf path_ptr
          else
            normalise fuel L_switch (tail path)
              (<[path_ptr := byte_at path 0]> buf) (S path_ptr)
      | L_first_run =>
          if (byte_at path 0 =? SLASH)%char then
            normalise fuel L_switch path buf path_ptr
          else if (kstrncmp path [DOT; NUL] 2 =? 0)%Z
                  || (kstrncmp path [DOT; SLASH; NUL] 3 =? 0)%Z then
            term buf path_ptr
          else if (kstrncmp path [DOT; DOT; NUL] 3 =? 0)%Z
                  || (kstrncmp path [DOT; DOT; SLASH; NUL] 4 =? 0)%Z then
            match rewind buf path_ptr with
            | None => None
            | Some p =>
                let p := if (p =? 0)%nat then S p else p in
                term buf p
            end
          else if (kstrncmp path [DOT; DOT; SLASH] 3 =? 0)%Z then
            match rewind buf path_ptr with
            | None => None
            | Some p =>
                let p := if (p =? 0)%nat then S p else p in
                normalise fuel L_switch (drop 2 path) (<[p := NUL]> buf) p
            end
          else if (kstrncmp path [DOT; SLASH] 2 =? 0)%Z then
            normalise fuel L_switch (drop 1 path) buf path_ptr
          else
            match path_ptr with
            | 0 => None
            | S q =>
                if negb (q =? 0)%nat && negb (buf q =? SLASH)%char
                then normalise fuel L_switch path
                       (<[path_ptr := SLASH]> buf) (S path_ptr)
                else normalise fuel L_switch path buf path_ptr
            end
      end
  end.

(** [buf] is the memory behind [path_ptr] on entry, whatever it holds;
    the result is that memory on return, [None] when a pointer would
    leave it downwards. *)
Definition vfs_get_absolute_path (buf : buffer) (path pwd : cstring)
    : option buffer :=
  let fuel := (2 * length path + 2)%nat in
  if (byte_at path 0 =? NUL)%char then
    Some (kstrcpy buf 0 pwd)
  else if negb (byte_at path 0 =? SLASH)%char then
    let buf := kstrcpy buf 0 pwd in
    let path_ptr := (0 + buf_strlen (S (length pwd)) buf 0)%nat in
    normalise fuel L_first_run path buf path_ptr
  else
    normalise fuel L_first_run (tail path) (<[0%nat := SLASH]> buf) 1.

(** The string left at [path_ptr] by [vfs_get_absolute_path]. *)
Definition absolute_path (buf : buffer) (path pwd : cstring) : option cstring :=
  match vfs_get_absolute_path buf path pwd with
  | Some out => Some (buf_cstr (length pwd + length path + 2) out 0)
  | None => None
  end.

(** *** Filesystem registry *)

(** Modelled from the spec: the error code [ENOSYS] of lib/errno.h,
    whose source is not available; only its identity matters. *)
Definition ENOSYS : Z := 38.

Definition vfs_call_invalid : M Z :=
  let* _ := kprint KPRN_WARN
    "vfs: Unimplemented filesystem call occurred, returning ENOSYS!" in
  let* _ := modify (set_errno ENOSYS) in
  ret (-1)%Z.

(** The patching loop over the [n] slots of the operations region [p],
    from index [i] on. *)
Fixpoint fill_slots (n i : nat) (p : list fnptr) : list fnptr :=
  match n with
  | 0 => p
  | S n' =>
      let p :=
        match p !! i with
        | Some fn_null => <[i := fn_vfs_call_invalid]> p
        | _ => p
        end in
      fill_slots n' (S i) p
  end.

Definition ht_add_filesystems (f : fs_t) : M Z := λ k,
  match filesystems k !! fs_name f with
  | Some _ => Ok (-1)%Z k
  | None => Ok 0%Z (set_filesystems (<[fs_name f := f]> (filesystems k)) k)
  end.

(** Returns the status of [ht_add] together with the caller's driver
    structure, which has been patched in place. *)
Definition vfs_install_fs (filesystem : fs_t) : M (Z * fs_t) :=
  let p := fs_ops filesystem in
  let p := fill_slots (length p) 0 p in
  let filesystem := {| fs_name := fs_name filesystem; fs_ops := p |} in
  let* r := ht_add_filesystems filesystem in
  ret (r, filesystem).

(** *** Dispatch *)

(** A call through slot [op] of a driver's table. *)
Definition call_op (f : fs_t) (op : nat) (args : list arg) : M Z := λ k,
  match fs_ops f !! op with
  | None | Some fn_null => Fault k
  | Some fn_vfs_call_invalid => vfs_call_invalid k
  | Some (fn_driver impl) =>
      let r := impl (calls k) args in
      Ok r (add_call {| ev_fs := fs_name f; ev_op := op;
                        ev_args := args; ev_ret := r |} k)
  end.

Definition deref {A} (p : option A) : M A := λ k,
  match p with
  | Some a => Ok a k
  | None => Fault k
  end.

Definition dynarray_getelem (fd : Z) : M (option vfs_handle_t) := λ k,
  let '(r, d) := da_getelem (vfs_handles k) fd in Ok r (set_handles d k).

Definition dynarray_unref (fd : Z) : M unit :=
  modify (λ k, set_handles (da_unref (vfs_handles k) fd) k).

Definition dynarray_remove (fd : Z) : M unit :=
  modify (λ k, set_handles (da_remove (vfs_handles k) fd) k).

Definition dynarray_add (x : vfs_handle_t) : M Z := λ k,
  let '(r, d) := da_add (vfs_handles k) x in Ok r (set_handles d k).

Definition vfs_dup (fd : Z) : M Z :=
  let* fd_ptr := dynarray_getelem fd in
  let* h := deref fd_ptr in
  let intern_fd := intern_fd h in
  let* r := call_op (vh_fs h) OP_dup [A_int intern_fd] in
  if (r =? -1)%Z then
    let* _ := dynarray_unref fd in
    ret (-1)%Z
  else
    let* r := dynarray_add h in
    let* _ := dynarray_unref fd in
    ret r.

Definition vfs_readdir (fd : Z) : M Z :=
  let* fd_ptr := dynarray_getelem fd in
  let* h := deref fd_ptr in
  let intern_fd := intern_fd h in
  let* r := call_op (vh_fs h) OP_readdir [A_int intern_fd; A_ptr] in
  let* _ := dynarray_unref fd in
  ret r.

Definition vfs_read (fd : Z) (len : Z) : M Z :=
  let* fd_ptr := dynarray_getelem fd in
  let* h := deref fd_ptr in
  let intern_fd := intern_fd h in
  let* r := call_op (vh_fs h) OP_read [A_int intern_fd; A_ptr; A_int len] in
  let* _ := dynarray_unref fd in
  ret r.

Definition vfs_write (fd : Z) (len : Z) : M Z :=
  let* fd_ptr := dynarray_getelem fd in
  let* h := deref fd_ptr in
  let intern_fd := intern_fd h in
  let* r := call_op (vh_fs h) OP_write [A_int intern_fd; A_ptr; A_int len] in
  let* _ := dynarray_unref fd in
  ret r.

Definition vfs_close (fd : Z) : M Z :=
  let* fd_ptr := dynarray_getelem fd in
  let* fd_copy := deref fd_ptr in
  let* _ := dynarray_unref fd in
  let* _ := dynarray_remove fd in
  let intern_fd := intern_fd fd_copy in
  let* r := call_op (vh_fs fd_copy) OP_close [A_int intern_fd] in
  if negb (r =? 0)%Z then ret (-1)%Z
  else ret 0%Z.

Definition vfs_lseek (fd : Z) (offset : Z) (type : Z) : M Z :=
  let* fd_ptr := dynarray_getelem fd in
  let* h := deref fd_ptr in
  let intern_fd := intern_fd h in
  let* r := call_op (vh_fs h) OP_lseek
              [A_int intern_fd; A_int offset; A_int type] in
  let* _ := dynarray_unref fd in
  ret r.

Definition vfs_fstat (fd : Z) : M Z :=
  let* fd_ptr := dynarray_getelem fd in
  let* h := deref fd_ptr in
  let intern_fd := intern_fd h in
  let* r := call_op (vh_fs h) OP_fstat [A_int intern_fd; A_ptr] in
  let* _ := dynarray_unref fd in
  ret r.

Record fd_handler_t := {
  h_close : Z → M Z;
  h_fstat : Z → M Z;
  h_read : Z → Z → M Z;
  h_write : Z → Z → M Z;
  h_lseek : Z → Z → Z → M Z;
  h_dup : Z → M Z;
  h_readdir : Z → M Z
}.

Definition vfs_functions : fd_handler_t := {|
  h_close := vfs_close;
  h_fstat := vfs_fstat;
  h_read := vfs_read;
  h_write := vfs_write;
  h_lseek := vfs_lseek;
  h_dup := vfs_dup;
  h_readdir := vfs_readdir
|}.

Record file_descriptor_t := {
  fd_intern_fd : Z;
  fd_handler : fd_handler_t
}.

(** [fd_create] belongs to the generic descriptor table, outside this
    layer; it is a parameter giving the value it returns for the
    descriptor it is handed. *)
Definition open (fd_create : file_descriptor_t → Z) (path : cstring)
    (mode : Z) : M Z :=
  let* (mountpoint, loc_path) := vfs_get_mountpoint path in
  match mountpoint with
  | None => ret (-1)%Z
  | Some mountpoint =>
      let magic := magic mountpoint in
      let fs := fs mountpoint in
      let* loc_path := deref loc_path in
      let* intern_fd := call_op fs OP_open
                          [A_str loc_path; A_int mode; A_int magic] in
      if (intern_fd =? -1)%Z then ret (-1)%Z
      else
        let vfs_handle := {| vh_fs := fs; intern_fd := intern_fd |} in
        let* vfs_fd := dynarray_add vfs_handle in
        let fd := {| fd_intern_fd := vfs_fd; fd_handler := vfs_functions |} in
        ret (fd_create fd)
  end.

End Vfs.

(** ** kernel/misc/kbd.c *)

Module Kbd.

Definition MAX_CODE : Z := 0x57.
Definition CAPSLOCK : Z := 0x3a.
Definition RIGHT_SHIFT : Z := 0x36.
Definition LEFT_SHIFT : Z := 0x2a.
Definition RIGHT_SHIFT_REL : Z := 0xb6.
Definition LEFT_SHIFT_REL : Z := 0xaa.
Definition LEFT_CTRL : Z := 0x1d.
Definition LEFT_CTRL_REL : Z := 0x9d.
Definition KBD_BUF_SIZE : nat := Z.to_nat 2048.
Definition BIG_BUF_SIZE : nat := Z.to_nat 65536.

(** Modelled from the spec: the [termios] flags [ICANON] and [ECHO] of
    misc/tty.h, whose source is not available; two distinct bits
    of [c_lflag]. *)
Definition ICANON : Z := 0x2.
Definition ECHO : Z := 0x8.

Definition BS : ascii := "008"%char.
Definition TAB : ascii := "009"%char.
Definition NL : ascii := "010"%char.

Definition ascii_capslock : list ascii :=
  [
     NUL; "?"; "1"; "2"; "3"; "4"; "5"; "6"; "7"; "8"; "9"; "0"; "-"; "="; BS; TAB;
     "Q"; "W"; "E"; "R"; "T"; "Y"; "U"; "I"; "O"; "P"; "["; "]"; NL; NUL; "A"; "S";
     "D"; "F"; "G"; "H"; "J"; "K"; "L"; ";"; "039"; "`"; NUL; "\"; "Z"; "X"; "C"; "V";
     "B"; "N"; "M"; ","; "."; "/"; NUL; NUL; NUL; " "
  ]%char.

Definition ascii_shift : list ascii :=
  [
     NUL; "?"; "!"; "@"; "#"; "$"; "%"; "^"; "&"; "*"; "("; ")"; "_"; "+"; BS; TAB;
     "Q"; "W"; "E"; "R"; "T"; "Y"; "U"; "I"; "O"; "P"; "{"; "}"; NL; NUL; "A"; "S";
     "D"; "F"; "G"; "H"; "J"; "K"; "L"; ":"; "034"; "~"; NUL; "|"; "Z"; "X"; "C"; "V";
     "B"; "N"; "M"; "<"; ">"; "?"; NUL; NUL; NUL; " "
  ]%char.

Definition ascii_shift_capslock : list ascii :=
  [
     NUL; "?"; "!"; "@"; "#"; "$"; "%"; "^"; "&"; "*"; "("; ")"; "_"; "+"; BS; TAB;
     "q"; "w"; "e"; "r"; "t"; "y"; "u"; "i"; "o"; "p"; "{"; "}"; NL; NUL; "a"; "s";
     "d"; "f"; "g"; "h"; "j"; "k"; "l"; ":"; "034"; "~"; NUL; "|"; "z"; "x"; "c"; "v";
     "b"; "n"; "m"; "<"; ">"; "?"; NUL; NUL; NUL; " "
  ]%char.

Definition ascii_nomod : list ascii :=
  [
     NUL; "?"; "1"; "2"; "3"; "4"; "5"; "6"; "7"; "8"; "9"; "0"; "-"; "="; BS; TAB;
     "q"; "w"; "e"; "r"; "t"; "y"; "u"; "i"; "o"; "p"; "["; "]"; NL; NUL; "a"; "s";
     "d"; "f"; "g"; "h"; "j"; "k"; "l"; ";"; "039"; "`"; NUL; "\"; "z"; "x"; "c"; "v";
     "b"; "n"; "m"; ","; "."; "/"; NUL; NUL; NUL; " "
  ]%char.

(** The keyboard singletons, the terminal attributes the handler
    consults, the two locks ([true]: held) and the bytes handed to
    [tty_putchar] so far. *)
Record kbd := {
  kbd_buf_i : nat;
  kbd_buf : buffer;
  big_buf_i : nat;
  big_buf : buffer;
  capslock_active : Z;
  shift_active : Z;
  ctrl_active : Z;
  c_lflag : Z;
  kbd_read_lock : bool;
  termios_lock : bool;
  tty : list ascii
}.

Definition set_kbd_buf_i (i : nat) (st : kbd) : kbd :=
  {| kbd_buf_i := i; kbd_buf := kbd_buf st; big_buf_i := big_buf_i st;
     big_buf := big_buf st; capslock_active := capslock_active st;
     shift_active := shift_active st; ctrl_active := ctrl_active st;
     c_lflag := c_lflag st; kbd_read_lock := kbd_read_lock st;
     termios_lock := termios_lock st; tty := tty st |}.

Definition set_kbd_buf (b : buffer) (st : kbd) : kbd :=
  {| kbd_buf_i := kbd_buf_i st; kbd_buf := b; big_buf_i := big_buf_i st;
     big_buf := big_buf st; capslock_active := capslock_active st;
     shift_active := shift_active st; ctrl_active := ctrl_active st;
     c_lflag := c_lflag st; kbd_read_lock := kbd_read_lock st;
     termios_lock := termios_lock st; tty := tty st |}.

Definition set_big_buf_i (i : nat) (st : kbd) : kbd :=
  {| kbd_buf_i := kbd_buf_i st; kbd_buf := kbd_buf st; big_buf_i := i;
     big_buf := big_buf st; capslock_active := capslock_active st;
     shift_active := shift_active st; ctrl_active := ctrl_active st;
     c_lflag := c_lflag st; kbd_read_lock := kbd_read_lock st;
     termios_lock := termios_lock st; tty := tty st |}.

Definition set_big_buf (b : buffer) (st : kbd) : kbd :=
  {| kbd_buf_i := kbd_buf_i st; kbd_buf := kbd_buf st;
     big_buf_i := big_buf_i st; big_buf := b;
     capslock_active := capslock_active st;
     shift_active := shift_active st; ctrl_active := ctrl_active st;
     c_lflag := c_lflag st; kbd_read_lock := kbd_read_lock st;
     termios_lock := termios_lock st; tty := tty st |}.

Definition set_capslock_active (v : Z) (st : kbd) : kbd :=
  {| kbd_buf_i := kbd_buf_i st; kbd_buf := kbd_buf st;
     big_buf_i := big_buf_i st; big_buf := big_buf st;
     capslock_active := v; shift_active := shift_active st;
     ctrl_active := ctrl_active st; c_lflag := c_lflag st;
     kbd_read_lock := kbd_read_lock st; termios_lock := termios_lock st;
     tty := tty st |}.

Definition set_shift_active (v : Z) (st : kbd) : kbd :=
  {| kbd_buf_i := kbd_buf_i st; kbd_buf := kbd_buf st;
     big_buf_i := big_buf_i st; big_buf := big_buf st;
     capslock_active := capslock_active st; shift_active := v;
     ctrl_active := ctrl_active st; c_lflag := c_lflag st;
     kbd_read_lock := kbd_read_lock st; termios_lock := termios_lock st;
     tty := tty st |}.

Definition set_ctrl_active (v : Z) (st : kbd) : kbd :=
  {| kbd_buf_i := kbd_buf_i st; kbd_buf := kbd_buf st;
     big_buf_i := big_buf_i st; big_buf := big_buf st;
     capslock_active := capslock_active st;
     shift_active := shift_active st; ctrl_active := v;
     c_lflag := c_lflag st; kbd_read_lock := kbd_read_lock st;
     termios_lock := termios_lock st; tty := tty st |}.

Definition set_kbd_read_lock (held : bool) (st : kbd) : kbd :=
  {| kbd_buf_i := kbd_buf_i st; kbd_buf := kbd_buf st;
     big_buf_i := big_buf_i st; big_buf := big_buf st;
     capslock_active := capslock_active st;
     shift_active := shift_active st; ctrl_active := ctrl_active st;
     c_lflag := c_lflag st; kbd_read_lock := held;
     termios_lock := termios_lock st; tty := tty st |}.

Definition set_termios_lock (held : bool) (st : kbd) : kbd :=
  {| kbd_buf_i := kbd_buf_i st; kbd_buf := kbd_buf st;
     big_buf_i := big_buf_i st; big_buf := big_buf st;
     capslock_active := capslock_active st;
     shift_active := shift_active st; ctrl_active := ctrl_active st;
     c_lflag := c_lflag st; kbd_read_lock := kbd_read_lock st;
     termios_lock := held; tty := tty st |}.

Definition tty_putchar (c : ascii) (st : kbd) : kbd :=
  {| kbd_buf_i := kbd_buf_i st; kbd_buf := kbd_buf st;
     big_buf_i := big_buf_i st; big_buf := big_buf st;
     capslock_active := capslock_active st;
     shift_active := shift_active st; ctrl_active := ctrl_active st;
     c_lflag := c_lflag st; kbd_read_lock := kbd_read_lock st;
     termios_lock := termios_lock st; tty := tty st ++ [c] |}.

(** A keyboard routine returns, spins for ever on a held lock, reads
    past the end of a decoding table, or (a reader) is still waiting
    when the interrupts supplied are used up. *)
Inductive outcome (A : Type) :=
| Done (a : A) (st : kbd)
| Spinning (st : kbd)
| Wild_read (st : kbd)
| Blocked (st : kbd).
Arguments Done {A} a st.
Arguments Spinning {A} st.
Arguments Wild_read {A} st.
Arguments Blocked {A} st.

(** C's [!x] on an [int]. *)
Definition lnot (x : Z) : Z := if (x =? 0)%Z then 1%Z else 0%Z.

Definition flag (lflag bit : Z) : bool := negb (Z.land lflag bit =? 0)%Z.

(** *** The interrupt handler *)

(** Label [out]. *)
Definition out (st : kbd) : kbd :=
  set_kbd_read_lock false (set_termios_lock false st).

(** Label [regular_character]. *)
Definition regular_character (c : ascii) (st : kbd) : kbd :=
  if (kbd_buf_i st =? KBD_BUF_SIZE)%nat then out st
  else
    let st := set_kbd_buf_i (S (kbd_buf_i st))
                (set_kbd_buf (<[kbd_buf_i st := c]> (kbd_buf st)) st) in
    let st := if flag (c_lflag st) ECHO then tty_putchar c st else st in
    out st.

(** The copy loop of the newline case, [n] iterations left, at index [i]. *)
Fixpoint commit_loop (n i : nat) (st : kbd) : kbd :=
  match n with
  | 0 => st
  | S n' =>
      if (big_buf_i st =? BIG_BUF_SIZE)%nat then st
      else
        commit_loop n' (S i)
          (set_big_buf_i (S (big_buf_i st))
             (set_big_buf (<[big_buf_i st := kbd_buf st i]> (big_buf st)) st))
  end.

(** From the acquisition of [termios_lock] on: the [switch] on the
    decoded character. *)
Definition dispatch (c : ascii) (st : kbd) : outcome unit :=
  if termios_lock st then Spinning st
  else
    let st := set_termios_lock true st in
    if (c =? NL)%char then
      if negb (flag (c_lflag st) ICANON) then Done tt (regular_character c st)
      else if (kbd_buf_i st =? KBD_BUF_SIZE)%nat then
        Done tt (regular_character c st)
      else
        let st := set_kbd_buf_i (S (kbd_buf_i st))
                    (set_kbd_buf (<[kbd_buf_i st := c]> (kbd_buf st)) st) in
        let st := if flag (c_lflag st) ECHO then tty_putchar c st else st in
        let st := commit_loop (kbd_buf_i st) 0 st in
        let st := set_kbd_buf_i 0 st in
        Done tt (out st)
    else if (c =? BS)%char then
      if negb (flag (c_lflag st) ICANON) then Done tt (regular_character c st)
      else if (kbd_buf_i st =? 0)%nat then
        Done tt (regular_character c st)
      else
        let i := pred (kbd_buf_i st) in
        let st := set_kbd_buf (<[i := NUL]> (kbd_buf st))
                    (set_kbd_buf_i i st) in
        let st :=
          if flag (c_lflag st) ECHO
          then tty_putchar BS (tty_putchar " " (tty_putchar BS st))
          else st in
        Done tt (out st)
    else Done tt (regular_character c st).

(** The character a scancode below [MAX_CODE] stands for under the
    current modifiers; [None] when the index is past the table's end. *)
Definition decode (input_byte : Z) (st : kbd) : option ascii :=
  if (capslock_active st =? 0)%Z && (shift_active st =? 0)%Z then
    ascii_nomod !! Z.to_nat input_byte
  else if (capslock_active st =? 0)%Z && negb (shift_active st =? 0)%Z then
    ascii_shift !! Z.to_nat input_byte
  else if negb (capslock_active st =? 0)%Z && negb (shift_active st =? 0)%Z then
    ascii_shift_capslock !! Z.to_nat input_byte
  else
    ascii_capslock !! Z.to_nat input_byte.

Definition kbd_handler (input_byte : Z) (st : kbd) : outcome unit :=
  let input_byte := (input_byte mod 256)%Z in
  if kbd_read_lock st then Spinning st
  else
    let st := set_kbd_read_lock true st in
    if negb (ctrl_active st =? 0)%Z && (input_byte =? 0x2e)%Z then
      Done tt (out st)
    else if (input_byte =? CAPSLOCK)%Z then
      Done tt (out (set_capslock_active (lnot (capslock_active st)) st))
    else if (input_byte =? LEFT_SHIFT)%Z || (input_byte =? RIGHT_SHIFT)%Z
            || (input_byte =? LEFT_SHIFT_REL)%Z
            || (input_byte =? RIGHT_SHIFT_REL)%Z then
      Done tt (out (set_shift_active (lnot (shift_active st)) st))
    else if (input_byte =? LEFT_CTRL)%Z || (input_byte =? LEFT_CTRL_REL)%Z then
      Done tt (out (set_ctrl_active (lnot (ctrl_active st)) st))
    else if (input_byte <? MAX_CODE)%Z then
      match decode input_byte st with
      | Some c => dispatch c st
      | None => Wild_read st
      end
    else Done tt (out st).

(** The interrupts served while a reader is suspended in [yield]. *)
Fixpoint deliver (scancodes : list Z) (st : kbd) : outcome unit :=
  match scancodes with
  | [] => Done tt st
  | b :: rest =>
      match kbd_handler b st with
      | Done _ st => deliver rest st
      | other => other
      end
  end.

(** *** The reader *)

(** The drain loop of the non-canonical path, [n] iterations left. *)
Fixpoint drain (n i : nat) (buf : buffer) (st : kbd) : nat * buffer * kbd :=
  match n with
  | 0 => (i, buf, st)
  | S n' =>
      drain n' (S i) (<[i := kbd_buf st i]> buf)
        (set_kbd_buf (<[i := NUL]> (kbd_buf st)) st)
  end.

(** The non-canonical path from label [try_again] on.  [env] lists, for
    each [yield] still to come, the scancodes that arrive during it: a
    reader that finds [kbd_read_lock] taken, or the raw buffer empty,
    sleeps in [yield] and starts again from [try_again]; it is left
    suspended there when [env] is used up. *)
Fixpoint read_raw (env : list (list Z)) (buf : buffer) (st : kbd)
    : outcome (Z * buffer) :=
  let yield_then (st : kbd) : outcome (Z * buffer) :=
    match env with
    | [] => Blocked st
    | scancodes :: env' =>
        match deliver scancodes st with
        | Done _ st => read_raw env' buf st
        | Spinning st => Spinning st
        | Wild_read st => Wild_read st
        | Blocked st => Blocked st
        end
    end in
  if kbd_read_lock st then yield_then st
  else
    let st := set_kbd_read_lock true st in
    if (kbd_buf_i st =? 0)%nat then
      let st := set_kbd_read_lock false st in
      yield_then st
    else
      let '(i, buf, st) := drain (kbd_buf_i st) 0 buf st in
      let st := set_kbd_buf_i 0 st in
      let st := set_kbd_read_lock false st in
      Done (to_int (Z.of_nat i), buf) st.

(** The shift loop of the canonical path, [n] iterations left. *)
Fixpoint shift_down (n j : nat) (b : buffer) : buffer :=
  match n with
  | 0 => b
  | S n' => shift_down n' (S j) (<[j := b (S j)]> b)
  end.

(** The copy loop of the canonical path with the lock held: [n] is
    [count - i].  [yield_then] is what follows the release of the lock
    in the waiting branch: the [yield], the wait for the lock, and the
    loop again. *)
Definition cooked_loop
    (yield_then : nat → nat → Z → buffer → kbd → outcome (Z * buffer))
    (count : nat) : nat → nat → Z → buffer → kbd → outcome (Z * buffer) :=
  fix loop (n i : nat) (wait : Z) (buf : buffer) (st : kbd) :=
    match n with
    | 0 => Done (to_int (Z.of_nat count), buf) (set_kbd_read_lock false st)
    | S n' =>
        if negb (big_buf_i st =? 0)%nat then
          let buf := <[i := big_buf st 0%nat]> buf in
          let st := set_big_buf_i (pred (big_buf_i st)) st in
          let st := set_big_buf (shift_down (big_buf_i st) 0 (big_buf st)) st in
          loop n' (S i) 0%Z buf st
        else if negb (wait =? 0)%Z then
          let st := set_kbd_read_lock false st in
          yield_then n i wait buf st
        else
          Done (to_int (Z.of_nat i), buf) (set_kbd_read_lock false st)
    end.

(** The canonical path from a wait for [kbd_read_lock] on: a reader
    that finds the lock taken sleeps in [yield] and tries again; once
    it has the lock it runs the copy loop.  It is left suspended in
    [yield] when [env] is used up. *)
Fixpoint read_cooked (env : list (list Z)) (count n i : nat) (wait : Z)
    (buf : buffer) (st : kbd) : outcome (Z * buffer) :=
  let yield_then (n i : nat) (wait : Z) (buf : buffer) (st : kbd)
      : outcome (Z * buffer) :=
    match env with
    | [] => Blocked st
    | scancodes :: env' =>
        match deliver scancodes st with
        | Done _ st => read_cooked env' count n i wait buf st
        | Spinning st => Spinning st
        | Wild_read st => Wild_read st
        | Blocked st => Blocked st
        end
    end in
  if kbd_read_lock st then yield_then n i wait buf st
  else cooked_loop yield_then count n i wait buf (set_kbd_read_lock true st).

Definition kbd_read (env : list (list Z)) (buf : buffer) (count : nat)
    (st : kbd) : outcome (Z * buffer) :=
  let wait := 1%Z in
  if termios_lock st then Spinning st
  else
    let st := set_termios_lock true st in
    if negb (flag (c_lflag st) ICANON) then
      let st := set_termios_lock false st in
      read_raw env buf st
    else
      let st := set_termios_lock false st in
      read_cooked env count count 0 wait buf st.

End Kbd.

Import Vfs Kbd.

(** * Specification vocabulary *)

(** ** Mount resolution *)

(** The test the scan loop applies to a record, as one boolean. *)
Definition accepts (path : cstring) (m : mnt_t) : bool :=
  (kstrncmp path (name m) (kstrlen (name m)) =? 0)%Z
  && (((byte_at path (kstrlen (name m)) =? SLASH)%char
       || (byte_at path (kstrlen (name m)) =? NUL)%char)
      || (kstrcmp (name m) (cs "/") =? 0)%Z).

(** In the words of the specification: the target path of [m] is a prefix
    of [P] whose next character in [P] is a slash or the end of the
    string, the path [/] matching unconditionally. *)
Definition covers (m : mnt_t) (P : cstring) : Prop :=
  name m `prefix_of` P
  ∧ (byte_at P (length (name m)) = SLASH
     ∨ byte_at P (length (name m)) = NUL
     ∨ name m = cs "/").

(** The part of [P] inside the mountpoint [m]: what follows the target
    path (all of [P] for a target path of one byte), or [/] when that is
    empty. *)
Definition local_part (m : mnt_t) (P : cstring) : cstring :=
  let rest :=
    if (1 <? length (name m))%nat then drop (length (name m)) P else P in
  match rest with
  | [] => cs "/"
  | _ => rest
  end.

(** C1 as stated, for one kernel state and one path: the resolver returns
    the record of the longest covering target path. *)
Definition resolves_to_longest_cover (k : kernel) (P : cstring) : Prop :=
  ∀ mnts m,
    mountpoints k = Some mnts →
    Some m ∈ mnts →
    covers m P →
    (∀ m', Some m' ∈ mnts → covers m' P → length (name m') ≤ length (name m)) →
    ∃ lp k', vfs_get_mountpoint P k = Ok (Some m, lp) k'.

(** ** Handle table and dispatch *)

Definition close_event (h : vfs_handle_t) (r : Z) : call_event :=
  {| ev_fs := fs_name (vh_fs h); ev_op := OP_close;
     ev_args := [A_int (intern_fd h)]; ev_ret := r |}.

(** The kernel state once [vfs_close] has withdrawn the entry [fd]:
    reference taken, dropped, element removed; no driver called yet. *)
Definition withdrawn (fd : Z) (k : kernel) : kernel :=
  set_handles
    (da_remove (da_unref (da_getelem (vfs_handles k) fd).2 fd) fd) k.

(** [vfs_close] from the call of the driver's close on, for the copy
    [fd_copy] of the handle. *)
Definition close_driver (fd_copy : vfs_handle_t) : M Z :=
  bind (call_op (vh_fs fd_copy) OP_close [A_int (intern_fd fd_copy)])
    (λ r, if negb (r =? 0)%Z then ret (-1)%Z else ret 0%Z).

Definition open_event (m : mnt_t) (lp : cstring) (mode r : Z) : call_event :=
  {| ev_fs := fs_name (fs m); ev_op := OP_open;
     ev_args := [A_str lp; A_int mode; A_int (magic m)]; ev_ret := r |}.

(** C3 as stated, for one kernel state and one handle: when the driver's
    close fails, [vfs_close] returns -1 and the entry is still there. *)
Definition close_keeps_entry_on_failure (k : kernel) (fd : Z) : Prop :=
  ∀ h impl,
    da_present (vfs_handles k) fd = Some h →
    fs_ops (vh_fs h) !! OP_close = Some (fn_driver impl) →
    impl (calls k) [A_int (intern_fd h)] ≠ 0%Z →
    ∃ k', vfs_close fd k = Ok (-1)%Z k'
          ∧ da_present (vfs_handles k') fd = Some h.

(** What one pass of the patching loop does to a slot. *)
Definition patch (f : fnptr) : fnptr :=
  match f with
  | fn_null => fn_vfs_call_invalid
  | _ => f
  end.

(** The handle table has no room: [dynarray_add] fails. *)
Definition da_full (d : dynarray) : Prop :=
  find_free (da_slots d) 0 = None ∧ da_capacity d ≤ length (da_slots d).

(** C8 as stated, for one call: when the driver's open succeeded and the
    handle table has no room, [open] returns -1 and the driver's close has
    been called on the internal descriptor. *)
Definition open_closes_on_failed_install
    (fd_create : file_descriptor_t → Z) (k : kernel) (path : cstring)
    (mode : Z) : Prop :=
  ∀ r k' ev,
    open fd_create path mode k = Ok r k' →
    ev ∈ calls k' → ev_op ev = OP_open → ev_ret ev ≠ (-1)%Z →
    da_full (vfs_handles k) →
    r = (-1)%Z
    ∧ ∃ ev', ev' ∈ calls k' ∧ ev_op ev' = OP_close
             ∧ ev_args ev' = [A_int (ev_ret ev)].

(** ** Normalised paths *)

(** The four properties of a normalised path, each decidable. *)
Definition is_absolute (s : cstring) : bool := (byte_at s 0 =? SLASH)%char.

Fixpoint has_double_slash (s : cstring) : bool :=
  match s with
  | [] => false
  | c :: r =>
      match r with
      | [] => false
      | d :: _ => ((c =? SLASH)%char && (d =? SLASH)%char) || has_double_slash r
      end
  end.

(** The pieces of [s] between its slashes. *)
Fixpoint segments (s : cstring) : list cstring :=
  match s with
  | [] => [[]]
  | c :: r =>
      if (c =? SLASH)%char then [] :: segments r
      else match segments r with
           | g :: gs => (c :: g) :: gs
           | [] => [[c]]
           end
  end.

Definition is_dot_segment (g : cstring) : bool :=
  bool_decide (g = [DOT]) || bool_decide (g = [DOT; DOT]).

Definition has_dot_segment (s : cstring) : bool :=
  existsb is_dot_segment (segments s).

Definition has_trailing_slash (s : cstring) : bool :=
  match last s with
  | Some c => (c =? SLASH)%char
  | None => false
  end.

Definition normalised (s : cstring) : bool :=
  is_absolute s
  && negb (has_double_slash s)
  && negb (has_dot_segment s)
  && (negb (has_trailing_slash s) || bool_decide (s = [SLASH])).

(** C2 as stated, for one buffer, path and working directory: the
    normaliser returns and the string it leaves is normalised. *)
Definition normalises (buf : buffer) (path pwd : cstring) : Prop :=
  ∃ out, absolute_path buf path pwd = Some out ∧ normalised out = true.

(** A normalised path seen as a stack of segments: [render] writes the
    stack back as a path. *)
Record good_seg (g : cstring) : Prop := {
  gs_nonempty : g ≠ [];
  gs_noslash : SLASH ∉ g;
  gs_nonul : NUL ∉ g;
  gs_nodot : g ≠ [DOT];
  gs_nodotdot : g ≠ [DOT; DOT]
}.

Fixpoint join (segs : list cstring) : cstring :=
  match segs with
  | [] => []
  | g :: gs => SLASH :: g ++ join gs
  end.

Definition render (segs : list cstring) : cstring :=
  match segs with
  | [] => [SLASH]
  | _ => join segs
  end.

(** The inverse of [segments]. *)
Fixpoint unsplit (gs : list cstring) : cstring :=
  match gs with
  | [] => []
  | g :: rest =>
      match rest with
      | [] => g
      | _ => g ++ SLASH :: unsplit rest
      end
  end.

(** The bytes of [buf] below offset [p]. *)
Definition written (buf : buffer) (p : nat) : cstring := buf <$> seq 0 p.

(** The first segment of the unread input. *)
Fixpoint fseg (path : cstring) : cstring :=
  match path with
  | [] => []
  | c :: r => if (c =? SLASH)%char || (c =? NUL)%char then [] else c :: fseg r
  end.

(** What the loop maintains about the written part of the output, at
    each of its two entry points: at [first_run] it is a rendered stack;
    at the [switch] it is a rendered stack with a separator ahead in the
    input, or a stack followed by a slash and the part already copied of
    a segment that will be neither [.] nor [..]. *)
Inductive inv : label → cstring → cstring → Prop :=
| inv_first_run (path : cstring) (segs : list cstring) :
    Forall good_seg segs →
    inv L_first_run path (render segs)
| inv_switch_sep (path : cstring) (segs : list cstring) :
    Forall good_seg segs →
    byte_at path 0 = SLASH →
    inv L_switch path (render segs)
| inv_switch_seg (path : cstring) (segs : list cstring) (part : cstring) :
    Forall good_seg segs →
    SLASH ∉ part → NUL ∉ part →
    part ++ fseg path ≠ [DOT] →
    part ++ fseg path ≠ [DOT; DOT] →
    (part = [] → byte_at path 0 ≠ SLASH) →
    inv L_switch path (join segs ++ SLASH :: part).

(** Iterations the loop needs at most from a given point, and bytes it
    may still append. *)
Definition fuel_needed (l : label) (path : cstring) : nat :=
  match l with
  | L_switch => 2 * length path + 1
  | L_first_run => 2 * length path + 2
  end.

Definition slack (l : label) (path : cstring) : nat :=
  match l with
  | L_switch => length path
  | L_first_run => S (length path)
  end.

(** The output holds the rendered stack [segs], terminated, within
    [limit] bytes. *)
Definition finished (out : buffer) (segs : list cstring) (limit : nat) : Prop :=
  Forall good_seg segs
  ∧ written out (length (render segs)) = render segs
  ∧ out (length (render segs)) = NUL
  ∧ length (render segs) ≤ limit.

(** ** Keyboard *)

(** The line buffer and its index are the same in both states. *)
Definition same_line_buf (st st' : kbd) : Prop :=
  big_buf_i st' = big_buf_i st ∧ big_buf st' = big_buf st.

(** [st'] is [st] up to the line buffer and its index. *)
Definition line_update (st st' : kbd) : Prop :=
  st' = set_big_buf (big_buf st') (set_big_buf_i (big_buf_i st') st).


(** * Concrete states *)

(** A driver that implements only [open] and [close]. *)
Definition demo_driver (nm : string) (open_ret close_ret : Z) : fs_t :=
  {| fs_name := cs nm;
     fs_ops := [fn_null; fn_driver (λ _ _, open_ret);
                fn_driver (λ _ _, close_ret); fn_null; fn_null; fn_null;
                fn_null; fn_null; fn_null; fn_null] |}.

(** The kernel after [init_fd_vfs], before anything is mounted. *)
Definition boot : kernel :=
  {| mountpoints := None; mountpoints_lock := false; filesystems := ∅;
     vfs_handles := {| da_slots := []; da_capacity := 256 |};
     errno := 0; klog := []; calls := []; wild_reads := [] |}.

Definition mnt_root : mnt_t :=
  {| name := cs "/"; fs := demo_driver "fsA" 3 0; magic := 1 |}.

Definition mnt_usr : mnt_t :=
  {| name := cs "/usr"; fs := demo_driver "fsB" 4 0; magic := 2 |}.

Definition mnt_usr_local : mnt_t :=
  {| name := cs "/usr/local"; fs := demo_driver "fsC" 5 0; magic := 3 |}.

Definition mnt_blank : mnt_t :=
  {| name := []; fs := demo_driver "fsD" 6 0; magic := 4 |}.

Definition demo_mounts : list (option mnt_t) :=
  [Some mnt_root; Some mnt_usr; Some mnt_usr_local].

Definition demo_handle (close_ret : Z) : vfs_handle_t :=
  {| vh_fs := demo_driver "fsA" 3 close_ret; intern_fd := 3 |}.

Definition demo_open_table (close_ret : Z) : dynarray :=
  {| da_slots := [Some (fresh_elem (demo_handle close_ret))];
     da_capacity := 256 |}.

(** [/] mounted and a handle table without room. *)
Definition demo_full_kernel : kernel :=
  set_handles {| da_slots := []; da_capacity := 0 |}
    (set_mountpoints (Some [Some mnt_root]) boot).

(** The keyboard at boot, under the given [c_lflag]. *)
Definition kbd_init (lflag : Z) : kbd :=
  {| kbd_buf_i := 0; kbd_buf := λ _, NUL; big_buf_i := 0; big_buf := λ _, NUL;
     capslock_active := 0; shift_active := 0; ctrl_active := 0;
     c_lflag := lflag; kbd_read_lock := false; termios_lock := false;
     tty := [] |}.

(** The scancodes of [h], [i] and the return key. *)
Definition hi_scancodes : list Z := [0x23; 0x17; 0x1c]%Z.

(** Canonical mode with the raw buffer full. *)
Definition kbd_full : kbd := set_kbd_buf_i KBD_BUF_SIZE (kbd_init ICANON).


(** Case analysis on membership in an explicit list. *)
Ltac elem_cases H :=
  repeat (apply elem_of_cons in H as [H|H]; [try (injection H as ->)|]);
  try (by apply elem_of_nil in H).

(** * Further routines of kernel/fd/vfs/vfs.c *)

Local Open Scope kernel_scope.

(** ** [vfs_sync] and [vfs_sync_worker] *)

(** Modelled from the spec: what [ht_dump] of lib/ht.h, whose source is
    not available, yields for the registry: a null pointer, or an array
    of driver pointers whose order the interface does not fix. *)
Abbreviation fs_dump := (option (list (option fs_t))).

(** The loop of [vfs_sync] over the dumped array, from the current
    element on: each pointer is dereferenced without a check and the
    value [sync] returns is dropped. *)
Fixpoint sync_loop (fs : list (option fs_t)) : M unit :=
  match fs with
  | [] => ret tt
  | f :: rest =>
      let* f := deref f in
      let* _ := call_op f OP_sync [] in
      sync_loop rest
  end.

(** [dump] is what [ht_dump] yields during the call.
    [filesystems_lock] is taken as an argument and handed back with
    the return value ([true]: held). *)
Definition vfs_sync (dump : fs_dump) (filesystems_lock : bool)
    : M (Z * bool) := λ k,
  if filesystems_lock then Spin k
  else
    let filesystems_lock := true in
    match dump with
    | None => Ok (0%Z, filesystems_lock) k
    | Some fs =>
        match sync_loop fs k with
        | Ok _ k' =>
            let filesystems_lock := false in
            Ok (0%Z, filesystems_lock) k'
        | Spin k' => Spin k'
        | Fault k' => Fault k'
        end
    end.

(** The first rounds of the endless loop of [vfs_sync_worker], one per
    element of [rounds], which lists what [ht_dump] yields in each
    round; [yield] only lets time pass.  The value handed back is the
    state of [filesystems_lock] after the last of these rounds. *)
Fixpoint vfs_sync_worker (rounds : list fs_dump) (filesystems_lock : bool)
    : M bool :=
  match rounds with
  | [] => ret filesystems_lock
  | dump :: rest =>
      let* (_, filesystems_lock) := vfs_sync dump filesystems_lock in
      vfs_sync_worker rest filesystems_lock
  end.

(** ** [mount] *)

(** The bytes of a C string before its terminator: what [kstrcpy]
    copies and what [%s] prints. *)
Definition c_str (s : cstring) : cstring := take (kstrlen s) s.

(** Capacity of [mnt_t.name]. *)
Definition MNT_NAME_SIZE : nat := 2048.

(** Modelled from the spec: [ht_get] of lib/ht.h on the registry: the
    driver registered under the name, or a null pointer. *)
Definition ht_get_filesystems (fs_type : cstring) : M (option fs_t) := λ k,
  Ok (filesystems k !! fs_type) k.

(** Modelled from the spec: [ht_add] of lib/ht.h on the mount table,
    keyed by the record's name: -1 on a name collision, otherwise a copy
    of the record joins the table and later dumps list it. *)
Definition ht_add_mountpoints (m : mnt_t) : M Z := λ k,
  let recs := default [] (mountpoints k) in
  if bool_decide (name m ∈ name <$> omap id recs) then Ok (-1)%Z k
  else Ok 0%Z (set_mountpoints (Some (recs ++ [Some m])) k).

(** The line [mount] logs on success. *)
Definition mounted_message (source target fs_type : cstring) : string :=
  String.append "vfs: Mounted `"
    (String.append (string_of_list_ascii (c_str source))
       (String.append "` on `"
          (String.append (string_of_list_ascii (c_str target))
             (String.append "`, type `"
                (String.append (string_of_list_ascii (c_str fs_type))
                   "`."))))).

(** [kstrcpy(mount.name, target)] copies the target, however long,
    without a check; the record's name is held here as the string
    copied, so the record stands for the one in memory when the target
    and its terminator fit the array of [MNT_NAME_SIZE] bytes.  The
    [data] pointer is opaque to this layer. *)
Definition mount (source target fs_type : cstring) (m_flags : Z) : M Z :=
  let* fs := ht_get_filesystems fs_type in
  match fs with
  | None => ret (-1)%Z
  | Some fs =>
      let* res := call_op fs OP_mount [A_str source; A_int m_flags; A_ptr] in
      if (res =? -1)%Z then ret (-1)%Z
      else
        let mount := {| name := c_str target; fs := fs; magic := res |} in
        let* r := ht_add_mountpoints mount in
        if (r =? -1)%Z then ret (-1)%Z
        else
          let* _ := kprint KPRN_INFO (mounted_message source target fs_type) in
          ret 0%Z
  end.

(** * Further vocabulary *)

(** ** Dispatch *)

(** Slot [op] of the driver's table holds a callable address: a driver
    function or [vfs_call_invalid]. *)
Definition implemented (f : fs_t) (op : nat) : Prop :=
  ∃ g, fs_ops f !! op = Some g ∧ g ≠ fn_null.

(** Slot [op] of the driver's table holds a driver function. *)
Definition driver_op (f : fs_t) (op : nat) : Prop :=
  ∃ impl, fs_ops f !! op = Some (fn_driver impl).

Definition dup_event (h : vfs_handle_t) (r : Z) : call_event :=
  {| ev_fs := fs_name (vh_fs h); ev_op := OP_dup;
     ev_args := [A_int (intern_fd h)]; ev_ret := r |}.

Definition read_event (f : fs_t) (ifd len r : Z) : call_event :=
  {| ev_fs := fs_name f; ev_op := OP_read;
     ev_args := [A_int ifd; A_ptr; A_int len]; ev_ret := r |}.

Definition sync_event (f : fs_t) (r : Z) : call_event :=
  {| ev_fs := fs_name f; ev_op := OP_sync; ev_args := []; ev_ret := r |}.

Definition mount_event (f : fs_t) (source : cstring) (m_flags r : Z)
    : call_event :=
  {| ev_fs := fs_name f; ev_op := OP_mount;
     ev_args := [A_str source; A_int m_flags; A_ptr]; ev_ret := r |}.

(** The state after the driver calls [evs] have been recorded. *)
Definition record_calls (evs : list call_event) (k : kernel) : kernel :=
  foldl (λ k ev, add_call ev k) k evs.

(** A dump that lists the drivers [fs], none of the pointers null. *)
Definition full_dump (fs : list fs_t) : fs_dump := Some (Some <$> fs).

(** ** Path normalisation: the reference semantics *)

(** Walking a path segment by segment over a stack of directory names:
    an empty segment and [.] change nothing, [..] drops the last name
    (none at the root), any other segment is pushed. *)
Definition step (stack : list cstring) (g : cstring) : list cstring :=
  if bool_decide (g = []) || bool_decide (g = [DOT]) then stack
  else if bool_decide (g = [DOT; DOT]) then removelast stack
  else stack ++ [g].

Definition walk (stack : list cstring) (gs : list cstring) : list cstring :=
  foldl step stack gs.

(** The path reached from the root by walking the working directory
    (unless [path] is absolute) and then [path]. *)
Definition resolve (path pwd : cstring) : cstring :=
  render (walk [] ((if is_absolute path then [] else segments pwd)
                   ++ segments path)).

(** The memory from offset [p] on holds no slash. *)
Definition clean_from (buf : buffer) (p : nat) : Prop :=
  ∀ i, p ≤ i → buf i ≠ SLASH.

(** The written part [w] of the output at each entry point of the loop,
    for the stack [segs] walked so far and the part [part] already
    copied of the segment under way. *)
Definition at_label (l : label) (path w : cstring) (segs : list cstring)
    (part : cstring) : Prop :=
  match l with
  | L_first_run => part = [] ∧ w = render segs
  | L_switch =>
      (part = [] ∧ w = render segs ∧ byte_at path 0 = SLASH)
      ∨ (w = join segs ++ SLASH :: part
         ∧ (SLASH ∉ part) ∧ (NUL ∉ part)
         ∧ part ++ fseg path ≠ [DOT]
         ∧ part ++ fseg path ≠ [DOT; DOT]
         ∧ (part = [] → byte_at path 0 ≠ SLASH))
  end.

(** The memory [buf] after the bytes [g] have been stored from offset
    [p] on. *)
Fixpoint poke (buf : buffer) (p : nat) (g : cstring) : buffer :=
  match g with
  | [] => buf
  | c :: r => poke (<[p := c]> buf) (S p) r
  end.

(** ** Keyboard *)

(** Both indices are within their arrays. *)
Definition kbd_wf (st : kbd) : Prop :=
  kbd_buf_i st ≤ KBD_BUF_SIZE ∧ big_buf_i st ≤ BIG_BUF_SIZE.

(** Neither lock is held. *)
Definition unlocked (st : kbd) : Prop :=
  kbd_read_lock st = false ∧ termios_lock st = false.

(** Both buffers, their indices and the terminal output are the same in
    both states. *)
Definition same_buffers (st st' : kbd) : Prop :=
  kbd_buf_i st' = kbd_buf_i st ∧ kbd_buf st' = kbd_buf st
  ∧ big_buf_i st' = big_buf_i st ∧ big_buf st' = big_buf st
  ∧ tty st' = tty st.

(** What follows a [yield] of the canonical reader. *)
Definition cooked_resume (env : list (list Z)) (count n i : nat) (wait : Z)
    (buf : buffer) (st : kbd) : outcome (Z * buffer) :=
  match env with
  | [] => Blocked st
  | scancodes :: env' =>
      match deliver scancodes st with
      | Done _ st => read_cooked env' count n i wait buf st
      | Spinning st => Spinning st
      | Wild_read st => Wild_read st
      | Blocked st => Blocked st
      end
  end.

(** What the reader guarantees about the state in which it returns or
    is left suspended, [held] being the state of [kbd_read_lock] when
    the reader was entered. *)
Definition reader_post (held : bool) (r : outcome (Z * buffer)) : Prop :=
  match r with
  | Done _ st' => kbd_wf st' ∧ unlocked st'
  | Blocked st' =>
      kbd_wf st' ∧ termios_lock st' = false ∧ kbd_read_lock st' = held
  | _ => True
  end.

(** The scancodes the handler takes for the shift and control keys. *)
Definition is_shift (code : Z) : Prop :=
  code = LEFT_SHIFT ∨ code = RIGHT_SHIFT
  ∨ code = LEFT_SHIFT_REL ∨ code = RIGHT_SHIFT_REL.

Definition is_ctrl (code : Z) : Prop :=
  code = LEFT_CTRL ∨ code = LEFT_CTRL_REL.

Definition is_modifier (code : Z) : Prop :=
  code = CAPSLOCK ∨ is_shift code ∨ is_ctrl code.

(** A latch is flipped when [on] holds and kept otherwise. *)
Definition toggled (on : Prop) (old new : Z) : Prop :=
  (on → new = lnot old) ∧ (¬ on → new = old).

(** Number of entries of each decoding table. *)
Definition TABLE_SIZE : Z := 58.

(** * Further concrete states *)

(** A driver implementing every operation; each returns [r]. *)
Definition const_driver (nm : string) (r : Z) : fs_t :=
  {| fs_name := cs nm; fs_ops := replicate 10 (fn_driver (λ _ _, r)) |}.

Definition const_handle (r : Z) : vfs_handle_t :=
  {| vh_fs := const_driver "fsK" r; intern_fd := 7 |}.

(** One open handle on a [const_driver], in slot 0. *)
Definition const_open_kernel (r : Z) : kernel :=
  set_handles {| da_slots := [Some (fresh_elem (const_handle r))];
                 da_capacity := 256 |} boot.

(** Canonical mode with [hi] pending in the raw buffer. *)
Definition kbd_typed_line : kbd :=
  set_kbd_buf_i 2
    (set_kbd_buf (<[1 := "i"%char]> (<[0 := "h"%char]> (λ _, NUL)))
       (kbd_init ICANON)).

(** * Properties *)

#[local] Arguments Ascii.eqb : simpl never.
#[local] Arguments Nat.eqb : simpl nomatch.

(** ** Byte strings *)

Section klib_facts.

Lemma ascii_eqb_true (a b : ascii) : (a =? b)%char = true ↔ a = b.
Proof. apply Ascii.eqb_eq. Qed.

Lemma ascii_eqb_false (a b : ascii) : (a =? b)%char = false ↔ a ≠ b.
Proof. apply Ascii.eqb_neq. Qed.

Lemma kstrlen_cstr (s : cstring) : is_cstr s → kstrlen s = length s.
Proof.
  induction 1 as [|c r Hc _ IH]; simpl; [done|].
  apply ascii_eqb_false in Hc. by rewrite Hc, IH.
Qed.

Lemma byte_at_cons (c : ascii) (s : cstring) (i : nat) :
  byte_at (c :: s) (S i) = byte_at s i.
Proof. done. Qed.

Lemma byte_at_tail (s : cstring) (i : nat) :
  byte_at (tail s) i = byte_at s (S i).
Proof. destruct s; [by destruct i|done]. Qed.

Lemma byte_at_drop (s : cstring) (n i : nat) :
  byte_at (drop n s) i = byte_at s (n + i).
Proof.
  revert s; induction n as [|n IH]; intros s; [done|].
  destruct s; [by destruct i|]. simpl. apply IH.
Qed.

Lemma byte_at_ge (s : cstring) (i : nat) : length s ≤ i → byte_at s i = NUL.
Proof. intros. unfold byte_at. by apply nth_overflow. Qed.

Lemma byte_at_lt_cstr (s : cstring) (i : nat) :
  is_cstr s → i < length s → byte_at s i ≠ NUL.
Proof.
  intros Hs Hi. unfold byte_at.
  destruct (lookup_lt_is_Some_2 s i Hi) as [c Hc].
  rewrite (nth_lookup_Some _ _ _ _ Hc).
  eapply (Forall_lookup_1 _ _ _ _ Hs Hc).
Qed.

(** [kstrncmp] over the length of a well-formed string tests whether it
    is a prefix. *)
Lemma kstrncmp_prefix (path nm : cstring) :
  is_cstr nm →
  kstrncmp path nm (length nm) = 0%Z ↔ nm `prefix_of` path.
Proof.
  intros Hn. revert path.
  induction Hn as [|c r Hc _ IH]; intros path; simpl.
  - split; [intros _; apply prefix_nil|done].
  - destruct path as [|d p]; simpl.
    + unfold byte_at; simpl.
      destruct (Ascii.eqb_spec NUL c) as [Heq|_]; [congruence|].
      split; [done|]. intros [k Hk]. discriminate.
    + unfold byte_at; simpl.
      destruct (Ascii.eqb_spec d c) as [->|Hne].
      * rewrite IH. split; [apply prefix_cons|apply prefix_cons_inv_2].
      * split; [done|]. intros H. by apply prefix_cons_inv_1 in H.
Qed.

Lemma kstrcmp_slash (nm : cstring) :
  is_cstr nm → kstrcmp nm (cs "/") = 0%Z ↔ nm = cs "/".
Proof.
  intros Hn. split; [|by intros ->].
  destruct nm as [|c [|d r]]; [done| |].
  - simpl. unfold byte_at; simpl.
    destruct (Ascii.eqb_spec c "/"%char) as [->|]; [done|done].
  - simpl. unfold byte_at; simpl.
    destruct (Ascii.eqb_spec c "/"%char) as [->|]; [|done].
    destruct (Ascii.eqb_spec "/"%char NUL) as [|_]; [done|].
    destruct (Ascii.eqb_spec d NUL) as [->|]; [|done].
    apply Forall_cons_1 in Hn as [_ Hn]. by apply Forall_cons_1 in Hn as [? _].
Qed.

End klib_facts.

(** ** Mountpoint resolution *)

Section resolver.
Variable path : cstring.

Lemma scan_step_accepts (i : nat) (m : mnt_t) (g : Z * nat) :
  scan_step path i (Some m) g =
    if accepts path m && (g.2 <? kstrlen (name m))%nat
    then (Z.of_nat i, kstrlen (name m)) else g.
Proof.
  unfold scan_step, accepts.
  destruct (kstrncmp _ _ _ =? 0)%Z; [|done].
  by rewrite andb_true_l.
Qed.

Lemma scan_spec (mnts : list (option mnt_t)) (i : nat) (g : Z * nat) :
  (∀ m, Some m ∈ mnts → accepts path m = true →
        kstrlen (name m) ≤ (scan path mnts i g).2)
  ∧ g.2 ≤ (scan path mnts i g).2
  ∧ (scan path mnts i g = g
     ∨ ∃ j m, mnts !! j = Some (Some m)
              ∧ scan path mnts i g = (Z.of_nat (i + j), kstrlen (name m))
              ∧ accepts path m = true
              ∧ g.2 < kstrlen (name m)).
Proof.
  revert i g. induction mnts as [|o rest IH]; intros i g; simpl.
  - split_and!; [by intros m ?%elem_of_nil|done|by left].
  - destruct (IH (S i) (scan_step path i o g)) as (Hmax & Hmono & Hsrc).
    assert (Hstep : g.2 ≤ (scan_step path i o g).2
              ∧ (∀ m, o = Some m → accepts path m = true →
                      kstrlen (name m) ≤ (scan_step path i o g).2)
              ∧ (scan_step path i o g = g
                 ∨ ∃ m, o = Some m
                        ∧ scan_step path i o g = (Z.of_nat i, kstrlen (name m))
                        ∧ accepts path m = true ∧ g.2 < kstrlen (name m))).
    { destruct o as [m|]; [|by split_and!; [done|done|left]].
      rewrite scan_step_accepts.
      destruct (accepts path m) eqn:Ha; simpl.
      - destruct (Nat.ltb_spec g.2 (kstrlen (name m))); simpl.
        + split_and!; [simpl; lia|intros ? [= <-] _; simpl; lia|right; eauto].
        + split_and!; [lia|intros ? [= <-] _; lia|by left].
      - split_and!; [lia|intros ? [= <-] ?; congruence|by left]. }
    destruct Hstep as (Hs1 & Hs2 & Hs3).
    split_and!.
    + intros m [Hm|Hm]%elem_of_cons Ha.
      * specialize (Hs2 m (eq_sym Hm) Ha). lia.
      * by apply Hmax.
    + lia.
    + destruct Hsrc as [Heq|(j & m & Hj & Heq & Ha & Hlt)].
      * rewrite Heq.
        destruct Hs3 as [->|(m & -> & Hst & Ha & Hlt)]; [by left|].
        right. exists 0, m. rewrite Nat.add_0_r. done.
      * right. exists (S j), m. rewrite Heq.
        replace (i + S j) with (S i + j) by lia.
        split_and!; [done|done|done|lia].
Qed.

End resolver.

Lemma index_Z_lookup {A} (a : list A) (j : nat) (x : A) :
  a !! j = Some x → index_Z a (Z.of_nat j) = Some x.
Proof.
  intros Hj. pose proof (lookup_lt_Some _ _ _ Hj). unfold index_Z.
  destruct (Z.leb_spec 0 (Z.of_nat j)); [|lia].
  destruct (Z.ltb_spec (Z.of_nat j) (Z.of_nat (length a))); [|lia].
  simpl. by rewrite Nat2Z.id.
Qed.

Lemma index_Z_ge {A} (a : list A) (i : Z) :
  (Z.of_nat (length a) ≤ i)%Z → index_Z a i = None.
Proof.
  intros. unfold index_Z.
  destruct (Z.ltb_spec i (Z.of_nat (length a))); [lia|].
  by rewrite andb_false_r.
Qed.

Lemma accepts_covers (path : cstring) (m : mnt_t) :
  is_cstr (name m) → accepts path m = true ↔ covers m path.
Proof.
  intros Hn. unfold accepts, covers. rewrite (kstrlen_cstr _ Hn).
  rewrite andb_true_iff, !orb_true_iff, !Z.eqb_eq, !ascii_eqb_true.
  rewrite (kstrncmp_prefix _ _ Hn), (kstrcmp_slash _ Hn). tauto.
Qed.

Lemma NoDup_fmap_elem_inj {A B} (f : A → B) (l : list A) (x y : A) :
  NoDup (f <$> l) → x ∈ l → y ∈ l → f x = f y → x = y.
Proof.
  induction l as [|a l IH]; simpl; [by intros _ ?%elem_of_nil|].
  intros [Hnin Hnd]%NoDup_cons [->|Hx]%elem_of_cons [->|Hy]%elem_of_cons Hf.
  - done.
  - exfalso. apply Hnin. rewrite Hf. by apply list_elem_of_fmap_2.
  - exfalso. apply Hnin. rewrite <- Hf. by apply list_elem_of_fmap_2.
  - by apply IH.
Qed.

Lemma prefix_same_length {A} (l1 l2 l : list A) :
  l1 `prefix_of` l → l2 `prefix_of` l → length l1 = length l2 → l1 = l2.
Proof.
  intros [k1 ->] [k2 Heq] Hlen.
  apply (f_equal (take (length l1))) in Heq.
  rewrite take_app_length in Heq. rewrite Hlen, take_app_length in Heq. done.
Qed.

Lemma set_lock_release (k : kernel) :
  mountpoints_lock k = false → set_lock false (set_lock true k) = k.
Proof. destruct k; simpl; intros ->; done. Qed.

Lemma first_byte_nul (s : cstring) :
  is_cstr s → (byte_at s 0 =? NUL)%char = true ↔ s = [].
Proof.
  intros Hs. rewrite ascii_eqb_true. destruct s as [|c r]; [done|].
  apply Forall_cons_1 in Hs as [Hc _]. split; done.
Qed.

Lemma local_path_local_part (m : mnt_t) (P : cstring) :
  is_cstr P → is_cstr (name m) →
  (let local_path := P in
   let local_path :=
     if (1 <? kstrlen (name m))%nat then drop (kstrlen (name m)) local_path
     else local_path in
   if (byte_at local_path 0 =? NUL)%char then cs "/" else local_path)
  = local_part m P.
Proof.
  intros HP Hn. simpl. rewrite (kstrlen_cstr _ Hn). unfold local_part.
  set (rest := if (1 <? length (name m))%nat then _ else _).
  assert (Hr : is_cstr rest).
  { subst rest. destruct (1 <? _)%nat; [by apply Forall_drop|done]. }
  destruct (byte_at rest 0 =? NUL)%char eqn:Hb.
  - apply first_byte_nul in Hb as ->; done.
  - destruct rest; [|done]. by rewrite (proj2 (first_byte_nul [] Hr)) in Hb.
Qed.

(** C1 (as amended).  With no two records of the same target path and
    no record of empty target path, the resolver returns the record whose
    target path is the longest prefix of [P] followed in [P] by a slash
    or the end of the string (the record named [/] covering every path
    it is a prefix of), and hands back the rest of [P] as local path,
    [/] when nothing is left.  The lock is free again on return. *)
Theorem vfs_get_mountpoint_longest_prefix
    (k : kernel) (mnts : list (option mnt_t)) (P : cstring) (m : mnt_t) :
  mountpoints k = Some mnts →
  mountpoints_lock k = false →
  (Z.of_nat (length mnts) ≤ SIZE_MAX)%Z →
  is_cstr P →
  (∀ m', Some m' ∈ mnts → is_cstr (name m')) →
  NoDup (name <$> omap id mnts) →
  Some m ∈ mnts →
  name m ≠ [] →
  covers m P →
  (∀ m', Some m' ∈ mnts → covers m' P → length (name m') ≤ length (name m)) →
  vfs_get_mountpoint P k = Ok (Some m, Some (local_part m P)) k.
Proof.
  intros Hk Hlock Hsize HP Hnames Hnd Hm Hne Hcov Hlongest.
  unfold vfs_get_mountpoint, bind, spinlock_acquire_mountpoints.
  rewrite Hlock. unfold ht_dump_mountpoints. simpl. rewrite Hk.
  destruct (scan_spec P mnts 0 (to_size_t (-1), 0)) as (Hmax & _ & Hsrc).
  destruct (scan P mnts 0 (to_size_t (-1), 0)) as [guess guess_size] eqn:Hscan.
  simpl in *.
  assert (Hlen : length (name m) ≤ guess_size).
  { rewrite <- (kstrlen_cstr (name m)) by auto.
    apply Hmax; [done|]. apply accepts_covers; auto. }
  destruct Hsrc as [[= -> ->]|(j & m1 & Hj & [= -> ->] & Ha & _)].
  { destruct (name m); [done|simpl in Hlen; lia]. }
  assert (Hm1 : Some m1 ∈ mnts) by (by eapply list_elem_of_lookup_2).
  assert (Hn1 : is_cstr (name m1)) by auto.
  apply accepts_covers in Ha; [|done].
  rewrite (kstrlen_cstr _ Hn1) in Hlen.
  assert (m1 = m) as ->.
  { apply (NoDup_fmap_elem_inj name (omap id mnts)); [done| | |].
    - apply list_elem_of_omap. by exists (Some m1).
    - apply list_elem_of_omap. by exists (Some m).
    - apply (prefix_same_length _ _ P); [apply Ha|apply Hcov|].
      specialize (Hlongest m1 Hm1 Ha). lia. }
  pose proof (lookup_lt_Some _ _ _ Hj) as Hjlt.
  unfold read_mnts. rewrite (index_Z_lookup _ _ _ Hj).
  unfold spinlock_release_mountpoints, modify, ret.
  assert ((Z.of_nat j =? to_size_t (-1))%Z = false) as ->.
  { apply Z.eqb_neq. unfold SIZE_MAX, to_size_t in *. 
    change ((-1) mod 2 ^ 64)%Z with (2 ^ 64 - 1)%Z. lia. }
  simpl. rewrite set_lock_release by done.
  pose proof (local_path_local_part m P HP Hn1) as Hlp. simpl in Hlp.
  by rewrite Hlp.
Qed.

(** C1, the two resolutions of the specification: with mounts [/],
    [/usr] and [/usr/local], [/usr/bin/ls] resolves to the [/usr] record
    with local path [/bin/ls], and [/usr] to the same record with local
    path [/]. *)
Lemma vfs_get_mountpoint_usr_examples :
  vfs_get_mountpoint (cs "/usr/bin/ls") (set_mountpoints (Some demo_mounts) boot)
    = Ok (Some mnt_usr, Some (cs "/bin/ls")) (set_mountpoints (Some demo_mounts) boot)
  ∧ vfs_get_mountpoint (cs "/usr") (set_mountpoints (Some demo_mounts) boot)
    = Ok (Some mnt_usr, Some (cs "/")) (set_mountpoints (Some demo_mounts) boot).
Proof.
  split.
  - apply (vfs_get_mountpoint_longest_prefix _ demo_mounts (cs "/usr/bin/ls") mnt_usr).
    + reflexivity.
    + reflexivity.
    + vm_compute. discriminate.
    + unfold is_cstr. repeat constructor; discriminate.
    + intros m' H. elem_cases H; unfold is_cstr; repeat constructor; discriminate.
    + apply (bool_decide_unpack _). vm_compute. exact I.
    + set_solver.
    + discriminate.
    + split; [by exists (cs "/bin/ls")|by left].
    + intros m' H [Hp _]. elem_cases H; simpl; try lia.
      destruct Hp as [t Ht]. vm_compute in Ht. discriminate Ht.
  - apply (vfs_get_mountpoint_longest_prefix _ demo_mounts (cs "/usr") mnt_usr).
    + reflexivity.
    + reflexivity.
    + vm_compute. discriminate.
    + unfold is_cstr. repeat constructor; discriminate.
    + intros m' H. elem_cases H; unfold is_cstr; repeat constructor; discriminate.
    + apply (bool_decide_unpack _). vm_compute. exact I.
    + set_solver.
    + discriminate.
    + split; [by exists []|right; by left].
    + intros m' H [Hp _]. elem_cases H; simpl; try lia.
      destruct Hp as [t Ht]. vm_compute in Ht. discriminate Ht.
Defined.

(** The four resolutions of the specification, by evaluation. *)
Lemma vfs_get_mountpoint_table :
  let k := set_mountpoints (Some demo_mounts) boot in
  vfs_get_mountpoint (cs "/etc/passwd") k
    = Ok (Some mnt_root, Some (cs "/etc/passwd")) k
  ∧ vfs_get_mountpoint (cs "/usr/bin/ls") k
    = Ok (Some mnt_usr, Some (cs "/bin/ls")) k
  ∧ vfs_get_mountpoint (cs "/usr/local/bin/x") k
    = Ok (Some mnt_usr_local, Some (cs "/bin/x")) k
  ∧ vfs_get_mountpoint (cs "/usr") k = Ok (Some mnt_usr, Some (cs "/")) k.
Proof. by vm_compute. Qed.

(** C1 as stated fails for a record of empty target path: it is a prefix
    of [/a] followed by a slash and the only record, yet the scan, which
    wants a length above zero, passes over it and returns null. *)
Lemma vfs_get_mountpoint_blank_target_missed :
  ¬ resolves_to_longest_cover (set_mountpoints (Some [Some mnt_blank]) boot) (cs "/a").
Proof.
  intros H.
  destruct (H [Some mnt_blank] mnt_blank) as (lp & k' & Hr).
  - reflexivity.
  - set_solver.
  - split; [apply prefix_nil|by left].
  - intros m' Hm _. elem_cases Hm. done.
  - vm_compute in Hr. discriminate Hr.
Qed.

(** C9.  When the dump of the mount table is a null pointer the
    resolver returns null with [mountpoints_lock] still held, after
    which every further resolution spins on the lock. *)
Theorem vfs_get_mountpoint_null_dump_keeps_lock (path : cstring) (k : kernel) :
  let k0 := set_lock false (set_mountpoints None k) in
  vfs_get_mountpoint path k0 = Ok (None, None) (set_lock true k0)
  ∧ mountpoints_lock (set_lock true k0) = true
  ∧ ∀ path', vfs_get_mountpoint path' (set_lock true k0) = Spin (set_lock true k0).
Proof. done. Qed.

(** On the other exit, after the scan, the lock is released. *)
Lemma vfs_get_mountpoint_releases_after_scan
    (k : kernel) (mnts : list (option mnt_t)) (path : cstring) :
  mountpoints k = Some mnts → mountpoints_lock k = false →
  ∃ r k', vfs_get_mountpoint path k = Ok r k' ∧ mountpoints_lock k' = false.
Proof.
  intros Hk Hlock.
  unfold vfs_get_mountpoint, bind, spinlock_acquire_mountpoints.
  rewrite Hlock. unfold ht_dump_mountpoints. simpl. rewrite Hk.
  destruct (scan path mnts 0 _) as [guess guess_size].
  unfold read_mnts. destruct (index_Z mnts guess); simpl;
    destruct (guess =? _)%Z; simpl; eauto.
Qed.

(** C10.  When no record of the snapshot covers the path, [guess] still
    holds [(size_t)-1] when [mnts[guess]] is read: the index is outside
    the array, the read is a wild one, and the function then returns
    null. *)
Theorem vfs_get_mountpoint_miss_reads_out_of_bounds
    (k : kernel) (mnts : list (option mnt_t)) (path : cstring) :
  mountpoints k = Some mnts →
  mountpoints_lock k = false →
  (Z.of_nat (length mnts) ≤ SIZE_MAX)%Z →
  (∀ m, Some m ∈ mnts → is_cstr (name m)) →
  (∀ m, Some m ∈ mnts → ¬ covers m path) →
  index_Z mnts SIZE_MAX = None
  ∧ ∃ lp, vfs_get_mountpoint path k
          = Ok (None, Some lp) (add_wild_read SIZE_MAX k).
Proof.
  intros Hk Hlock Hsize Hnames Hmiss.
  assert (Hoob : index_Z mnts SIZE_MAX = None) by (by apply index_Z_ge).
  split; [done|].
  unfold vfs_get_mountpoint, bind, spinlock_acquire_mountpoints.
  rewrite Hlock. unfold ht_dump_mountpoints. simpl. rewrite Hk.
  destruct (scan_spec path mnts 0 (to_size_t (-1), 0)) as (_ & _ & Hsrc).
  destruct Hsrc as [->|(j & m & Hj & _ & Ha & _)].
  - change (to_size_t (-1)) with SIZE_MAX.
    unfold read_mnts. rewrite Hoob. simpl.
    eexists. unfold ret. f_equal.
    destruct k; simpl in *; by subst.
  - exfalso. apply list_elem_of_lookup_2 in Hj.
    apply (Hmiss m Hj). apply accepts_covers; auto.
Qed.

(** C10 at the snapshot [/usr] and the path [/etc]. *)
Lemma vfs_get_mountpoint_miss_example :
  index_Z [Some mnt_usr] SIZE_MAX = None
  ∧ ∃ lp, vfs_get_mountpoint (cs "/etc") (set_mountpoints (Some [Some mnt_usr]) boot)
          = Ok (None, Some lp)
               (add_wild_read SIZE_MAX (set_mountpoints (Some [Some mnt_usr]) boot)).
Proof.
  apply (vfs_get_mountpoint_miss_reads_out_of_bounds _ [Some mnt_usr] (cs "/etc")).
  - reflexivity.
  - reflexivity.
  - vm_compute. discriminate.
  - intros m H. elem_cases H. unfold is_cstr. repeat constructor; discriminate.
  - intros m H [[t Ht] _]. elem_cases H. vm_compute in Ht. discriminate Ht.
Defined.

(** ** Closing a handle *)

Section handles.

Lemma index_Z_Some {A} (a : list A) (i : Z) (x : A) :
  index_Z a i = Some x →
  (0 ≤ i)%Z ∧ Z.to_nat i < length a ∧ a !! Z.to_nat i = Some x.
Proof.
  unfold index_Z. destruct (Z.leb_spec 0 i); simpl; [|done].
  destruct (Z.ltb_spec i (Z.of_nat (length a))); [|done].
  intros Hl. split_and!; [done|lia|done].
Qed.

Lemma index_Z_insert {A} (a : list A) (i : Z) (x y : A) :
  index_Z a i = Some x → index_Z (<[Z.to_nat i := y]> a) i = Some y.
Proof.
  intros (H0 & Hlt & _)%index_Z_Some. unfold index_Z.
  rewrite length_insert.
  destruct (Z.leb_spec 0 i); [|lia].
  destruct (Z.ltb_spec i (Z.of_nat (length a))); [|lia].
  simpl. by apply list_lookup_insert_eq.
Qed.

Lemma da_slot_Some (d : dynarray) (i : Z) (e : dyn_elem) :
  da_slot d i = Some e → index_Z (da_slots d) i = Some (Some e).
Proof.
  unfold da_slot. destruct (index_Z (da_slots d) i) as [[e'|]|]; simpl; congruence.
Qed.

Lemma da_slot_set (d : dynarray) (i : Z) (e : dyn_elem) (s : option dyn_elem) :
  da_slot d i = Some e → da_slot (da_set d i s) i = s.
Proof.
  intros H%da_slot_Some. unfold da_slot, da_set; simpl.
  by rewrite (index_Z_insert _ _ _ s H).
Qed.

Lemma da_present_Some (d : dynarray) (i : Z) (h : vfs_handle_t) :
  da_present d i = Some h →
  ∃ e, da_slot d i = Some e ∧ present e = true ∧ data e = h.
Proof.
  unfold da_present. destruct (da_slot d i) as [e|]; [|done].
  destruct (present e) eqn:?; [|done]. intros [= <-]. eauto.
Qed.

(** What [vfs_close] leaves of the table: the entry is no longer
    visible, whatever the driver then answers. *)
Lemma da_close_sequence (d : dynarray) (i : Z) (h : vfs_handle_t) :
  da_present d i = Some h →
  (da_getelem d i).1 = Some h
  ∧ da_present (da_remove (da_unref (da_getelem d i).2 i) i) i = None.
Proof.
  intros (e & He & Hp & Hd)%da_present_Some.
  unfold da_getelem. rewrite He, Hp, Hd. simpl. split; [done|].
  unfold da_unref. rewrite (da_slot_set _ _ e _ He). simpl.
  set (e1 := {| refcount := refcount e; present := true; data := h |}).
  set (d1 := da_set d i _).
  assert (H1 : da_slot d1 i = Some {| refcount := S (refcount e);
                                      present := true; data := h |})
    by (by apply (da_slot_set _ _ e)).
  unfold da_remove. rewrite (da_slot_set _ _ _ _ H1). simpl.
  assert (H2 : da_slot (da_set d1 i (Some e1)) i = Some e1)
    by (by eapply da_slot_set).
  unfold da_present.
  destruct (refcount e =? 0)%nat;
    rewrite (da_slot_set _ _ _ _ H2); done.
Qed.

End handles.

(** C3 (as amended).  [vfs_close] withdraws the entry before it calls
    the driver: for every open handle, whatever its close slot holds,
    [vfs_close] is the call through that slot made in the state
    [withdrawn fd k], in which the entry is no longer in the table and
    no driver has been called yet.  So when the slot holds a driver
    function the result is 0 if the driver's close returns 0 and -1
    otherwise, in the withdrawn state with the call recorded; when it
    holds the sentinel the result is -1; and when the slot is unset, so
    that the call never returns, the entry is gone all the same: the
    state at the fault is the withdrawn one. *)
Theorem vfs_close_removes_entry_first
    (k : kernel) (fd : Z) (h : vfs_handle_t) :
  da_present (vfs_handles k) fd = Some h →
  da_present (vfs_handles (withdrawn fd k)) fd = None
  ∧ calls (withdrawn fd k) = calls k
  ∧ vfs_close fd k = close_driver h (withdrawn fd k)
  ∧ (∀ impl, fs_ops (vh_fs h) !! OP_close = Some (fn_driver impl) →
       let r := impl (calls k) [A_int (intern_fd h)] in
       vfs_close fd k
       = Ok (if (r =? 0)%Z then 0%Z else (-1)%Z)
           (add_call (close_event h r) (withdrawn fd k)))
  ∧ (fs_ops (vh_fs h) !! OP_close = Some fn_vfs_call_invalid →
       ∃ k', vfs_call_invalid (withdrawn fd k) = Ok (-1)%Z k'
             ∧ vfs_close fd k = Ok (-1)%Z k'
             ∧ vfs_handles k' = vfs_handles (withdrawn fd k))
  ∧ (fs_ops (vh_fs h) !! OP_close = Some fn_null
     ∨ fs_ops (vh_fs h) !! OP_close = None →
       vfs_close fd k = Fault (withdrawn fd k)).
Proof.
  intros Hp.
  destruct (da_close_sequence _ _ _ Hp) as [Hget Hgone].
  assert (Heq : vfs_close fd k = close_driver h (withdrawn fd k)).
  { unfold vfs_close, close_driver, withdrawn, bind at 1, dynarray_getelem.
    destruct (da_getelem (vfs_handles k) fd) as [o d1] eqn:Hg.
    simpl in Hget |- *. by subst o. }
  split_and!; [done|done|done| | |].
  - intros impl Hop r. rewrite Heq. unfold close_driver, bind, call_op.
    rewrite Hop. cbn [calls withdrawn set_handles]. fold r.
    by destruct (r =? 0)%Z.
  - intros Hop. eexists. split; [reflexivity|]. rewrite Heq.
    unfold close_driver, bind, call_op. by rewrite Hop.
  - intros Hop. rewrite Heq. unfold close_driver, bind, call_op.
    by destruct Hop as [-> | ->].
Qed.

(** C3 at a table with one open handle whose driver closes
    successfully. *)
Lemma vfs_close_removes_entry_first_example :
  ∃ k', vfs_close 0 (set_handles (demo_open_table 0) boot) = Ok 0%Z k'
        ∧ da_present (vfs_handles k') 0 = None
        ∧ vfs_handles k'
          = da_remove (da_unref (da_getelem (demo_open_table 0) 0).2 0) 0
        ∧ calls k' = [close_event (demo_handle 0) 0].
Proof.
  destruct (vfs_close_removes_entry_first
              (set_handles (demo_open_table 0) boot) 0 (demo_handle 0) eq_refl)
    as (Hgone & _ & _ & Hdriver & _).
  eexists. split; [exact (Hdriver (λ _ _, 0%Z) eq_refl)|].
  split; [exact Hgone|]. split; reflexivity.
Defined.

(** C3 as stated fails: when the driver's close returns -1 the entry is
    gone all the same. *)
Lemma vfs_close_failure_drops_entry :
  ¬ close_keeps_entry_on_failure (set_handles (demo_open_table (-1)) boot) 0.
Proof.
  intros H.
  destruct (H (demo_handle (-1)) (λ _ _, (-1)%Z)) as (k' & Hc & Hp);
    [reflexivity|reflexivity|done|].
  vm_compute in Hc. injection Hc as <-. vm_compute in Hp. discriminate Hp.
Qed.

(** ** Filesystem registry *)

Section registry.

Lemma fill_slots_lookup (n i : nat) (p : list fnptr) (j : nat) :
  fill_slots n i p !! j
  = if decide (i ≤ j < i + n) then patch <$> p !! j else p !! j.
Proof.
  revert i p. induction n as [|n IH]; intros i p; simpl.
  - case_decide; [lia|done].
  - rewrite IH.
    set (p' := match p !! i with Some fn_null => _ | _ => p end).
    assert (Hp' : p' !! j = if decide (j = i) then patch <$> p !! j else p !! j).
    { subst p'. case_decide as Hji.
      - subst j. destruct (p !! i) as [f|] eqn:Hi; [|by rewrite Hi].
        destruct f; simpl; rewrite ?Hi; try done.
        apply list_lookup_insert_eq. by eapply lookup_lt_Some.
      - destruct (p !! i) as [[]|]; try done.
        by rewrite list_lookup_insert_ne. }
    rewrite Hp'.
    repeat case_decide; try lia; try done.
Qed.

Lemma sentinel_call (f : fs_t) (op : nat) (args : list arg) (k : kernel) :
  fs_ops f !! op = Some fn_vfs_call_invalid →
  ∃ k', call_op f op args k = Ok (-1)%Z k' ∧ errno k' = ENOSYS.
Proof. intros H. unfold call_op. rewrite H. eexists. split; reflexivity. Qed.

(** C7.  After [vfs_install_fs] every slot of the operations region that
    was unset holds the sentinel, in the caller's structure and, when the
    registration succeeded, in the registry; a call through such a slot
    returns -1 with [errno] set to [ENOSYS]. *)
Theorem vfs_install_fs_fills_unset_slots
    (filesystem : fs_t) (k : kernel) (r : Z) (registered : fs_t) (k' : kernel) :
  vfs_install_fs filesystem k = Ok (r, registered) k' →
  (r = 0%Z → filesystems k' !! fs_name filesystem = Some registered)
  ∧ ∀ op, fs_ops filesystem !! op = Some fn_null →
      fs_ops registered !! op = Some fn_vfs_call_invalid
      ∧ ∀ args k1, ∃ k1',
          call_op registered op args k1 = Ok (-1)%Z k1' ∧ errno k1' = ENOSYS.
Proof.
  unfold vfs_install_fs, bind, ht_add_filesystems, ret. simpl.
  intros Hinst.
  assert (Hreg : registered = {| fs_name := fs_name filesystem;
                   fs_ops := fill_slots (length (fs_ops filesystem)) 0
                               (fs_ops filesystem) |}).
  { destruct (filesystems k !! fs_name filesystem); by injection Hinst as _ <- _. }
  split.
  - intros ->. destruct (filesystems k !! fs_name filesystem); [done|].
    injection Hinst as <- <-. simpl. by rewrite lookup_insert_eq.
  - intros op Hop.
    assert (Hs : fs_ops registered !! op = Some fn_vfs_call_invalid).
    { subst registered. simpl. rewrite fill_slots_lookup.
      pose proof (lookup_lt_Some _ _ _ Hop).
      case_decide; [|lia]. by rewrite Hop. }
    split; [done|]. intros args k1. by apply sentinel_call.
Qed.

(** C7 for a driver that sets only [open] and [close]: its [read] slot
    holds the sentinel once installed. *)
Lemma vfs_install_fs_open_close_only :
  let registered :=
    {| fs_name := cs "fsA";
       fs_ops := [fn_vfs_call_invalid; fn_driver (λ _ _, 3%Z);
                  fn_driver (λ _ _, 0%Z); fn_vfs_call_invalid;
                  fn_vfs_call_invalid; fn_vfs_call_invalid;
                  fn_vfs_call_invalid; fn_vfs_call_invalid;
                  fn_vfs_call_invalid; fn_vfs_call_invalid] |} in
  fs_ops registered !! OP_read = Some fn_vfs_call_invalid
  ∧ ∀ args k1, ∃ k1',
      call_op registered OP_read args k1 = Ok (-1)%Z k1' ∧ errno k1' = ENOSYS.
Proof.
  intros registered.
  refine (proj2 (vfs_install_fs_fills_unset_slots
                   (demo_driver "fsA" 3 0) boot 0 registered
                   (set_filesystems (<[cs "fsA" := registered]> ∅) boot) _)
            OP_read _); reflexivity.
Defined.

End registry.

(** ** Opening a file *)

Section open_path.

(** C8 (as amended).  Once the driver's open has succeeded, [open]
    stores whatever [dynarray_add] returns, -1 included, as the internal
    index of the descriptor given to [fd_create] and returns the value of
    [fd_create]; the only call into the driver is the open itself. *)
Theorem open_ignores_failed_install
    (fd_create : file_descriptor_t → Z) (k : kernel) (path : cstring)
    (mode : Z) (m : mnt_t) (lp : cstring) (k1 : kernel)
    (impl : list call_event → list arg → Z) :
  vfs_get_mountpoint path k = Ok (Some m, Some lp) k1 →
  fs_ops (fs m) !! OP_open = Some (fn_driver impl) →
  let ifd := impl (calls k1) [A_str lp; A_int mode; A_int (magic m)] in
  ifd ≠ (-1)%Z →
  let installed :=
    da_add (vfs_handles k1) {| vh_fs := fs m; intern_fd := ifd |} in
  ∃ k', open fd_create path mode k
        = Ok (fd_create {| fd_intern_fd := installed.1;
                           fd_handler := vfs_functions |}) k'
        ∧ vfs_handles k' = installed.2
        ∧ calls k' = calls k1 ++ [open_event m lp mode ifd].
Proof.
  intros Hres Hop ifd Hifd installed.
  unfold open, bind. rewrite Hres. simpl.
  unfold call_op. rewrite Hop. fold ifd.
  destruct (Z.eqb_spec ifd (-1)) as [|_]; [done|].
  unfold dynarray_add. simpl. fold installed.
  destruct installed as [vfs_fd d]. simpl. eexists. split; [reflexivity|done].
Qed.

(** C8 at a handle table without room: the descriptor is created all
    the same and nothing but the open is called. *)
Lemma open_ignores_failed_install_example :
  ∃ k', open (λ _, 3%Z) (cs "/f") 0 demo_full_kernel = Ok 3%Z k'
        ∧ vfs_handles k' = {| da_slots := []; da_capacity := 0 |}
        ∧ calls k' = [open_event mnt_root (cs "/f") 0 3].
Proof.
  apply (open_ignores_failed_install (λ _, 3%Z) demo_full_kernel (cs "/f") 0
           mnt_root (cs "/f") demo_full_kernel (λ _ _, 3%Z));
    [reflexivity|reflexivity|discriminate].
Defined.

(** C8 as stated fails: with the handle table full, [open] neither
    returns -1 nor closes the internal descriptor. *)
Lemma open_leaks_internal_fd :
  ¬ open_closes_on_failed_install (λ _, 3%Z) demo_full_kernel (cs "/f") 0.
Proof.
  intros H.
  destruct (H 3%Z (add_call (open_event mnt_root (cs "/f") 0 3) demo_full_kernel)
              (open_event mnt_root (cs "/f") 0 3))
    as [Hr _]; [reflexivity|set_solver|reflexivity|discriminate| |discriminate].
  split; [reflexivity|simpl; lia].
Qed.

End open_path.

(** ** Normalised paths as stacks of segments *)

Section canonical_form.

Lemma render_nonempty (segs : list cstring) :
  segs ≠ [] → render segs = join segs.
Proof. by destruct segs. Qed.

Lemma join_app (a b : list cstring) : join (a ++ b) = join a ++ join b.
Proof. induction a as [|g a IH]; simpl; [done|]. by rewrite IH, app_assoc. Qed.

Lemma join_nil_inv (segs : list cstring) : join segs = [] → segs = [].
Proof. by destruct segs. Qed.

Lemma segments_nonempty (s : cstring) : segments s ≠ [].
Proof.
  induction s as [|c r IH]; simpl; [done|].
  destruct (c =? SLASH)%char; [done|]. by destruct (segments r).
Qed.

Lemma segments_app_noslash (g rest : cstring) :
  SLASH ∉ g →
  segments (g ++ rest)
  = match segments rest with
    | h :: hs => (g ++ h) :: hs
    | [] => [g]
    end.
Proof.
  induction g as [|c g IH]; simpl; intros Hg.
  - pose proof (segments_nonempty rest). by destruct (segments rest).
  - apply not_elem_of_cons in Hg as [Hc Hg].
    destruct (Ascii.eqb_spec c SLASH) as [->|_]; [done|].
    rewrite IH by done. pose proof (segments_nonempty rest).
    by destruct (segments rest).
Qed.

Lemma segments_join (segs : list cstring) :
  Forall (λ g, SLASH ∉ g) segs → segments (join segs) = [] :: segs.
Proof.
  induction 1 as [|g gs Hg _ IH]; simpl; [done|]. f_equal.
  rewrite segments_app_noslash, IH by done. by rewrite app_nil_r.
Qed.

Lemma has_double_slash_app_noslash (g rest : cstring) :
  SLASH ∉ g → has_double_slash (g ++ rest) = has_double_slash rest.
Proof.
  induction g as [|c g IH]; [done|]. intros [Hc Hg]%not_elem_of_cons.
  simpl. rewrite <- (IH Hg).
  destruct (Ascii.eqb_spec c SLASH) as [->|_]; [done|]. simpl.
  by destruct (g ++ rest).
Qed.

Lemma has_double_slash_join (segs : list cstring) :
  Forall good_seg segs → has_double_slash (join segs) = false.
Proof.
  induction 1 as [|g gs Hg _ IH]; [done|].
  destruct Hg as [Hne Hsl _ _ _].
  change (join (g :: gs)) with (SLASH :: (g ++ join gs)).
  destruct g as [|c g]; [done|].
  pose proof (has_double_slash_app_noslash _ (join gs) Hsl) as Happ.
  rewrite IH in Happ.
  apply not_elem_of_cons in Hsl as [Hc _].
  cbn [has_double_slash app] in *. rewrite Happ.
  destruct (Ascii.eqb_spec c SLASH) as [->|_]; [done|].
  by rewrite andb_false_r.
Qed.

Lemma last_join (segs : list cstring) (g : cstring) (c : ascii) :
  last (join (segs ++ [g ++ [c]])) = Some c.
Proof.
  rewrite join_app. simpl. rewrite app_nil_r.
  rewrite !app_comm_cons, !app_assoc. apply last_snoc.
Qed.

Lemma good_seg_snoc (g : cstring) :
  good_seg g → ∃ g' c, g = g' ++ [c] ∧ c ≠ SLASH ∧ c ≠ NUL.
Proof.
  intros [Hne Hsl Hnul _ _].
  destruct (exists_last Hne) as (g0 & c0 & ->).
  exists g0, c0. split_and!; [done| |]; intros ->; set_solver.
Qed.

Lemma render_no_trailing_slash (segs : list cstring) :
  Forall good_seg segs → segs ≠ [] → has_trailing_slash (render segs) = false.
Proof.
  intros Hgood Hne.
  destruct (exists_last Hne) as (gs0 & g0 & ->).
  apply Forall_app in Hgood as [_ Hg]. apply Forall_inv in Hg.
  destruct (good_seg_snoc _ Hg) as (g' & c & -> & Hc & _).
  rewrite render_nonempty by done. unfold has_trailing_slash.
  rewrite last_join. by apply ascii_eqb_false.
Qed.

Lemma is_cstr_join (segs : list cstring) :
  Forall good_seg segs → is_cstr (join segs).
Proof.
  induction 1 as [|g gs Hg _ IH]; simpl; [constructor|].
  constructor; [done|]. apply Forall_app. split; [|done].
  apply Forall_forall. intros c Hc ->. by apply (gs_nonul _ Hg).
Qed.

Lemma is_cstr_render (segs : list cstring) :
  Forall good_seg segs → is_cstr (render segs).
Proof.
  intros H. destruct segs; [by repeat constructor|]. by apply is_cstr_join.
Qed.

Lemma existsb_dot_good (segs : list cstring) :
  Forall good_seg segs → existsb is_dot_segment segs = false.
Proof.
  induction 1 as [|g gs Hg _ IH]; simpl; [done|]. rewrite IH, orb_false_r.
  unfold is_dot_segment.
  rewrite (bool_decide_eq_false_2 _ (gs_nodot _ Hg)).
  by rewrite (bool_decide_eq_false_2 _ (gs_nodotdot _ Hg)).
Qed.

(** A rendered stack of good segments has the four properties. *)
Lemma render_normalised (segs : list cstring) :
  Forall good_seg segs → normalised (render segs) = true.
Proof.
  intros Hgood. destruct (decide (segs = [])) as [->|Hne]; [done|].
  unfold normalised.
  rewrite (render_no_trailing_slash _ Hgood Hne).
  rewrite render_nonempty by done.
  rewrite (has_double_slash_join _ Hgood).
  unfold has_dot_segment. rewrite segments_join.
  2:{ eapply Forall_impl; [done|]. intros ? []; done. }
  simpl. rewrite (existsb_dot_good _ Hgood).
  by destruct segs.
Qed.

End canonical_form.

Section canonical_converse.

Lemma unsplit_segments (s : cstring) : unsplit (segments s) = s.
Proof.
  induction s as [|c r IH]; [done|]. simpl.
  pose proof (segments_nonempty r) as Hne.
  destruct (Ascii.eqb_spec c SLASH) as [->|_].
  - simpl. destruct (segments r) as [|g gs]; [done|]. by rewrite IH.
  - destruct (segments r) as [|g gs]; [done|].
    simpl in *. destruct gs; simpl; by rewrite <- IH.
Qed.

Lemma join_unsplit (gs : list cstring) :
  gs ≠ [] → join gs = SLASH :: unsplit gs.
Proof.
  induction gs as [|g gs IH]; [done|]. intros _.
  destruct gs as [|h t]; [by simpl; rewrite app_nil_r|].
  change (join (g :: h :: t)) with (SLASH :: g ++ join (h :: t)).
  by rewrite IH.
Qed.

Lemma segments_noslash (s : cstring) :
  Forall (λ g, SLASH ∉ g) (segments s).
Proof.
  induction s as [|c r IH]; simpl.
  - repeat constructor. apply not_elem_of_nil.
  - destruct (Ascii.eqb_spec c SLASH) as [->|Hc].
    + constructor; [apply not_elem_of_nil|done].
    + destruct (segments r) as [|g gs].
      * repeat constructor. intros Heq%list_elem_of_singleton. congruence.
      * apply Forall_cons_1 in IH as [Hg Hgs].
        constructor; [|done].
        apply not_elem_of_cons. split; [congruence|done].
Qed.

Lemma segments_bytes (s : cstring) (g : cstring) (c : ascii) :
  g ∈ segments s → c ∈ g → c ∈ s.
Proof.
  revert g. induction s as [|d r IH]; simpl; intros g Hg Hc.
  - apply list_elem_of_singleton in Hg as ->. done.
  - destruct (d =? SLASH)%char.
    + apply elem_of_cons in Hg as [->|Hg]; [by apply elem_of_nil in Hc|].
      right. by eapply IH.
    + destruct (segments r) as [|h hs] eqn:E.
      * apply list_elem_of_singleton in Hg as ->.
        apply list_elem_of_singleton in Hc as ->. left.
      * apply elem_of_cons in Hg as [->|Hg].
        -- apply elem_of_cons in Hc as [->|Hc]; [left|].
           right. apply (IH h); [left|done].
        -- right. apply (IH g); [by right|done].
Qed.

Lemma has_trailing_slash_cons (c d : ascii) (r : cstring) :
  has_trailing_slash (c :: d :: r) = has_trailing_slash (d :: r).
Proof. done. Qed.

Lemma has_double_slash_cons (c d : ascii) (r : cstring) :
  has_double_slash (c :: d :: r)
  = ((c =? SLASH)%char && (d =? SLASH)%char) || has_double_slash (d :: r).
Proof. done. Qed.

Lemma segments_tail_nonempty (r : cstring) :
  has_double_slash r = false → has_trailing_slash r = false →
  Forall (λ g, g ≠ []) (tail (segments r)).
Proof.
  induction r as [|c r IH]; [constructor|].
  intros Hds Hts. simpl.
  destruct (Ascii.eqb_spec c SLASH) as [->|Hc].
  - simpl. destruct r as [|d r']; [done|].
    rewrite has_trailing_slash_cons in Hts.
    rewrite has_double_slash_cons in Hds.
    apply orb_false_iff in Hds as [Hd Hds'].
    specialize (IH Hds' Hts).
    destruct (Ascii.eqb_spec d SLASH) as [->|Hd']; [done|].
    simpl in *. destruct (Ascii.eqb_spec d SLASH) as [|_]; [done|].
    destruct (segments r') as [|g gs]; constructor; done.
  - destruct r as [|d r']; [constructor|].
    rewrite has_trailing_slash_cons in Hts.
    rewrite has_double_slash_cons in Hds.
    apply orb_false_iff in Hds as [_ Hds'].
    specialize (IH Hds' Hts).
    pose proof (segments_nonempty (d :: r')).
    destruct (segments (d :: r')) as [|g gs]; done.
Qed.

Lemma is_absolute_cons (s : cstring) :
  is_absolute s = true → ∃ r, s = SLASH :: r.
Proof.
  unfold is_absolute. intros H%ascii_eqb_true.
  destruct s as [|c r]; [done|]. exists r. by f_equal.
Qed.

(** Conversely, a well-formed string with the four properties is a
    rendered stack of good segments. *)
Lemma normalised_render (s : cstring) :
  is_cstr s → normalised s = true →
  ∃ segs, Forall good_seg segs ∧ s = render segs.
Proof.
  intros Hs. unfold normalised.
  rewrite !andb_true_iff, !negb_true_iff, orb_true_iff, negb_true_iff.
  intros [[[Habs Hds] Hdot] Hts].
  apply is_absolute_cons in Habs as [r ->].
  destruct r as [|d r'].
  { exists []. by split. }
  destruct Hts as [Hts|Hts]; [|by apply bool_decide_eq_true in Hts].
  rewrite has_trailing_slash_cons in Hts.
  pose proof Hds as Hds0.
  rewrite has_double_slash_cons in Hds. apply orb_false_iff in Hds as [Hd Hds].
  destruct (Ascii.eqb_spec d SLASH) as [->|Hd']; [done|]. clear Hd.
  set (r := d :: r') in *.
  exists (segments r).
  pose proof (segments_nonempty r) as Hne.
  split.
  - pose proof (segments_tail_nonempty r Hds Hts) as Htl.
    pose proof (segments_noslash r) as Hns.
    assert (Hdot' : existsb is_dot_segment (segments r) = false).
    { unfold has_dot_segment in Hdot.
      change (segments (SLASH :: r)) with ([] :: segments r) in Hdot.
      exact Hdot. }
    assert (Hhd : Forall (λ g, g ≠ []) (segments r)).
    { subst r. simpl in *. destruct (Ascii.eqb_spec d SLASH) as [|_]; [done|].
      destruct (segments r') as [|g gs]; constructor; done. }
    apply Forall_forall. intros g Hg. split.
    + by eapply (proj1 (Forall_forall _ _) Hhd).
    + by eapply (proj1 (Forall_forall _ _) Hns).
    + intros Hnul. apply Forall_cons_1 in Hs as [_ Hs].
      apply (proj1 (Forall_forall _ _) Hs NUL); [|done].
      by eapply segments_bytes.
    + intros ->. 
      assert (existsb is_dot_segment (segments r) = true); [|congruence].
      apply existsb_exists. exists [DOT]. split; [by apply list_elem_of_In|done].
    + intros ->.
      assert (existsb is_dot_segment (segments r) = true); [|congruence].
      apply existsb_exists. exists [DOT; DOT]. split; [by apply list_elem_of_In|done].
  - rewrite render_nonempty, join_unsplit, unsplit_segments by done. done.
Qed.

End canonical_converse.

(** ** The output buffer *)

Section buffers.

Lemma written_length (buf : buffer) (p : nat) : length (written buf p) = p.
Proof. unfold written. by rewrite length_fmap, length_seq. Qed.

Lemma written_S (buf : buffer) (p : nat) :
  written buf (S p) = written buf p ++ [buf p].
Proof. unfold written. by rewrite seq_S, fmap_app. Qed.

Lemma written_insert_ge (buf : buffer) (p i : nat) (c : ascii) :
  p ≤ i → written (<[i := c]> buf) p = written buf p.
Proof.
  intros Hi. unfold written. apply list_fmap_ext.
  intros k j [-> Hj]%lookup_seq. simpl.
  apply fn_lookup_insert_ne. lia.
Qed.

Lemma written_snoc (buf : buffer) (p : nat) (c : ascii) :
  written (<[p := c]> buf) (S p) = written buf p ++ [c].
Proof.
  by rewrite written_S, fn_lookup_insert, written_insert_ge.
Qed.

Lemma written_take (buf : buffer) (p q : nat) :
  q ≤ p → written buf q = take q (written buf p).
Proof.
  intros Hq. unfold written. rewrite <- fmap_take. f_equal.
  by rewrite take_seq, Nat.min_l.
Qed.

Lemma written_split (buf : buffer) (p : nat) (pre post : cstring) (c : ascii) :
  written buf p = pre ++ c :: post →
  written buf (length pre) = pre ∧ buf (length pre) = c.
Proof.
  intros Hw.
  assert (Hp : length pre < p).
  { rewrite <- (written_length buf p), Hw, length_app. simpl. lia. }
  split.
  - rewrite (written_take buf p) by lia. by rewrite Hw, take_app_length.
  - assert (H : written buf p !! length pre = Some c).
    { rewrite Hw. by rewrite list_lookup_middle. }
    unfold written in H. rewrite list_lookup_fmap, lookup_seq_lt in H by done.
    by injection H.
Qed.

Lemma rewind_at_slash (buf : buffer) (q : nat) :
  buf q = SLASH → rewind buf q = Some q.
Proof. intros H. destruct q; simpl; by rewrite H. Qed.

(** Rewinding from inside the written part stops at its last slash. *)
Lemma rewind_last_slash (buf : buffer) (post pre : cstring) (q : nat) :
  written buf (S q) = pre ++ SLASH :: post → SLASH ∉ post →
  rewind buf q = Some (length pre).
Proof.
  revert q. induction post as [|c post IH] using rev_ind; intros q Hw Hns.
  - rewrite written_S in Hw.
    apply (app_inj_tail (written buf q) pre) in Hw as [Hw Hq].
    rewrite <- Hw, written_length. by apply rewind_at_slash.
  - rewrite written_S in Hw.
    rewrite app_comm_cons, app_assoc in Hw.
    apply app_inj_tail in Hw as [Hw Hq].
    apply not_elem_of_app in Hns as [Hns Hc].
    assert (Hlen : q = length (pre ++ SLASH :: post))
      by (by rewrite <- Hw, written_length).
    rewrite length_app in Hlen. simpl in Hlen.
    destruct q as [|q']; [lia|].
    simpl. rewrite Hq.
    destruct (Ascii.eqb_spec c SLASH) as [->|_]; [set_solver|].
    by apply IH.
Qed.

Lemma buf_cstr_from (bound : nat) (buf : buffer) (p i : nat) :
  i ≤ p → (∀ j, i ≤ j < p → buf j ≠ NUL) → buf p = NUL → p - i ≤ bound →
  buf_cstr bound buf i = buf <$> seq i (p - i).
Proof.
  revert i. induction bound as [|b IH]; intros i Hi Hnn Hp Hb; simpl.
  - by replace (p - i) with 0 by lia.
  - destruct (decide (i = p)) as [->|Hne].
    + rewrite Hp, Nat.sub_diag. done.
    + destruct (Ascii.eqb_spec (buf i) NUL) as [Heq|_].
      { exfalso. apply (Hnn i); [lia|done]. }
      replace (p - i) with (S (p - S i)) by lia. simpl. f_equal.
      apply IH; [lia| |done|lia]. intros j Hj. apply Hnn. lia.
Qed.

Lemma buf_cstr_written (bound : nat) (buf : buffer) (p : nat) :
  is_cstr (written buf p) → buf p = NUL → p ≤ bound →
  buf_cstr bound buf 0 = written buf p.
Proof.
  intros Hw Hp Hb. unfold written.
  rewrite (buf_cstr_from bound buf p 0); [by rewrite Nat.sub_0_r|lia| |done|lia].
  intros j [_ Hj].
  apply (proj1 (Forall_forall _ _) Hw). unfold written.
  apply list_elem_of_fmap. exists j. split; [done|].
  apply elem_of_seq. lia.
Qed.

Lemma buf_strlen_from (bound : nat) (buf : buffer) (p i : nat) :
  i ≤ p → (∀ j, i ≤ j < p → buf j ≠ NUL) → buf p = NUL → p - i ≤ bound →
  buf_strlen bound buf i = p - i.
Proof.
  revert i. induction bound as [|b IH]; intros i Hi Hnn Hp Hb; simpl.
  - lia.
  - destruct (decide (i = p)) as [->|Hne].
    + rewrite Hp, Nat.sub_diag. done.
    + destruct (Ascii.eqb_spec (buf i) NUL) as [Heq|_].
      { exfalso. apply (Hnn i); [lia|done]. }
      rewrite IH; [lia|lia| |done|lia]. intros j Hj. apply Hnn. lia.
Qed.

Lemma kstrcpy_written (s : cstring) (buf : buffer) (at_ : nat) :
  is_cstr s →
  written (kstrcpy buf at_ s) (at_ + length s) = written buf at_ ++ s
  ∧ kstrcpy buf at_ s (at_ + length s) = NUL.
Proof.
  intros Hs. revert buf at_.
  induction Hs as [|c r Hc _ IH]; intros buf at_; simpl.
  - rewrite Nat.add_0_r, app_nil_r.
    by rewrite fn_lookup_insert, written_insert_ge.
  - destruct (Ascii.eqb_spec c NUL) as [|_]; [done|].
    replace (at_ + S (length r)) with (S at_ + length r) by lia.
    destruct (IH (<[at_ := c]> buf) (S at_)) as [-> ->].
    by rewrite written_snoc, <- app_assoc.
Qed.

Lemma written_nonul (buf : buffer) (p j : nat) :
  is_cstr (written buf p) → j < p → buf j ≠ NUL.
Proof.
  intros Hw Hj. apply (proj1 (Forall_forall _ _) Hw). unfold written.
  apply list_elem_of_fmap. exists j. split; [done|]. apply elem_of_seq. lia.
Qed.

End buffers.

(** ** The normaliser loop *)

Section normaliser.

Lemma kstrncmp_bytes (a b : cstring) (n : nat) :
  kstrncmp a b n = 0%Z ↔ ∀ i, i < n → byte_at a i = byte_at b i.
Proof.
  revert a b. induction n as [|n IH]; intros a b; simpl.
  - split; [intros _ i Hi; lia|done].
  - destruct (Ascii.eqb_spec (byte_at a 0) (byte_at b 0)) as [H0|H0].
    + rewrite IH. split.
      * intros H [|i] Hi; [done|]. rewrite <- !byte_at_tail. apply H. lia.
      * intros H i Hi. rewrite !byte_at_tail. apply H. lia.
    + split; [done|]. intros H. exfalso. apply H0, H. lia.
Qed.

Lemma kstrncmp_test (a b : cstring) (n : nat) :
  (kstrncmp a b n =? 0)%Z = true ↔ ∀ i, i < n → byte_at a i = byte_at b i.
Proof. by rewrite Z.eqb_eq, kstrncmp_bytes. Qed.

Lemma fseg_nil_inv (r : cstring) :
  fseg r = [] → byte_at r 0 = SLASH ∨ byte_at r 0 = NUL.
Proof.
  destruct r as [|c r]; [by right|]. simpl.
  destruct (Ascii.eqb_spec c SLASH) as [->|_]; [by left|].
  destruct (Ascii.eqb_spec c NUL) as [->|_]; [by right|done].
Qed.

Lemma fseg_cons_inv (path : cstring) (c : ascii) (g : cstring) :
  fseg path = c :: g → ∃ r, path = c :: r ∧ fseg r = g.
Proof.
  destruct path as [|d r]; [done|]. simpl.
  destruct ((d =? SLASH)%char || (d =? NUL)%char); [done|].
  intros [= -> <-]. eauto.
Qed.

Lemma fseg_stop (path : cstring) :
  byte_at path 0 = SLASH ∨ byte_at path 0 = NUL → fseg path = [].
Proof.
  destruct path as [|c r]; [done|]. unfold byte_at. simpl.
  intros [->| ->]; [done|]. by rewrite orb_true_r.
Qed.

Lemma fseg_step (path : cstring) :
  byte_at path 0 ≠ SLASH → byte_at path 0 ≠ NUL →
  path = byte_at path 0 :: tail path
  ∧ fseg path = byte_at path 0 :: fseg (tail path).
Proof.
  destruct path as [|c r]; [done|]. unfold byte_at. simpl. intros H1 H2.
  destruct (Ascii.eqb_spec c SLASH) as [|_]; [done|].
  destruct (Ascii.eqb_spec c NUL) as [|_]; done.
Qed.

(** When none of the dot tests of [first_run] fires, the segment ahead
    is neither [.] nor [..]. *)
Lemma dot_tests_fseg (path : cstring) :
  (kstrncmp path [DOT; NUL] 2 =? 0)%Z = false →
  (kstrncmp path [DOT; DOT; NUL] 3 =? 0)%Z = false →
  (kstrncmp path [DOT; DOT; SLASH] 3 =? 0)%Z = false →
  (kstrncmp path [DOT; SLASH] 2 =? 0)%Z = false →
  fseg path ≠ [DOT] ∧ fseg path ≠ [DOT; DOT].
Proof.
  intros T1 T2 T3 T4.
  assert (Hno : ∀ pat n, (kstrncmp path pat n =? 0)%Z = false →
                 ¬ ∀ i, i < n → byte_at path i = byte_at pat i).
  { intros pat n Hf H. apply kstrncmp_test in H. congruence. }
  split; intros Hf.
  - apply fseg_cons_inv in Hf as (r & -> & Hr).
    apply fseg_nil_inv in Hr as [Hr|Hr].
    + apply (Hno _ _ T4). intros [|[|i]] Hi; [done|done|lia].
    + apply (Hno _ _ T1). intros [|[|i]] Hi; [done|done|lia].
  - apply fseg_cons_inv in Hf as (r & -> & Hr).
    apply fseg_cons_inv in Hr as (r' & -> & Hr).
    apply fseg_nil_inv in Hr as [Hr|Hr].
    + apply (Hno _ _ T3). intros [|[|[|i]]] Hi; [done|done|done|lia].
    + apply (Hno _ _ T2). intros [|[|[|i]]] Hi; [done|done|done|lia].
Qed.

Lemma term_keep (buf : buffer) (p : nat) :
  p ≠ 0 → (last (written buf p) ≠ Some SLASH ∨ p = 1) →
  ∃ out, term buf p = Some out
         ∧ written out p = written buf p ∧ out p = NUL.
Proof.
  intros Hp Hlast. destruct p as [|q]; [done|]. unfold term.
  assert (((buf q =? SLASH)%char && negb (q =? 0)) = false) as ->.
  { destruct Hlast as [Hlast| [= ->]]; [|by rewrite andb_false_r].
    rewrite written_S, last_snoc in Hlast.
    destruct (Ascii.eqb_spec (buf q) SLASH) as [Heq|_]; [|done].
    by rewrite Heq in Hlast. }
  eexists. split; [done|].
  by rewrite written_insert_ge, fn_lookup_insert.
Qed.

Lemma term_strip (buf : buffer) (p : nat) (w : cstring) :
  written buf p = w ++ [SLASH] → w ≠ [] →
  ∃ out, term buf p = Some out
         ∧ written out (length w) = w ∧ out (length w) = NUL.
Proof.
  intros Hw Hne.
  assert (Hp : p = S (length w)).
  { rewrite <- (written_length buf p), Hw, length_app. simpl. lia. }
  subst p. unfold term.
  apply written_split in Hw as [Hw Hq]. rewrite Hq, Ascii.eqb_refl.
  destruct w as [|c w]; [done|]. simpl length in *. simpl.
  eexists. split; [done|].
  by rewrite written_insert_ge, fn_lookup_insert.
Qed.

Lemma render_length_pos (segs : list cstring) : render segs ≠ [].
Proof. by destruct segs. Qed.

Lemma render_snoc (segs : list cstring) (g : cstring) :
  render (segs ++ [g]) = join segs ++ SLASH :: g.
Proof.
  rewrite render_nonempty by (by destruct segs).
  rewrite join_app. simpl. by rewrite app_nil_r.
Qed.

(** Popping: after the rewind the written part is again a rendered
    stack, the same one or the one without its last segment. *)
Lemma rewind_render (buf : buffer) (p : nat) (segs : list cstring) :
  written buf p = render segs → Forall good_seg segs →
  ∃ q segs',
    rewind buf p = Some q
    ∧ Forall good_seg segs'
    ∧ written buf (if (q =? 0)%nat then S q else q) = render segs'
    ∧ (if (q =? 0)%nat then S q else q) ≤ p.
Proof.
  intros Hw Hgood.
  assert (Hp : p = length (render segs)) by (by rewrite <- Hw, written_length).
  pose proof (render_length_pos segs) as Hne.
  destruct p as [|p0]; [by destruct (render segs)|].
  simpl. destruct (Ascii.eqb_spec (buf (S p0)) SLASH) as [Hs|Hs].
  { exists (S p0), segs. simpl. split_and!; done. }
  destruct (decide (segs = [])) as [->|Hsegs].
  - simpl in Hp. injection Hp as ->.
    exists 0, []. rewrite (rewind_last_slash buf [] [] 0 Hw) by apply not_elem_of_nil.
    simpl. split_and!; done.
  - destruct (exists_last Hsegs) as (init & lst & ->).
    apply Forall_app in Hgood as [Hinit Hlst]. apply Forall_inv in Hlst.
    rewrite render_snoc in Hw.
    exists (length (join init)), init.
    rewrite (rewind_last_slash buf lst (join init) p0 Hw) by apply Hlst.
    split; [done|]. split; [done|].
    destruct init as [|g0 init'].
    + simpl. rewrite (written_take buf (S p0)) by lia. rewrite Hw.
      split; [done|lia].
    + assert (length (join (g0 :: init')) ≠ 0) by (simpl; lia).
      destruct (Nat.eqb_spec (length (join (g0 :: init'))) 0); [done|].
      apply written_split in Hw as [Hw' _]. split; [done|].
      rewrite Hp, render_snoc, length_app. lia.
Qed.

End normaliser.

Section normaliser_loop.

Lemma finished_weaken (out : buffer) (segs : list cstring) (a b : nat) :
  a ≤ b → finished out segs a → finished out segs b.
Proof. intros Hab (H1 & H2 & H3 & H4). split_and!; [done..|lia]. Qed.

Lemma term_render (buf : buffer) (p : nat) (segs : list cstring) :
  Forall good_seg segs → written buf p = render segs →
  ∃ out, term buf p = Some out ∧ finished out segs p.
Proof.
  intros Hgood Hw.
  assert (Hp : p = length (render segs)) by (by rewrite <- Hw, written_length).
  destruct (term_keep buf p) as (out & Ht & Hout & Hnul).
  - rewrite Hp. pose proof (render_length_pos segs). by destruct (render segs).
  - destruct (decide (segs = [])) as [->|Hne]; [by right|left].
    pose proof (render_no_trailing_slash segs Hgood Hne) as Hts.
    unfold has_trailing_slash in Hts. rewrite Hw.
    destruct (last (render segs)) as [c|]; [|done].
    intros [= ->]. by rewrite Ascii.eqb_refl in Hts.
  - exists out. split; [done|]. unfold finished. rewrite <- Hp.
    split_and!; [done|congruence|done|lia].
Qed.

Lemma good_seg_part (part : cstring) :
  part ≠ [] → SLASH ∉ part → NUL ∉ part →
  part ≠ [DOT] → part ≠ [DOT; DOT] → good_seg part.
Proof. by split. Qed.

Lemma normalise_switch (fuel : nat) (path : cstring) (buf : buffer) (p : nat) :
  normalise (S fuel) L_switch path buf p
  = if (byte_at path 0 =? SLASH)%char then
      normalise fuel L_first_run (tail path) buf p
    else if (byte_at path 0 =? NUL)%char then term buf p
    else normalise fuel L_switch (tail path)
           (<[p := byte_at path 0]> buf) (S p).
Proof. done. Qed.

Lemma length_tail_lt (path : cstring) :
  byte_at path 0 ≠ NUL → S (length (tail path)) = length path.
Proof. by destruct path. Qed.

Lemma normalise_inv (fuel : nat) :
  ∀ l path buf p,
    fuel_needed l path ≤ fuel →
    inv l path (written buf p) →
    ∃ out segs, normalise fuel l path buf p = Some out
                ∧ finished out segs (p + slack l path).
Proof.
  induction fuel as [|fuel IH]; intros l path buf p Hfuel Hinv.
  { destruct l; simpl in Hfuel; lia. }
  inversion Hinv as [path' segs Hgood Hl Hpath Hw
                    |path' segs Hgood Hsl Hl Hpath Hw
                    |path' segs part Hgood Hps Hpn Hd1 Hd2 Hpe Hl Hpath Hw];
    subst l path'; simpl in Hfuel.
  - (* first_run *)
    assert (Hp : p = length (render segs)) by (by rewrite Hw, written_length).
    symmetry in Hw.
    cbn [normalise].
    destruct (Ascii.eqb_spec (byte_at path 0) SLASH) as [Hs|Hs].
    { destruct (IH L_switch path buf p) as (out & segs' & Hn & Hfin).
      - simpl. lia.
      - rewrite Hw. by constructor.
      - exists out, segs'. split; [done|].
        eapply finished_weaken; [|done]. simpl. lia. }
    destruct ((kstrncmp path [DOT; NUL] 2 =? 0)%Z
              || (kstrncmp path [DOT; SLASH; NUL] 3 =? 0)%Z) eqn:T1.
    { destruct (term_render buf p segs Hgood Hw) as (out & Ht & Hfin).
      exists out, segs. split; [done|].
      eapply finished_weaken; [|done]. lia. }
    apply orb_false_iff in T1 as [T1 _].
    destruct ((kstrncmp path [DOT; DOT; NUL] 3 =? 0)%Z
              || (kstrncmp path [DOT; DOT; SLASH; NUL] 4 =? 0)%Z) eqn:T2.
    { destruct (rewind_render buf p segs Hw Hgood)
        as (q & segs' & -> & Hgood' & Hw' & Hle).
      destruct (term_render buf _ segs' Hgood' Hw') as (out & Ht & Hfin).
      exists out, segs'. split; [done|].
      eapply finished_weaken; [|done]. lia. }
    apply orb_false_iff in T2 as [T2 _].
    destruct (kstrncmp path [DOT; DOT; SLASH] 3 =? 0)%Z eqn:T3.
    { destruct (rewind_render buf p segs Hw Hgood)
        as (q & segs' & -> & Hgood' & Hw' & Hle).
      set (p' := if (q =? 0)%nat then S q else q) in *.
      destruct (IH L_switch (drop 2 path) (<[p' := NUL]> buf) p')
        as (out & segs'' & Hn & Hfin).
      - simpl. rewrite length_drop. lia.
      - rewrite written_insert_ge, Hw' by done. constructor; [done|].
        rewrite byte_at_drop. change (2 + 0) with 2.
        pose proof (proj1 (kstrncmp_test _ _ _) T3) as T3'.
        by rewrite (T3' 2) by lia.
      - exists out, segs''. split; [done|].
        eapply finished_weaken; [|done]. simpl. rewrite length_drop. lia. }
    destruct (kstrncmp path [DOT; SLASH] 2 =? 0)%Z eqn:T4.
    { destruct (IH L_switch (drop 1 path) buf p) as (out & segs' & Hn & Hfin).
      - simpl. rewrite length_drop. lia.
      - rewrite Hw. constructor; [done|].
        rewrite byte_at_drop. change (1 + 0) with 1.
        pose proof (proj1 (kstrncmp_test _ _ _) T4) as T4'.
        by rewrite (T4' 1) by lia.
      - exists out, segs'. split; [done|].
        eapply finished_weaken; [|done]. simpl. rewrite length_drop. lia. }
    destruct (dot_tests_fseg path T1 T2 T3 T4) as [Hf1 Hf2].
    destruct p as [|q].
    { pose proof (render_length_pos segs). by destruct (render segs). }
    destruct (negb (q =? 0)%nat && negb (buf q =? SLASH)%char) eqn:Hsep.
    + apply andb_true_iff in Hsep as [Hq _].
      assert (Hne : segs ≠ []).
      { intros ->. simpl in Hp. injection Hp as ->. done. }
      destruct (IH L_switch path (<[S q := SLASH]> buf) (S (S q)))
        as (out & segs' & Hn & Hfin).
      * simpl. lia.
      * rewrite written_snoc, Hw, render_nonempty by done.
        apply (inv_switch_seg path segs []); try done; apply not_elem_of_nil.
      * exists out, segs'. split; [done|].
        eapply finished_weaken; [|done]. simpl. lia.
    + assert (Hnil : segs = []).
      { destruct (decide (segs = [])) as [|Hne]; [done|]. exfalso.
        pose proof (render_no_trailing_slash segs Hgood Hne) as Hts.
        unfold has_trailing_slash in Hts.
        rewrite <- Hw, written_S, last_snoc in Hts.
        rewrite Hts, andb_true_r in Hsep.
        apply negb_false_iff, Nat.eqb_eq in Hsep. subst q.
        destruct segs as [|g segs']; [done|].
        apply Forall_cons_1 in Hgood as [Hg _].
        destruct g; [by destruct Hg|]. simpl in Hp. lia. }
      subst segs.
      destruct (IH L_switch path buf (S q)) as (out & segs' & Hn & Hfin).
      * simpl. lia.
      * rewrite Hw.
        apply (inv_switch_seg path [] []); try done; apply not_elem_of_nil.
      * exists out, segs'. split; [done|].
        eapply finished_weaken; [|done]. simpl. lia.
  - (* switch, at a separator *)
    symmetry in Hw. rewrite normalise_switch, Hsl, Ascii.eqb_refl.
    assert (Hnn : byte_at path 0 ≠ NUL) by (by rewrite Hsl).
    pose proof (length_tail_lt path Hnn) as Hlen.
    destruct (IH L_first_run (tail path) buf p) as (out & segs' & Hn & Hfin).
    + simpl. lia.
    + rewrite Hw. by constructor.
    + exists out, segs'. split; [done|].
      eapply finished_weaken; [|done]. simpl. lia.
  - (* switch, inside or before a segment *)
    symmetry in Hw. rewrite normalise_switch.
    destruct (Ascii.eqb_spec (byte_at path 0) SLASH) as [Hs|Hs].
    { assert (Hnn : byte_at path 0 ≠ NUL) by (by rewrite Hs).
      pose proof (length_tail_lt path Hnn) as Hlen.
      rewrite fseg_stop, app_nil_r in Hd1, Hd2 by (by left).
      assert (Hpart : good_seg part).
      { apply good_seg_part; try done. intros ->. by apply Hpe. }
      destruct (IH L_first_run (tail path) buf p) as (out & segs' & Hn & Hfin).
      - simpl. lia.
      - rewrite Hw, <- render_snoc. constructor.
        apply Forall_app. split; [done|by constructor].
      - exists out, segs'. split; [done|].
        eapply finished_weaken; [|done]. simpl. lia. }
    destruct (Ascii.eqb_spec (byte_at path 0) NUL) as [Hn|Hn].
    { rewrite fseg_stop, app_nil_r in Hd1, Hd2 by (by right).
      destruct (decide (part = [])) as [->|Hpart].
      - destruct (decide (segs = [])) as [->|Hne].
        + destruct (term_render buf p [] Hgood Hw) as (out & Ht & Hfin).
          exists out, []. split; [done|].
          eapply finished_weaken; [|done]. lia.
        + destruct (term_strip buf p (join segs) Hw) as (out & Ht & Ho & Hnul).
          { intros H%join_nil_inv. done. }
          exists out, segs. split; [done|]. unfold finished.
          rewrite render_nonempty by done. split_and!; try done.
          rewrite <- (written_length buf p), Hw, length_app. lia.
      - assert (Hgood' : Forall good_seg (segs ++ [part])).
        { apply Forall_app. split; [done|].
          constructor; [|done]. by apply good_seg_part. }
        rewrite <- render_snoc in Hw.
        destruct (term_render buf p _ Hgood' Hw) as (out & Ht & Hfin).
        exists out, (segs ++ [part]). split; [done|].
        eapply finished_weaken; [|done]. lia. }
    destruct (fseg_step path Hs Hn) as [Hpath Hfseg].
    pose proof (length_tail_lt path Hn) as Hlen.
    destruct (IH L_switch (tail path) (<[p := byte_at path 0]> buf) (S p))
      as (out & segs' & Hnorm & Hfin).
    + simpl. lia.
    + rewrite written_snoc, Hw, <- app_assoc. simpl.
      rewrite Hfseg in Hd1, Hd2.
      apply inv_switch_seg; try done.
      * apply not_elem_of_app. split; [done|].
        intros ?%list_elem_of_singleton. congruence.
      * apply not_elem_of_app. split; [done|].
        intros ?%list_elem_of_singleton. congruence.
      * by rewrite <- app_assoc.
      * by rewrite <- app_assoc.
      * by destruct part.
    + exists out, segs'. split; [done|].
      eapply finished_weaken; [|done]. simpl. lia.
Qed.

End normaliser_loop.

Section normaliser_top.

Lemma finished_result (out : buffer) (segs : list cstring) (limit bound : nat) :
  finished out segs limit → limit ≤ bound →
  buf_cstr bound out 0 = render segs
  ∧ is_cstr (render segs) ∧ normalised (render segs) = true.
Proof.
  intros (Hgood & Hw & Hnul & Hlen) Hb.
  pose proof (is_cstr_render segs Hgood) as Hc.
  split_and!; [|done|by apply render_normalised].
  rewrite <- Hw at 1. apply buf_cstr_written; [by rewrite Hw|done|lia].
Qed.

(** C2 (as amended).  From a normalised working directory, and whatever
    the output buffer held, the normaliser returns, and leaves a string
    that is again normalised: absolute, free of double slashes and of
    [.] and [..] segments, without trailing slash unless it is [/].  The
    path [../../x/./y] from [/a/b/c] gives [/a/x/y]. *)
Theorem vfs_get_absolute_path_normalised (buf : buffer) (path pwd : cstring) :
  is_cstr pwd → normalised pwd = true →
  (∃ out, absolute_path buf path pwd = Some out
          ∧ is_cstr out ∧ normalised out = true)
  ∧ absolute_path buf (cs "../../x/./y") (cs "/a/b/c") = Some (cs "/a/x/y").
Proof.
  intros Hpwd Hnorm. split; [|by vm_compute].
  destruct (normalised_render pwd Hpwd Hnorm) as (segs & Hgood & Hrender).
  destruct (kstrcpy_written pwd buf 0 Hpwd) as [Hcopy Hend].
  simpl in Hcopy, Hend.
  unfold absolute_path, vfs_get_absolute_path.
  destruct (Ascii.eqb_spec (byte_at path 0) NUL) as [Hempty|Hnonempty].
  { exists pwd. split_and!; [|done|done]. f_equal.
    transitivity (written (kstrcpy buf 0 pwd) (length pwd)); [|done].
    apply buf_cstr_written; [by rewrite Hcopy|done|lia]. }
  destruct (Ascii.eqb_spec (byte_at path 0) SLASH) as [Habs|Hrel]; simpl negb; cbv iota.
  - destruct (normalise_inv (2 * length path + 2) L_first_run (tail path)
                (<[0 := SLASH]> buf) 1) as (out & segs' & -> & Hfin).
    + simpl. destruct path; simpl; lia.
    + change (written (<[0:=SLASH]> buf) 1) with [(<[0:=SLASH]> buf) 0].
      rewrite fn_lookup_insert. by apply (inv_first_run _ []).
    + destruct (finished_result out segs' _ (length pwd + length path + 2) Hfin)
        as (-> & Hc & Hn).
      { simpl. destruct path; simpl; lia. }
      eauto.
  - assert (Hlen : buf_strlen (S (length pwd)) (kstrcpy buf 0 pwd) 0 = length pwd).
    { rewrite (buf_strlen_from _ _ (length pwd) 0); [lia|lia| |done|lia].
      intros j [_ Hj]. apply (written_nonul _ (length pwd)); [|done].
      by rewrite Hcopy. }
    rewrite Hlen. simpl.
    destruct (normalise_inv (length path + (length path + 0) + 2) L_first_run path
                (kstrcpy buf 0 pwd) (length pwd)) as (out & segs' & -> & Hfin).
    + simpl. lia.
    + rewrite Hcopy, Hrender. by constructor.
    + destruct (finished_result out segs' _ (length pwd + length path + 2) Hfin)
        as (-> & Hc & Hn).
      { simpl. lia. }
      eauto.
Qed.

(** The table of the specification, over any buffer. *)
Lemma vfs_get_absolute_path_table (buf : buffer) :
  absolute_path buf [] (cs "/") = Some (cs "/")
  ∧ absolute_path buf (cs "file") (cs "/home/u") = Some (cs "/home/u/file")
  ∧ absolute_path buf (cs "../c") (cs "/a/b") = Some (cs "/a/c")
  ∧ absolute_path buf (cs "/b//c/") (cs "/a") = Some (cs "/b/c")
  ∧ absolute_path buf (cs "..") (cs "/") = Some (cs "/").
Proof. by vm_compute. Qed.

(** C2 at the path [../c] from [/a/b], over a zeroed buffer. *)
Lemma vfs_get_absolute_path_normalised_example :
  (∃ out, absolute_path (λ _, NUL) (cs "../c") (cs "/a/b") = Some out
          ∧ is_cstr out ∧ normalised out = true)
  ∧ absolute_path (λ _, NUL) (cs "../../x/./y") (cs "/a/b/c")
    = Some (cs "/a/x/y").
Proof.
  apply (vfs_get_absolute_path_normalised (λ _, NUL) (cs "../c") (cs "/a/b")).
  - unfold is_cstr. repeat constructor; discriminate.
  - reflexivity.
Defined.

(** C2 as stated fails for a working directory that is absolute but not
    normalised: with an empty path the result is the directory itself,
    double slash included. *)
Lemma vfs_get_absolute_path_keeps_cwd_slashes :
  is_cstr (cs "/a//b")
  ∧ is_absolute (cs "/a//b") = true
  ∧ ¬ normalises (λ _, NUL) [] (cs "/a//b").
Proof.
  split_and!; [unfold is_cstr; repeat constructor; discriminate|done|].
  intros (out & Hout & Hn). vm_compute in Hout. injection Hout as <-.
  vm_compute in Hn. discriminate Hn.
Qed.

End normaliser_top.

(** ** Keyboard *)

#[local] Opaque KBD_BUF_SIZE BIG_BUF_SIZE.

Section keyboard.

Lemma kbd_buf_size_pos : (0 =? KBD_BUF_SIZE)%nat = false.
Proof. by vm_compute. Qed.

Lemma kbd_buf_size_int : (Z.of_nat KBD_BUF_SIZE < 2 ^ 31)%Z.
Proof. by vm_compute. Qed.

Lemma decode_backspace (st : kbd) : decode 0x0e st = Some BS.
Proof.
  unfold decode.
  destruct (capslock_active st =? 0)%Z, (shift_active st =? 0)%Z; done.
Qed.

(** C4.  In canonical mode the backspace scancode arriving at an empty
    raw buffer is not dropped: the [break] of its case leads to
    [regular_character], which stores the backspace byte at index 0 and
    echoes it under [ECHO]. *)
Theorem kbd_handler_backspace_on_empty (st : kbd) :
  flag (c_lflag st) ICANON = true →
  kbd_read_lock st = false → termios_lock st = false →
  kbd_buf_i st = 0 →
  ∃ st', kbd_handler 0x0e st = Done tt st'
         ∧ kbd_buf_i st' = 1
         ∧ kbd_buf st' 0 = BS
         ∧ (flag (c_lflag st) ECHO = true → tty st' = tty st ++ [BS]).
Proof.
  intros Hcanon Hl1 Hl2 Hi.
  unfold kbd_handler. rewrite Hl1.
  change (0x0e mod 256)%Z with 0x0e%Z.
  cbv beta zeta.
  replace (negb (ctrl_active (set_kbd_read_lock true st) =? 0)%Z && (0x0e =? 0x2e)%Z)
    with false by (by rewrite andb_false_r).
  change (0x0e =? CAPSLOCK)%Z with false.
  change ((0x0e =? LEFT_SHIFT)%Z || (0x0e =? RIGHT_SHIFT)%Z
          || (0x0e =? LEFT_SHIFT_REL)%Z || (0x0e =? RIGHT_SHIFT_REL)%Z) with false.
  change ((0x0e =? LEFT_CTRL)%Z || (0x0e =? LEFT_CTRL_REL)%Z) with false.
  change (0x0e <? MAX_CODE)%Z with true. cbv iota.
  rewrite decode_backspace.
  unfold dispatch. simpl termios_lock. rewrite Hl2.
  change (BS =? NL)%char with false. change (BS =? BS)%char with true.
  cbv iota. simpl c_lflag. rewrite Hcanon. simpl negb. cbv iota.
  simpl kbd_buf_i. rewrite Hi. simpl.
  unfold regular_character. simpl. rewrite Hi, kbd_buf_size_pos.
  eexists. split; [reflexivity|].
  destruct (flag (c_lflag st) ECHO); simpl; rewrite fn_lookup_insert;
    split_and!; done.
Qed.

(** C4 from the initial keyboard state in canonical mode. *)
Lemma kbd_handler_backspace_on_empty_example :
  ∃ st', kbd_handler 0x0e (kbd_init ICANON) = Done tt st'
         ∧ kbd_buf_i st' = 1
         ∧ kbd_buf st' 0 = BS
         ∧ (flag (c_lflag (kbd_init ICANON)) ECHO = true →
            tty st' = tty (kbd_init ICANON) ++ [BS]).
Proof.
  apply (kbd_handler_backspace_on_empty (kbd_init ICANON)); reflexivity.
Defined.

End keyboard.

Section keyboard_commit.

Lemma line_update_refl (st : kbd) : line_update st st.
Proof. by destruct st. Qed.

Lemma commit_loop_spec (n : nat) :
  ∀ i st,
    big_buf_i st ≤ BIG_BUF_SIZE →
    let st' := commit_loop n i st in
    let k := n `min` (BIG_BUF_SIZE - big_buf_i st) in
    big_buf_i st' = big_buf_i st + k
    ∧ (∀ j, big_buf st' j
            = if decide (big_buf_i st ≤ j < big_buf_i st + k)
              then kbd_buf st (i + (j - big_buf_i st))
              else big_buf st j)
    ∧ line_update st st'.
Proof.
  induction n as [|n IH]; intros i st Hle; cbn [commit_loop]; cbv zeta.
  - split_and!; [lia| |apply line_update_refl].
    intros j. case_decide; [lia|done].
  - destruct (Nat.eqb_spec (big_buf_i st) BIG_BUF_SIZE) as [Hfull|Hroom].
    + replace (BIG_BUF_SIZE - big_buf_i st) with 0 by lia.
      split_and!; [lia| |apply line_update_refl].
      intros j. case_decide; [lia|done].
    + set (st1 := set_big_buf_i _ _).
      destruct (IH (S i) st1) as (Hi & Hb & Hu); [simpl; lia|].
      change (big_buf_i st1) with (S (big_buf_i st)) in Hi, Hb.
      change (kbd_buf st1) with (kbd_buf st) in Hb.
      change (big_buf st1)
        with (<[big_buf_i st := kbd_buf st i]> (big_buf st)) in Hb.
      replace (S n `min` (BIG_BUF_SIZE - big_buf_i st))
        with (S (n `min` (BIG_BUF_SIZE - S (big_buf_i st)))) by lia.
      split_and!.
      * rewrite Hi. lia.
      * intros j. rewrite Hb.
        destruct (decide (j = big_buf_i st)) as [->|Hne].
        -- rewrite fn_lookup_insert. repeat case_decide; try lia.
           f_equal. lia.
        -- rewrite fn_lookup_insert_ne by done.
           repeat case_decide; try lia; try done. f_equal. lia.
      * unfold line_update in *. rewrite Hu. by destruct st.
Qed.





End keyboard_commit.

Section keyboard_theorems.

Lemma line_update_fields (st st' : kbd) :
  line_update st st' →
  kbd_buf st' = kbd_buf st ∧ kbd_buf_i st' = kbd_buf_i st.
Proof. intros H. rewrite H. done. Qed.



End keyboard_theorems.

Section keyboard_reader.




Lemma drain_spec (n : nat) :
  ∀ i buf st,
    ∃ buf' kb',
      drain n i buf st = (i + n, buf', set_kbd_buf kb' st)
      ∧ (∀ j, buf' j = if decide (i ≤ j < i + n) then kbd_buf st j else buf j)
      ∧ (∀ j, kb' j = if decide (i ≤ j < i + n) then NUL else kbd_buf st j).
Proof.
  induction n as [|n IH]; intros i buf st; simpl.
  - exists buf, (kbd_buf st). rewrite Nat.add_0_r.
    split_and!; [by destruct st| |]; intros j; case_decide; solve [done|lia|exfalso; lia].
  - destruct (IH (S i) (<[i := kbd_buf st i]> buf)
                (set_kbd_buf (<[i := NUL]> (kbd_buf st)) st))
      as (buf' & kb' & -> & Hb & Hk).
    exists buf', kb'. replace (S i + n) with (i + S n) in * by lia.
    split_and!; [done| |].
    + intros j. rewrite Hb. simpl.
      destruct (decide (i = j)) as [->|Hne].
      * rewrite !fn_lookup_insert.
        repeat case_decide; solve [done|exfalso; lia].
      * rewrite !fn_lookup_insert_ne by done.
        repeat case_decide; solve [done|exfalso; lia].
    + intros j. rewrite Hk. simpl.
      destruct (decide (i = j)) as [->|Hne].
      * rewrite !fn_lookup_insert.
        repeat case_decide; solve [done|exfalso; lia].
      * rewrite !fn_lookup_insert_ne by done.
        repeat case_decide; solve [done|exfalso; lia].
Qed.





End keyboard_reader.

(** * Further properties *)

(** ** What the resolver returns *)

Section resolver_results.

(** The steps of [vfs_get_mountpoint] after a successful dump, in one
    equation. *)
Lemma vfs_get_mountpoint_scan (k : kernel) (mnts : list (option mnt_t))
    (path : cstring) :
  mountpoints k = Some mnts → mountpoints_lock k = false →
  vfs_get_mountpoint path k
  = let g := scan path mnts 0 (to_size_t (-1), 0) in
    let lp := if (1 <? g.2)%nat then drop g.2 path else path in
    let lp := if (byte_at lp 0 =? NUL)%char then cs "/" else lp in
    match index_Z mnts g.1 with
    | Some r =>
        Ok (if negb (g.1 =? to_size_t (-1))%Z then r else None, Some lp) k
    | None =>
        Ok (None, Some lp) (add_wild_read g.1 k)
    end.
Proof.
  intros Hk Hlock.
  unfold vfs_get_mountpoint, bind, spinlock_acquire_mountpoints.
  rewrite Hlock. unfold ht_dump_mountpoints. simpl. rewrite Hk.
  destruct (scan path mnts 0 _) as [guess guess_size]. simpl.
  unfold read_mnts. destruct (index_Z mnts guess) as [r|]; simpl.
  - rewrite set_lock_release by done. by destruct (guess =? _)%Z.
  - assert (set_lock false (add_wild_read guess (set_lock true k))
            = add_wild_read guess k) as ->
      by (destruct k; simpl in *; by subst).
    by destruct (guess =? _)%Z.
Qed.

Lemma vfs_get_mountpoint_lock_free (path : cstring) (k k' : kernel)
    (r : option mnt_t * option cstring) :
  vfs_get_mountpoint path k = Ok r k' → mountpoints_lock k = false.
Proof.
  unfold vfs_get_mountpoint, bind, spinlock_acquire_mountpoints.
  by destruct (mountpoints_lock k).
Qed.

Lemma vfs_get_mountpoint_dumped (path : cstring) (k k' : kernel)
    (m : mnt_t) (lp : option cstring) :
  vfs_get_mountpoint path k = Ok (Some m, lp) k' →
  ∃ mnts, mountpoints k = Some mnts.
Proof.
  intros H. pose proof (vfs_get_mountpoint_lock_free _ _ _ _ H) as Hlock.
  destruct (mountpoints k) as [mnts|] eqn:Hk; [by eexists|].
  revert H. unfold vfs_get_mountpoint, bind, spinlock_acquire_mountpoints.
  rewrite Hlock. unfold ht_dump_mountpoints. simpl. by rewrite Hk.
Qed.

End resolver_results.

(** X1.  Whatever the mount table holds (duplicates, null entries, any
    size), a record returned by the resolver is one of the dumped
    records, its target path is not empty and covers the path, no
    covering record has a longer target path, and the kernel state is
    left as it was, the lock released. *)
Theorem vfs_get_mountpoint_sound
    (k k' : kernel) (mnts : list (option mnt_t)) (path : cstring)
    (m : mnt_t) (lp : option cstring) :
  mountpoints k = Some mnts →
  (∀ m', Some m' ∈ mnts → is_cstr (name m')) →
  vfs_get_mountpoint path k = Ok (Some m, lp) k' →
  Some m ∈ mnts
  ∧ name m ≠ []
  ∧ covers m path
  ∧ (∀ m', Some m' ∈ mnts → covers m' path →
           length (name m') ≤ length (name m))
  ∧ k' = k ∧ mountpoints_lock k' = false.
Proof.
  intros Hk Hcstr H.
  pose proof (vfs_get_mountpoint_lock_free _ _ _ _ H) as Hlock.
  rewrite (vfs_get_mountpoint_scan _ _ _ Hk Hlock) in H. cbv zeta in H.
  destruct (scan_spec path mnts 0 (to_size_t (-1), 0)) as (Hmax & _ & Hsel).
  destruct (index_Z mnts _) as [r|] eqn:Hr; [|done].
  destruct (negb _) eqn:Hg; [|done].
  injection H as -> _ <-.
  destruct Hsel as [Heq|(j & m1 & Hj & Heq & Hacc & Hlen)].
  { rewrite Heq in Hg. cbn [fst] in Hg. by rewrite Z.eqb_refl in Hg. }
  change (0 + j) with j in Heq.
  rewrite Heq in Hr, Hmax. cbn [fst snd] in Hr, Hmax.
  rewrite (index_Z_lookup _ _ _ Hj) in Hr. injection Hr as ->.
  assert (Some m ∈ mnts) as Hin by (by eapply list_elem_of_lookup_2).
  pose proof (Hcstr _ Hin) as Hm.
  rewrite (kstrlen_cstr _ Hm) in Hlen, Hmax. simpl in Hlen.
  repeat split; try done.
  - intros E. rewrite E in Hlen. simpl in Hlen. lia.
  - by apply accepts_covers.
  - by apply accepts_covers.
  - intros m' Hin' Hcov. rewrite <- (kstrlen_cstr (name m')) by auto.
    apply Hmax; [done|]. apply accepts_covers; auto.
Qed.

Lemma vfs_get_mountpoint_sound_example :
  let k := set_mountpoints (Some demo_mounts) boot in
  Some mnt_usr_local ∈ demo_mounts
  ∧ name mnt_usr_local ≠ []
  ∧ covers mnt_usr_local (cs "/usr/local/bin/x")
  ∧ (∀ m', Some m' ∈ demo_mounts → covers m' (cs "/usr/local/bin/x") →
           length (name m') ≤ length (name mnt_usr_local))
  ∧ k = k ∧ mountpoints_lock k = false.
Proof.
  apply (vfs_get_mountpoint_sound
           (set_mountpoints (Some demo_mounts) boot)
           (set_mountpoints (Some demo_mounts) boot) demo_mounts
           (cs "/usr/local/bin/x") mnt_usr_local (Some (cs "/bin/x"))).
  - reflexivity.
  - intros m' Hin. elem_cases Hin; vm_compute; repeat constructor; discriminate.
  - vm_compute. reflexivity.
Defined.

(** X2.  The local path handed back is never the empty string: it is
    the literal [/], or what is left of the path after dropping some
    leading bytes, and its first byte is not the terminator. *)
Theorem vfs_get_mountpoint_local_path
    (k k' : kernel) (path lp : cstring) (r : option mnt_t) :
  vfs_get_mountpoint path k = Ok (r, Some lp) k' →
  byte_at lp 0 ≠ NUL
  ∧ (lp = cs "/" ∨ ∃ n, lp = drop n path).
Proof.
  intros H.
  pose proof (vfs_get_mountpoint_lock_free _ _ _ _ H) as Hlock.
  destruct (mountpoints k) as [mnts|] eqn:Hk.
  2:{ revert H. unfold vfs_get_mountpoint, bind, spinlock_acquire_mountpoints.
      rewrite Hlock. unfold ht_dump_mountpoints. simpl. by rewrite Hk. }
  rewrite (vfs_get_mountpoint_scan _ _ _ Hk Hlock) in H. cbv zeta in H.
  set (lp0 := if (1 <? _)%nat then _ else _) in H.
  assert (∃ n, lp0 = drop n path) as [n Hn].
  { subst lp0. destruct (1 <? _)%nat; [by eexists|by exists 0]. }
  assert (lp = if (byte_at lp0 0 =? NUL)%char then cs "/" else lp0) as ->.
  { destruct (index_Z mnts _); by injection H as _ <- _. }
  destruct (Ascii.eqb_spec (byte_at lp0 0) NUL) as [E|E].
  - split; [done|by left].
  - split; [done|right; by exists n].
Qed.

Lemma vfs_get_mountpoint_local_path_example :
  byte_at (cs "/bin/ls") 0 ≠ NUL
  ∧ (cs "/bin/ls" = cs "/" ∨ ∃ n, cs "/bin/ls" = drop n (cs "/usr/bin/ls")).
Proof.
  apply (vfs_get_mountpoint_local_path
           (set_mountpoints (Some demo_mounts) boot)
           (set_mountpoints (Some demo_mounts) boot)
           (cs "/usr/bin/ls") (cs "/bin/ls") (Some mnt_usr)).
  vm_compute. reflexivity.
Defined.

(** X3.  Resolution is read-only towards the rest of the layer: when it
    returns, the mount table, the registry, the handle table, [errno],
    the log and the record of driver calls are what they were. *)
Theorem vfs_get_mountpoint_frame
    (k k' : kernel) (path : cstring) (r : option mnt_t * option cstring) :
  vfs_get_mountpoint path k = Ok r k' →
  mountpoints k' = mountpoints k
  ∧ filesystems k' = filesystems k
  ∧ vfs_handles k' = vfs_handles k
  ∧ errno k' = errno k
  ∧ klog k' = klog k
  ∧ calls k' = calls k.
Proof.
  intros H.
  pose proof (vfs_get_mountpoint_lock_free _ _ _ _ H) as Hlock.
  destruct (mountpoints k) as [mnts|] eqn:Hk.
  - rewrite (vfs_get_mountpoint_scan _ _ _ Hk Hlock) in H. cbv zeta in H.
    destruct (index_Z mnts _); injection H as _ <-; by rewrite ?Hk.
  - revert H. unfold vfs_get_mountpoint, bind, spinlock_acquire_mountpoints.
    rewrite Hlock. unfold ht_dump_mountpoints. simpl. rewrite Hk. simpl.
    intros H. injection H as _ <-. by rewrite ?Hk.
Qed.

Lemma vfs_get_mountpoint_frame_example :
  let k := set_mountpoints (Some [Some mnt_usr]) boot in
  let k' := add_wild_read SIZE_MAX k in
  mountpoints k' = mountpoints k
  ∧ filesystems k' = filesystems k
  ∧ vfs_handles k' = vfs_handles k
  ∧ errno k' = errno k
  ∧ klog k' = klog k
  ∧ calls k' = calls k.
Proof.
  apply (vfs_get_mountpoint_frame
           (set_mountpoints (Some [Some mnt_usr]) boot)
           (add_wild_read SIZE_MAX (set_mountpoints (Some [Some mnt_usr]) boot))
           (cs "/etc") (None, Some (cs "/etc"))).
  vm_compute. reflexivity.
Defined.

(** ** The handle table under dispatch *)

Section handle_bracket.

Lemma da_set_same (d : dynarray) (i : Z) (e : dyn_elem) :
  da_slot d i = Some e → da_set d i (Some e) = d.
Proof.
  intros H. apply da_slot_Some, index_Z_Some in H as (_ & _ & H).
  destruct d as [slots cap]. unfold da_set. simpl in *. f_equal.
  by apply list_insert_id.
Qed.

Lemma da_set_set (d : dynarray) (i : Z) (s s' : option dyn_elem) :
  da_set (da_set d i s) i s' = da_set d i s'.
Proof. unfold da_set. simpl. f_equal. apply list_insert_insert_eq. Qed.

Lemma index_Z_insert_ne {A} (a : list A) (i : nat) (j : Z) (y : A) :
  j ≠ Z.of_nat i → index_Z (<[i := y]> a) j = index_Z a j.
Proof.
  intros Hne. unfold index_Z. rewrite length_insert.
  destruct (0 <=? j)%Z eqn:H0; [|done].
  destruct (j <? _)%Z; [|done]. simpl.
  apply list_lookup_insert_ne. apply Z.leb_le in H0. lia.
Qed.

Lemma da_slot_set_ne (d : dynarray) (i j : Z) (s : option dyn_elem) :
  (0 ≤ i)%Z → j ≠ i → da_slot (da_set d i s) j = da_slot d j.
Proof.
  intros Hi Hne. unfold da_slot, da_set. simpl.
  rewrite index_Z_insert_ne; [done|lia].
Qed.

(** Taking a reference on a present element and dropping it again
    leaves the table as it was. *)
Lemma da_getelem_unref (d : dynarray) (i : Z) (h : vfs_handle_t) :
  da_present d i = Some h →
  (da_getelem d i).1 = Some h ∧ da_unref (da_getelem d i).2 i = d.
Proof.
  intros H. destruct (da_present_Some _ _ _ H) as (e & Hslot & Hp & Hd).
  unfold da_getelem. rewrite Hslot, Hp. simpl. split; [by rewrite Hd|].
  unfold da_unref. rewrite (da_slot_set _ _ e) by done. simpl.
  rewrite da_set_set. destruct e as [rc pr dt]. simpl in *. subst pr.
  by apply da_set_same.
Qed.

Lemma da_getelem_absent (d : dynarray) (i : Z) :
  da_present d i = None → da_getelem d i = (None, d).
Proof.
  unfold da_present, da_getelem.
  destruct (da_slot d i) as [e|]; [by destruct (present e)|done].
Qed.

Lemma set_handles_same (k : kernel) : set_handles (vfs_handles k) k = k.
Proof. by destruct k. Qed.

(** The common shape of the dispatchers: reference, driver call,
    release. *)
Lemma dispatch_bracket (k : kernel) (fd : Z) (h : vfs_handle_t) (op : nat)
    (args : vfs_handle_t → list arg) :
  da_present (vfs_handles k) fd = Some h →
  implemented (vh_fs h) op →
  bind (dynarray_getelem fd) (λ fd_ptr,
    bind (deref fd_ptr) (λ h,
      bind (call_op (vh_fs h) op (args h)) (λ r,
        bind (dynarray_unref fd) (λ _, ret r)))) k
  = call_op (vh_fs h) op (args h) k.
Proof.
  intros Hh (g & Hg & Hne).
  destruct (da_getelem_unref _ _ _ Hh) as [H1 H2].
  unfold bind at 1. unfold dynarray_getelem.
  destruct (da_getelem (vfs_handles k) fd) as [r d1]. simpl in H1, H2.
  subst r. unfold bind at 1. unfold deref at 1.
  unfold bind, call_op. rewrite Hg. destruct g as [| |impl]; [done| |].
  - unfold vfs_call_invalid, bind, kprint, modify, ret, dynarray_unref.
    simpl. rewrite H2. by destruct k.
  - unfold dynarray_unref, modify, ret. simpl. rewrite H2. by destruct k.
Qed.

(** A dispatcher on a descriptor that is not in the table dereferences
    the null pointer [dynarray_getelem] hands back. *)
Lemma getelem_absent_faults {A} (k : kernel) (fd : Z)
    (f : vfs_handle_t → M A) :
  da_present (vfs_handles k) fd = None →
  bind (dynarray_getelem fd) (λ fd_ptr, bind (deref fd_ptr) f) k = Fault k.
Proof.
  intros H. unfold bind, dynarray_getelem.
  rewrite (da_getelem_absent _ _ H). simpl. by rewrite set_handles_same.
Qed.

End handle_bracket.

(** X4.  On an open handle whose slot is set, [vfs_read], [vfs_write],
    [vfs_lseek], [vfs_fstat] and [vfs_readdir] are exactly the call
    through the driver's table with the handle's internal descriptor:
    same return value, same final state.  The reference taken on the
    handle is dropped again and the handle table is left as it was. *)
Theorem vfs_dispatch_is_driver_call (k : kernel) (fd : Z) (h : vfs_handle_t) :
  da_present (vfs_handles k) fd = Some h →
  (implemented (vh_fs h) OP_read → ∀ len,
     vfs_read fd len k
     = call_op (vh_fs h) OP_read [A_int (intern_fd h); A_ptr; A_int len] k)
  ∧ (implemented (vh_fs h) OP_write → ∀ len,
     vfs_write fd len k
     = call_op (vh_fs h) OP_write [A_int (intern_fd h); A_ptr; A_int len] k)
  ∧ (implemented (vh_fs h) OP_lseek → ∀ offset type,
     vfs_lseek fd offset type k
     = call_op (vh_fs h) OP_lseek
         [A_int (intern_fd h); A_int offset; A_int type] k)
  ∧ (implemented (vh_fs h) OP_fstat →
     vfs_fstat fd k
     = call_op (vh_fs h) OP_fstat [A_int (intern_fd h); A_ptr] k)
  ∧ (implemented (vh_fs h) OP_readdir →
     vfs_readdir fd k
     = call_op (vh_fs h) OP_readdir [A_int (intern_fd h); A_ptr] k).
Proof.
  intros Hh. repeat split.
  - intros Hi len.
    exact (dispatch_bracket k fd h OP_read
             (λ h, [A_int (intern_fd h); A_ptr; A_int len]) Hh Hi).
  - intros Hi len.
    exact (dispatch_bracket k fd h OP_write
             (λ h, [A_int (intern_fd h); A_ptr; A_int len]) Hh Hi).
  - intros Hi offset type.
    exact (dispatch_bracket k fd h OP_lseek
             (λ h, [A_int (intern_fd h); A_int offset; A_int type]) Hh Hi).
  - intros Hi.
    exact (dispatch_bracket k fd h OP_fstat
             (λ h, [A_int (intern_fd h); A_ptr]) Hh Hi).
  - intros Hi.
    exact (dispatch_bracket k fd h OP_readdir
             (λ h, [A_int (intern_fd h); A_ptr]) Hh Hi).
Qed.

Lemma vfs_dispatch_is_driver_call_example :
  vfs_read 0 16 (const_open_kernel 5)
  = call_op (const_driver "fsK" 5) OP_read [A_int 7; A_ptr; A_int 16]
      (const_open_kernel 5).
Proof.
  destruct (vfs_dispatch_is_driver_call (const_open_kernel 5) 0
              (const_handle 5) eq_refl) as (Hread & _).
  apply Hread. eexists. split; [reflexivity|discriminate].
Defined.

(** X5.  Every dispatcher called on a descriptor that is not in the
    handle table (never opened, or closed) dereferences a null pointer:
    none of them checks what [dynarray_getelem] returns.  No driver is
    called and the state is untouched. *)
Theorem vfs_dispatch_absent_faults (k : kernel) (fd : Z) :
  da_present (vfs_handles k) fd = None →
  vfs_close fd k = Fault k
  ∧ vfs_fstat fd k = Fault k
  ∧ (∀ len, vfs_read fd len k = Fault k)
  ∧ (∀ len, vfs_write fd len k = Fault k)
  ∧ (∀ offset type, vfs_lseek fd offset type k = Fault k)
  ∧ vfs_dup fd k = Fault k
  ∧ vfs_readdir fd k = Fault k.
Proof.
  intros H. repeat split; intros; by apply getelem_absent_faults.
Qed.

Lemma vfs_dispatch_absent_faults_example :
  vfs_close 0 boot = Fault boot
  ∧ vfs_fstat 0 boot = Fault boot
  ∧ (∀ len, vfs_read 0 len boot = Fault boot)
  ∧ (∀ len, vfs_write 0 len boot = Fault boot)
  ∧ (∀ offset type, vfs_lseek 0 offset type boot = Fault boot)
  ∧ vfs_dup 0 boot = Fault boot
  ∧ vfs_readdir 0 boot = Fault boot.
Proof. apply (vfs_dispatch_absent_faults boot 0). reflexivity. Defined.

Section handle_install.

Lemma find_free_spec (slots : list (option dyn_elem)) (i j : nat) :
  find_free slots i = Some j → i ≤ j ∧ slots !! (j - i) = Some None.
Proof.
  revert i. induction slots as [|[e|] rest IH]; intros i H; simpl in H.
  - done.
  - apply IH in H as [Hle Hl]. split; [lia|].
    replace (j - i) with (S (j - S i)) by lia. done.
  - injection H as <-. by rewrite Nat.sub_diag.
Qed.

Lemma find_free_None (slots : list (option dyn_elem)) (i : nat) :
  find_free slots i = None → Forall is_Some slots.
Proof.
  revert i. induction slots as [|[e|] rest IH]; intros i H; simpl in H.
  - constructor.
  - constructor; [by eexists|by eapply IH].
  - done.
Qed.

Lemma index_Z_app_ne {A} (a : list A) (j : Z) (y : A) :
  j ≠ Z.of_nat (length a) → index_Z (a ++ [y]) j = index_Z a j.
Proof.
  intros Hne. unfold index_Z. rewrite length_app. simpl.
  destruct (0 <=? j)%Z eqn:H0; [|done]. apply Z.leb_le in H0. simpl.
  destruct (j <? Z.of_nat (length a))%Z eqn:H1.
  - apply Z.ltb_lt in H1.
    replace (j <? _)%Z with true by (symmetry; apply Z.ltb_lt; lia).
    apply lookup_app_l. lia.
  - apply Z.ltb_ge in H1.
    replace (j <? _)%Z with false by (symmetry; apply Z.ltb_ge; lia). done.
Qed.

(** [dynarray_add] either fails and changes nothing, or fills a slot
    that was free and touches no other. *)
Lemma da_add_spec (d : dynarray) (x : vfs_handle_t) :
  ((da_add d x).1 = (-1)%Z ∧ (da_add d x).2 = d)
  ∨ ((0 ≤ (da_add d x).1)%Z
     ∧ da_slot d (da_add d x).1 = None
     ∧ da_slot (da_add d x).2 (da_add d x).1 = Some (fresh_elem x)
     ∧ ∀ j, j ≠ (da_add d x).1 → da_slot (da_add d x).2 j = da_slot d j).
Proof.
  unfold da_add. destruct (find_free (da_slots d) 0) as [i|] eqn:Hf.
  - right. apply find_free_spec in Hf as [_ Hi].
    rewrite Nat.sub_0_r in Hi. simpl. unfold da_slot. simpl.
    repeat split.
    + lia.
    + by rewrite (index_Z_lookup _ _ _ Hi).
    + rewrite <- (Nat2Z.id i) at 1.
      by rewrite (index_Z_insert _ _ None) by by apply index_Z_lookup.
    + intros j Hj. by rewrite index_Z_insert_ne.
  - destruct (decide _) as [Hcap|Hcap]; [right|by left]. simpl.
    unfold da_slot. simpl. repeat split.
    + lia.
    + rewrite index_Z_ge; [done|lia].
    + rewrite (index_Z_lookup _ (length (da_slots d)) (Some (fresh_elem x)));
        [done|]. rewrite lookup_app_r by lia. by rewrite Nat.sub_diag.
    + intros j Hj. by rewrite index_Z_app_ne.
Qed.

Lemma da_slot_present (d : dynarray) (i : Z) (x : vfs_handle_t) :
  da_slot d i = Some (fresh_elem x) → da_present d i = Some x.
Proof. unfold da_present. by intros ->. Qed.

Lemma da_slot_absent (d : dynarray) (i : Z) :
  da_slot d i = None → da_present d i = None.
Proof. unfold da_present. by intros ->. Qed.

Lemma find_free_insert_some (slots : list (option dyn_elem)) (n i : nat)
    (e e' : dyn_elem) :
  slots !! n = Some (Some e) →
  find_free (<[n := Some e']> slots) i = find_free slots i.
Proof.
  revert n i. induction slots as [|s rest IH]; intros [|n] i H; simpl in *;
    try done.
  - by injection H as ->.
  - destruct s; [by apply IH|done].
Qed.

Lemma da_add_full (d : dynarray) (x : vfs_handle_t) :
  da_full d → da_add d x = ((-1)%Z, d).
Proof.
  intros [Hf Hcap]. unfold da_add. rewrite Hf.
  destruct (decide _); [lia|done].
Qed.

Lemma da_add_room (d : dynarray) (x : vfs_handle_t) :
  ¬ da_full d → (da_add d x).1 ≠ (-1)%Z.
Proof.
  intros Hroom. unfold da_add.
  destruct (find_free (da_slots d) 0) as [i|] eqn:Hf; [simpl; lia|].
  destruct (decide _) as [|Hcap]; [simpl; lia|].
  exfalso. apply Hroom. split; [done|lia].
Qed.

(** [dynarray_add] made while a reference is held on another element,
    followed by the release of that reference, is [dynarray_add] on the
    table as it was. *)
Lemma da_add_bracket (d : dynarray) (fd : Z) (h x : vfs_handle_t) :
  da_present d fd = Some h →
  (da_add (da_getelem d fd).2 x).1 = (da_add d x).1
  ∧ da_unref (da_add (da_getelem d fd).2 x).2 fd = (da_add d x).2.
Proof.
  intros Hh. destruct (da_getelem_unref _ _ _ Hh) as [_ Hback].
  destruct (da_present_Some _ _ _ Hh) as (e & Hslot & Hp & Hd).
  pose proof (da_slot_Some _ _ _ Hslot) as Hidx.
  destruct (index_Z_Some _ _ _ Hidx) as (Hfd & Hlt & Hn).
  set (e1 := {| refcount := S (refcount e); present := true; data := data e |}).
  assert (Hd1 : (da_getelem d fd).2 = da_set d fd (Some e1))
    by (unfold da_getelem; by rewrite Hslot, Hp).
  rewrite Hd1 in Hback |- *. clear Hd1.
  assert (He : e = {| refcount := pred (refcount e1); present := true;
                      data := data e1 |})
    by (destruct e; simpl in *; by subst).
  unfold da_add. cbn [da_slots da_capacity da_set].
  rewrite (find_free_insert_some _ _ _ e) by done. rewrite length_insert.
  destruct (find_free (da_slots d) 0) as [i|] eqn:Hf.
  - apply find_free_spec in Hf as [_ Hi]. rewrite Nat.sub_0_r in Hi.
    assert (i ≠ Z.to_nat fd) as Hne by (intros ->; congruence).
    cbn [fst snd]. split; [done|].
    unfold da_unref, da_slot. cbn [da_slots].
    rewrite index_Z_insert_ne by lia.
    rewrite (index_Z_insert _ _ (Some e)) by done. cbn [mjoin option_join].
    cbn [present e1 negb andb]. unfold da_set. cbn [da_slots da_capacity].
    f_equal. rewrite <- He.
    rewrite (list_insert_insert_ne _ (Z.to_nat fd) i) by done.
    rewrite list_insert_insert_eq. by rewrite (list_insert_id _ _ _ Hn).
  - destruct (decide _) as [Hcap|Hcap]; cbn [fst snd]; [|done].
    split; [done|].
    unfold da_unref, da_slot. cbn [da_slots].
    rewrite index_Z_app_ne by (rewrite length_insert; lia).
    rewrite (index_Z_insert _ _ (Some e)) by done. cbn [mjoin option_join].
    cbn [present e1 negb andb]. unfold da_set. cbn [da_slots da_capacity].
    f_equal. rewrite <- He.
    rewrite insert_app_l by (rewrite length_insert; lia).
    rewrite list_insert_insert_eq. by rewrite (list_insert_id _ _ _ Hn).
Qed.

End handle_install.

(** X6.  [vfs_dup] on an open handle calls the driver's [dup] once on
    the internal descriptor.  If that returns -1, [vfs_dup] returns -1
    and nothing else changes.  Otherwise the value the driver returned
    is dropped, and the table and the result are exactly those of
    [dynarray_add] applied to the table as it was and to the handle
    being duplicated: with the table full, -1 and the table unchanged;
    with room, the index of a slot that was free, now holding a copy of
    that handle (same driver, same internal descriptor), every other
    slot untouched.  The duplicated handle stays open in every case. *)
Theorem vfs_dup_shares_handle
    (k : kernel) (fd : Z) (h : vfs_handle_t)
    (impl : list call_event → list arg → Z) :
  da_present (vfs_handles k) fd = Some h →
  fs_ops (vh_fs h) !! OP_dup = Some (fn_driver impl) →
  let r0 := impl (calls k) [A_int (intern_fd h)] in
  let added := da_add (vfs_handles k) h in
  vfs_dup fd k
  = (if (r0 =? -1)%Z
     then Ok (-1)%Z (add_call (dup_event h r0) k)
     else Ok added.1 (set_handles added.2 (add_call (dup_event h r0) k)))
  ∧ (da_full (vfs_handles k) → added = ((-1)%Z, vfs_handles k))
  ∧ (¬ da_full (vfs_handles k) →
     (0 ≤ added.1)%Z ∧ added.1 ≠ fd
     ∧ da_present (vfs_handles k) added.1 = None
     ∧ da_present added.2 added.1 = Some h
     ∧ ∀ j, j ≠ added.1 → da_slot added.2 j = da_slot (vfs_handles k) j)
  ∧ da_present added.2 fd = Some h.
Proof.
  intros Hh Hop r0 added.
  destruct (da_getelem_unref _ _ _ Hh) as [H1 H2].
  destruct (da_add_bracket _ _ _ h Hh) as [Hidx Htab].
  fold added in Hidx, Htab.
  assert (Hroom : ¬ da_full (vfs_handles k) →
     (0 ≤ added.1)%Z ∧ added.1 ≠ fd
     ∧ da_present (vfs_handles k) added.1 = None
     ∧ da_present added.2 added.1 = Some h
     ∧ ∀ j, j ≠ added.1 → da_slot added.2 j = da_slot (vfs_handles k) j).
  { intros Hnf. pose proof (da_add_room _ h Hnf) as Hne. unfold added.
    destruct (da_add_spec (vfs_handles k) h)
      as [[E _]|(Hr & Hfree & Hnew & Hother)]; [done|].
    split_and!; try done.
    - intros E. rewrite E in Hfree. apply da_slot_absent in Hfree. congruence.
    - by apply da_slot_absent.
    - by apply da_slot_present. }
  split_and!.
  - unfold vfs_dup, bind, dynarray_getelem.
    destruct (da_getelem (vfs_handles k) fd) as [p d1] eqn:Hget.
    simpl in H1, H2, Hidx, Htab. subst p. simpl.
    unfold call_op. rewrite Hop. simpl. fold r0.
    destruct (r0 =? -1)%Z.
    + unfold dynarray_unref, modify, ret. simpl. rewrite H2. by destruct k.
    + unfold dynarray_add, dynarray_unref, modify, ret. simpl.
      destruct (da_add d1 h) as [r d2]. simpl in Hidx, Htab |- *.
      rewrite Hidx, Htab. by destruct k.
  - intros Hfull. by apply da_add_full.
  - exact Hroom.
  - destruct (decide (da_full (vfs_handles k))) as [Hfull|Hnf].
    + unfold added. by rewrite (da_add_full _ h Hfull).
    + destruct (Hroom Hnf) as (_ & Hne & _ & _ & Hother).
      destruct (da_present_Some _ _ _ Hh) as (e & Hslot & Hp & Hd).
      unfold da_present. rewrite Hother by done. by rewrite Hslot, Hp, Hd.
Qed.

Lemma vfs_dup_shares_handle_example :
  let k := const_open_kernel 9 in
  let added := da_add (vfs_handles k) (const_handle 9) in
  vfs_dup 0 k
  = Ok 1%Z (set_handles added.2 (add_call (dup_event (const_handle 9) 9) k))
  ∧ da_present added.2 1 = Some (const_handle 9)
  ∧ da_present added.2 0 = Some (const_handle 9).
Proof.
  intros k added.
  destruct (vfs_dup_shares_handle k 0 (const_handle 9) (λ _ _, 9%Z)
              eq_refl eq_refl) as (Hrun & _ & Hroom & Hkept).
  split; [exact Hrun|]. split; [|exact Hkept].
  apply Hroom. intros [_ Hcap]. vm_compute in Hcap. lia.
Defined.

(** X7.  Once [vfs_close] has returned, whatever the driver's [close]
    answered, the descriptor is gone from the handle table, so a second
    close, or any other dispatcher called on it, dereferences a null
    pointer. *)
Theorem vfs_close_then_use_faults (k k' : kernel) (fd r : Z) :
  vfs_close fd k = Ok r k' →
  da_present (vfs_handles k') fd = None
  ∧ vfs_close fd k' = Fault k'
  ∧ (∀ len, vfs_read fd len k' = Fault k')
  ∧ (∀ len, vfs_write fd len k' = Fault k')
  ∧ vfs_dup fd k' = Fault k'.
Proof.
  intros H.
  assert (da_present (vfs_handles k') fd = None) as Hgone.
  { destruct (da_present (vfs_handles k) fd) as [h|] eqn:Hh.
    2:{ unfold vfs_close in H. by rewrite getelem_absent_faults in H. }
    destruct (da_close_sequence _ _ _ Hh) as [H1 H2].
    revert H. unfold vfs_close, bind, dynarray_getelem.
    destruct (da_getelem (vfs_handles k) fd) as [p d1]. simpl in H1, H2.
    subst p. simpl. unfold call_op.
    destruct (fs_ops (vh_fs h) !! OP_close) as [[| |impl]|]; try done.
    - unfold vfs_call_invalid, bind, kprint, modify, ret. simpl.
      intros H. by injection H as _ <-.
    - destruct (negb _); unfold ret; intros H; by injection H as _ <-. }
  split; [done|]. repeat split; intros; by apply getelem_absent_faults.
Qed.

Lemma vfs_close_then_use_faults_example :
  let k' := add_call (close_event (const_handle 0) 0)
              (set_handles {| da_slots := [None]; da_capacity := 256 |} boot) in
  da_present (vfs_handles k') 0 = None
  ∧ vfs_close 0 k' = Fault k'
  ∧ (∀ len, vfs_read 0 len k' = Fault k')
  ∧ (∀ len, vfs_write 0 len k' = Fault k')
  ∧ vfs_dup 0 k' = Fault k'.
Proof.
  apply (vfs_close_then_use_faults (const_open_kernel 0) _ 0 0).
  reflexivity.
Defined.

Section open_results.

Lemma vfs_get_mountpoint_handles
    (k k' : kernel) (path : cstring) (r : option mnt_t * option cstring) :
  vfs_get_mountpoint path k = Ok r k' → vfs_handles k' = vfs_handles k.
Proof.
  intros H.
  pose proof (vfs_get_mountpoint_lock_free _ _ _ _ H) as Hlock.
  destruct (mountpoints k) as [mnts|] eqn:Hk.
  - rewrite (vfs_get_mountpoint_scan _ _ _ Hk Hlock) in H. cbv zeta in H.
    destruct (index_Z mnts _); by injection H as _ <-.
  - revert H. unfold vfs_get_mountpoint, bind, spinlock_acquire_mountpoints.
    rewrite Hlock. unfold ht_dump_mountpoints. simpl. rewrite Hk. simpl.
    intros H. by injection H as _ <-.
Qed.

Lemma vfs_get_mountpoint_record_local_path
    (k k' : kernel) (path : cstring) (m : mnt_t) (lp : option cstring) :
  vfs_get_mountpoint path k = Ok (Some m, lp) k' → is_Some lp.
Proof.
  intros H.
  pose proof (vfs_get_mountpoint_lock_free _ _ _ _ H) as Hlock.
  destruct (vfs_get_mountpoint_dumped _ _ _ _ _ H) as [mnts Hk].
  rewrite (vfs_get_mountpoint_scan _ _ _ Hk Hlock) in H. cbv zeta in H.
  destruct (index_Z mnts _); injection H as _ <- _; by eexists.
Qed.

End open_results.

(** X8.  When the resolver finds a record, the driver's [open]
    succeeds and the handle table has room, [open] stores a handle made
    of the record's driver and the internal descriptor the driver
    returned, hands its index to [fd_create], and a read through the
    handler table of the new descriptor reaches that driver's [read]
    with that internal descriptor. *)
Theorem open_then_read
    (fd_create : file_descriptor_t → Z) (k : kernel) (path : cstring)
    (mode : Z) (m : mnt_t) (lp : cstring) (k1 : kernel)
    (impl rd : list call_event → list arg → Z) :
  vfs_get_mountpoint path k = Ok (Some m, Some lp) k1 →
  fs_ops (fs m) !! OP_open = Some (fn_driver impl) →
  fs_ops (fs m) !! OP_read = Some (fn_driver rd) →
  let ifd := impl (calls k1) [A_str lp; A_int mode; A_int (magic m)] in
  let h := {| vh_fs := fs m; intern_fd := ifd |} in
  let v := (da_add (vfs_handles k1) h).1 in
  ifd ≠ (-1)%Z →
  v ≠ (-1)%Z →
  ∃ k',
    open fd_create path mode k
    = Ok (fd_create {| fd_intern_fd := v; fd_handler := vfs_functions |}) k'
    ∧ da_present (vfs_handles k') v = Some h
    ∧ ∀ len,
        let r := rd (calls k') [A_int ifd; A_ptr; A_int len] in
        h_read vfs_functions v len k'
        = Ok r (add_call (read_event (fs m) ifd len r) k').
Proof.
  intros Hres Hop Hrd ifd h v Hifd Hv.
  unfold open, bind. rewrite Hres. simpl.
  unfold call_op at 1. rewrite Hop. fold ifd.
  replace (ifd =? -1)%Z with false by (symmetry; by apply Z.eqb_neq).
  unfold dynarray_add, ret. simpl. fold h.
  pose proof (da_add_spec (vfs_handles k1) h) as Hspec. fold v in Hspec.
  destruct (da_add (vfs_handles k1) h) as [v' d2] eqn:Hadd.
  subst v. cbn [fst snd] in Hspec, Hv |- *.
  destruct Hspec as [[E _]|(Hr & _ & Hnew & _)]; [done|].
  eexists. split; [reflexivity|]. simpl.
  apply da_slot_present in Hnew. split; [done|].
  intros len.
  etrans.
  { apply (dispatch_bracket _ v' h OP_read
             (λ h, [A_int (intern_fd h); A_ptr; A_int len])); [done|].
    eexists. split; [exact Hrd|discriminate]. }
  unfold call_op. simpl. by rewrite Hrd.
Qed.

Lemma open_then_read_example :
  let k := set_mountpoints
             (Some [Some {| name := cs "/"; fs := const_driver "fsK" 5;
                            magic := 1 |}]) boot in
  ∃ k',
    open (λ fd, fd_intern_fd fd) (cs "/f") 0 k = Ok 0%Z k'
    ∧ da_present (vfs_handles k') 0 = Some {| vh_fs := const_driver "fsK" 5; intern_fd := 5 |}
    ∧ ∀ len,
        h_read vfs_functions 0 len k'
        = Ok 5%Z (add_call (read_event (const_driver "fsK" 5) 5 len 5) k').
Proof.
  apply (open_then_read (λ fd, fd_intern_fd fd)
           (set_mountpoints
              (Some [Some {| name := cs "/"; fs := const_driver "fsK" 5;
                             magic := 1 |}]) boot)
           (cs "/f") 0
           {| name := cs "/"; fs := const_driver "fsK" 5; magic := 1 |}
           (cs "/f")
           (set_mountpoints
              (Some [Some {| name := cs "/"; fs := const_driver "fsK" 5;
                             magic := 1 |}]) boot)
           (λ _ _, 5%Z) (λ _ _, 5%Z));
    try reflexivity; vm_compute; discriminate.
Defined.

(** X9.  [open] returns -1 and leaves the handle table and the mount
    table as they were when the resolver finds no record (no driver is
    called at all), when the driver has no [open] and the call lands in
    [vfs_call_invalid], and when the driver's [open] returns -1. *)
Theorem open_failure_exits
    (fd_create : file_descriptor_t → Z) (k k1 : kernel) (path : cstring)
    (mode : Z) (mp : option mnt_t) (lp : option cstring) :
  vfs_get_mountpoint path k = Ok (mp, lp) k1 →
  (mp = None
   ∨ ∃ m, mp = Some m
       ∧ (fs_ops (fs m) !! OP_open = Some fn_vfs_call_invalid
          ∨ ∃ impl lp',
              lp = Some lp'
              ∧ fs_ops (fs m) !! OP_open = Some (fn_driver impl)
              ∧ impl (calls k1) [A_str lp'; A_int mode; A_int (magic m)]
                = (-1)%Z)) →
  ∃ k',
    open fd_create path mode k = Ok (-1)%Z k'
    ∧ vfs_handles k' = vfs_handles k
    ∧ (mp = None → k' = k1).
Proof.
  intros Hres Hcases.
  pose proof (vfs_get_mountpoint_handles _ _ _ _ Hres) as Hframe.
  unfold open, bind. rewrite Hres.
  destruct Hcases as [->|(m & -> & Hop)].
  { eexists. by split. }
  destruct (vfs_get_mountpoint_record_local_path _ _ _ _ _ Hres) as [lp0 ->].
  simpl. unfold call_op.
  destruct Hop as [Hop|(impl & lp' & Hlp & Hop & Hret)]; rewrite Hop.
  - unfold vfs_call_invalid, bind, kprint, modify, ret. simpl.
    eexists. by split.
  - injection Hlp as ->. rewrite Hret. simpl. unfold ret.
    eexists. by split.
Qed.

Lemma open_failure_exits_example :
  let k := set_mountpoints (Some [Some mnt_usr]) boot in
  ∃ k',
    open (λ _, 3%Z) (cs "/etc") 0 k = Ok (-1)%Z k'
    ∧ vfs_handles k' = vfs_handles k
    ∧ (@None mnt_t = None → k' = add_wild_read SIZE_MAX k).
Proof.
  apply (open_failure_exits (λ _, 3%Z)
           (set_mountpoints (Some [Some mnt_usr]) boot)
           (add_wild_read SIZE_MAX (set_mountpoints (Some [Some mnt_usr]) boot))
           (cs "/etc") 0 None (Some (cs "/etc"))).
  - vm_compute. reflexivity.
  - by left.
Defined.

(** ** Registration, sync and mount *)

Section registry_results.

Lemma fill_slots_length (n i : nat) (p : list fnptr) :
  length (fill_slots n i p) = length p.
Proof.
  revert i p. induction n as [|n IH]; intros i p; simpl; [done|].
  rewrite IH. destruct (p !! i) as [[| |]|]; by rewrite ?length_insert.
Qed.

Lemma fill_slots_all (p : list fnptr) :
  fill_slots (length p) 0 p = patch <$> p.
Proof.
  apply list_eq. intros j. rewrite fill_slots_lookup, list_lookup_fmap.
  destruct (decide _) as [|Hn]; [done|].
  rewrite lookup_ge_None_2 by lia. done.
Qed.

Lemma patch_idemp (g : fnptr) : patch (patch g) = patch g.
Proof. by destruct g. Qed.

End registry_results.

(** X10.  Registration only ever turns unset slots into the sentinel:
    the driver keeps its name, its number of slots and every operation
    it implements; afterwards no slot is unset, so a call through any
    slot of a registered driver returns and never jumps to address
    zero; and registering the patched structure again patches nothing
    more. *)
Theorem vfs_install_fs_keeps_implemented
    (filesystem registered : fs_t) (k k' : kernel) (r : Z) :
  vfs_install_fs filesystem k = Ok (r, registered) k' →
  fs_name registered = fs_name filesystem
  ∧ length (fs_ops registered) = length (fs_ops filesystem)
  ∧ (∀ op g, fs_ops filesystem !! op = Some g → g ≠ fn_null →
             fs_ops registered !! op = Some g)
  ∧ (∀ op, op < length (fs_ops filesystem) → implemented registered op)
  ∧ (∀ op args k1, op < length (fs_ops filesystem) →
       ∃ v k1', call_op registered op args k1 = Ok v k1')
  ∧ (∀ k2 r2 again k2',
       vfs_install_fs registered k2 = Ok (r2, again) k2' →
       again = registered).
Proof.
  unfold vfs_install_fs, bind, ht_add_filesystems. simpl.
  rewrite fill_slots_all.
  assert (∀ op, op < length (fs_ops filesystem) →
                implemented {| fs_name := fs_name filesystem;
                               fs_ops := patch <$> fs_ops filesystem |} op)
    as Himpl.
  { intros op Hop. destruct (lookup_lt_is_Some_2 _ _ Hop) as [g Hg].
    exists (patch g). simpl. rewrite list_lookup_fmap, Hg.
    split; [done|by destruct g]. }
  intros H.
  assert (registered = {| fs_name := fs_name filesystem;
                          fs_ops := patch <$> fs_ops filesystem |}) as ->.
  { destruct (filesystems k !! fs_name filesystem);
      unfold ret in H; by injection H as _ <- _. }
  clear H. simpl. repeat split.
  - by rewrite length_fmap.
  - intros op g Hg Hne. rewrite list_lookup_fmap, Hg. by destruct g.
  - done.
  - intros op args k1 Hop. destruct (Himpl op Hop) as (g & Hg & Hne).
    unfold call_op. rewrite Hg. destruct g as [| |impl]; [done| |].
    + unfold vfs_call_invalid, bind, kprint, modify, ret. simpl.
      by eexists _, _.
    + by eexists _, _.
  - intros k2 r2 again k2'. rewrite fill_slots_all. simpl.
    rewrite <- list_fmap_compose.
    rewrite (list_fmap_ext (patch ∘ patch) patch (fs_ops filesystem))
      by (intros; apply patch_idemp).
    destruct (filesystems k2 !! fs_name filesystem);
      unfold ret; intros H; by injection H as _ <- _.
Qed.

Lemma vfs_install_fs_keeps_implemented_example :
  let filesystem := demo_driver "fsA" 3 0 in
  let registered :=
    {| fs_name := cs "fsA";
       fs_ops := patch <$> fs_ops (demo_driver "fsA" 3 0) |} in
  fs_name registered = fs_name filesystem
  ∧ length (fs_ops registered) = length (fs_ops filesystem)
  ∧ (∀ op g, fs_ops filesystem !! op = Some g → g ≠ fn_null →
             fs_ops registered !! op = Some g)
  ∧ (∀ op, op < length (fs_ops filesystem) → implemented registered op)
  ∧ (∀ op args k1, op < length (fs_ops filesystem) →
       ∃ v k1', call_op registered op args k1 = Ok v k1')
  ∧ (∀ k2 r2 again k2',
       vfs_install_fs registered k2 = Ok (r2, again) k2' →
       again = registered).
Proof.
  apply (vfs_install_fs_keeps_implemented (demo_driver "fsA" 3 0) _ boot
           (set_filesystems
              (<[cs "fsA" := {| fs_name := cs "fsA";
                   fs_ops := patch <$> fs_ops (demo_driver "fsA" 3 0) |}]> ∅)
              boot) 0).
  reflexivity.
Defined.

Section sync_results.

Lemma sync_loop_drivers (fs : list fs_t) (k : kernel) :
  Forall (λ f, driver_op f OP_sync) fs →
  ∃ evs,
    sync_loop (Some <$> fs) k = Ok tt (record_calls evs k)
    ∧ ev_fs <$> evs = fs_name <$> fs
    ∧ Forall (λ ev, ev_op ev = OP_sync ∧ ev_args ev = []) evs.
Proof.
  intros H. revert k. induction H as [|f fs [impl Hf] _ IH]; intros k.
  - by exists [].
  - simpl. unfold bind, deref, call_op. rewrite Hf.
    destruct (IH (add_call (sync_event f (impl (calls k) [])) k))
      as (evs & Hrun & Hnames & Hops).
    exists (sync_event f (impl (calls k) []) :: evs).
    split; [exact Hrun|]. split; [simpl; by f_equal|].
    constructor; [done|exact Hops].
Qed.

Lemma call_op_implemented (f : fs_t) (op : nat) (args : list arg)
    (k : kernel) :
  implemented f op → ∃ v k', call_op f op args k = Ok v k'.
Proof.
  intros (g & Hg & Hne). unfold call_op. rewrite Hg.
  destruct g as [| |impl]; [done| |].
  - unfold vfs_call_invalid, bind, kprint, modify, ret. simpl.
    by eexists _, _.
  - by eexists _, _.
Qed.

Lemma sync_loop_implemented (fs : list fs_t) (k : kernel) :
  Forall (λ f, implemented f OP_sync) fs →
  ∃ k', sync_loop (Some <$> fs) k = Ok tt k'.
Proof.
  intros H. revert k. induction H as [|f fs Hf _ IH]; intros k.
  - by eexists.
  - simpl. unfold bind, deref.
    destruct (call_op_implemented f OP_sync [] k Hf) as (v & k1 & ->).
    apply IH.
Qed.

Lemma sync_loop_null_entry (pre : list fs_t) (rest : list (option fs_t))
    (k : kernel) :
  Forall (λ f, implemented f OP_sync) pre →
  ∃ k', sync_loop (Some <$> pre) k = Ok tt k'
        ∧ sync_loop ((Some <$> pre) ++ None :: rest) k = Fault k'.
Proof.
  intros H. revert k. induction H as [|f fs Hf _ IH]; intros k.
  - by eexists.
  - simpl. unfold bind, deref.
    destruct (call_op_implemented f OP_sync [] k Hf) as (v & k1 & ->).
    apply IH.
Qed.

End sync_results.

(** X11.  With the lock free and a dump of drivers that implement
    [sync], [vfs_sync] calls each driver's [sync] exactly once, in the
    order of the dump and without arguments, changes nothing else in
    the kernel state, releases the lock and returns 0 whatever the
    drivers returned. *)
Theorem vfs_sync_calls_each_driver (fs : list fs_t) (k : kernel) :
  Forall (λ f, driver_op f OP_sync) fs →
  ∃ evs,
    vfs_sync (Some (Some <$> fs)) false k = Ok (0%Z, false) (record_calls evs k)
    ∧ ev_fs <$> evs = fs_name <$> fs
    ∧ Forall (λ ev, ev_op ev = OP_sync ∧ ev_args ev = []) evs.
Proof.
  intros H. destruct (sync_loop_drivers fs k H) as (evs & Hrun & Hrest).
  exists evs. split; [|exact Hrest]. unfold vfs_sync. by rewrite Hrun.
Qed.

Lemma vfs_sync_calls_each_driver_example :
  ∃ evs,
    vfs_sync (Some (Some <$> [const_driver "fsK" 1; const_driver "fsL" (-1)]))
      false boot
    = Ok (0%Z, false) (record_calls evs boot)
    ∧ ev_fs <$> evs = fs_name <$> [const_driver "fsK" 1; const_driver "fsL" (-1)]
    ∧ Forall (λ ev, ev_op ev = OP_sync ∧ ev_args ev = []) evs.
Proof.
  apply (vfs_sync_calls_each_driver
           [const_driver "fsK" 1; const_driver "fsL" (-1)] boot).
  repeat constructor; by eexists.
Defined.

(** X12.  The other ways through [vfs_sync]: on a null dump it returns
    0 with [filesystems_lock] still held, and with the lock held it
    never returns; drivers whose [sync] slot holds the sentinel do not
    stop the loop; a null entry in the dump is dereferenced without a
    check, in the state the loop over the drivers ahead of it has
    left. *)
Theorem vfs_sync_edge_cases (k : kernel) :
  vfs_sync None false k = Ok (0%Z, true) k
  ∧ (∀ dump, vfs_sync dump true k = Spin k)
  ∧ (∀ fs, Forall (λ f, implemented f OP_sync) fs →
       ∃ k', vfs_sync (Some (Some <$> fs)) false k = Ok (0%Z, false) k')
  ∧ (∀ pre rest, Forall (λ f, implemented f OP_sync) pre →
       ∃ k', sync_loop (Some <$> pre) k = Ok tt k'
             ∧ vfs_sync (Some ((Some <$> pre) ++ None :: rest)) false k
               = Fault k').
Proof.
  repeat split.
  - intros fs H. destruct (sync_loop_implemented fs k H) as [k' Hrun].
    exists k'. unfold vfs_sync. by rewrite Hrun.
  - intros pre rest H.
    destruct (sync_loop_null_entry pre rest k H) as (k' & Hpre & Hrun).
    exists k'. split; [done|]. unfold vfs_sync. by rewrite Hrun.
Qed.

(** X13.  The sync worker survives any number of rounds over non-null
    dumps of registered drivers, the lock being free after each; but
    one null dump wedges it: [vfs_sync] returns with the lock held, and
    the next round spins on it for ever. *)
Theorem vfs_sync_worker_wedges_on_null_dump
    (before : list (list fs_t)) (next : fs_dump) (later : list fs_dump)
    (k : kernel) :
  Forall (Forall (λ f, implemented f OP_sync)) before →
  (∃ k', vfs_sync_worker (full_dump <$> before) false k = Ok false k')
  ∧ (∃ k', vfs_sync_worker ((full_dump <$> before) ++ None :: next :: later)
             false k = Spin k').
Proof.
  intros H. revert k. induction H as [|fs before Hfs _ IH]; intros k.
  - split; by eexists.
  - destruct (sync_loop_implemented fs k Hfs) as [k1 Hrun].
    destruct (IH k1) as [[k2 H1] [k3 H2]].
    split; [exists k2|exists k3]; simpl; unfold bind, vfs_sync, full_dump;
      by rewrite Hrun.
Qed.

Lemma vfs_sync_worker_wedges_on_null_dump_example :
  (∃ k', vfs_sync_worker (full_dump <$> [[const_driver "fsK" 1]]) false boot
         = Ok false k')
  ∧ (∃ k', vfs_sync_worker
             ((full_dump <$> [[const_driver "fsK" 1]])
              ++ None :: full_dump [const_driver "fsK" 1] :: [])
             false boot = Spin k').
Proof.
  apply (vfs_sync_worker_wedges_on_null_dump [[const_driver "fsK" 1]]
           (full_dump [const_driver "fsK" 1]) [] boot).
  repeat constructor. eexists. split; [reflexivity|discriminate].
Defined.

Section mount_results.

(** The resolver returns a record that covers the path when every
    other covering record has a strictly shorter target path. *)
Lemma resolve_longest_unique
    (k : kernel) (mnts : list (option mnt_t)) (P : cstring) (m : mnt_t) :
  mountpoints k = Some mnts →
  mountpoints_lock k = false →
  (Z.of_nat (length mnts) ≤ SIZE_MAX)%Z →
  is_cstr P →
  (∀ m', Some m' ∈ mnts → is_cstr (name m')) →
  Some m ∈ mnts →
  name m ≠ [] →
  covers m P →
  (∀ m', Some m' ∈ mnts → covers m' P →
         length (name m) ≤ length (name m') → m' = m) →
  vfs_get_mountpoint P k = Ok (Some m, Some (local_part m P)) k.
Proof.
  intros Hk Hlock Hsize HP Hnames Hm Hne Hcov Huniq.
  rewrite (vfs_get_mountpoint_scan _ _ _ Hk Hlock). cbv zeta.
  destruct (scan_spec P mnts 0 (to_size_t (-1), 0)) as (Hmax & _ & Hsrc).
  assert (Hlen : length (name m) ≤ (scan P mnts 0 (to_size_t (-1), 0)).2).
  { rewrite <- (kstrlen_cstr (name m)) by auto.
    apply Hmax; [done|]. apply accepts_covers; auto. }
  destruct Hsrc as [Heq|(j & m1 & Hj & Heq & Ha & _)]; rewrite Heq in Hlen |- *;
    cbn [fst snd] in Hlen |- *.
  { destruct (name m); [done|simpl in Hlen; lia]. }
  change (0 + j) with j.
  assert (Hm1 : Some m1 ∈ mnts) by (by eapply list_elem_of_lookup_2).
  assert (Hn1 : is_cstr (name m1)) by auto.
  apply accepts_covers in Ha; [|done].
  rewrite (kstrlen_cstr _ Hn1) in Hlen.
  assert (m1 = m) as -> by auto.
  pose proof (lookup_lt_Some _ _ _ Hj) as Hjlt.
  rewrite (index_Z_lookup _ _ _ Hj).
  assert ((Z.of_nat j =? to_size_t (-1))%Z = false) as ->.
  { apply Z.eqb_neq. unfold SIZE_MAX, to_size_t in *.
    change ((-1) mod 2 ^ 64)%Z with (2 ^ 64 - 1)%Z. lia. }
  cbn [negb].
  pose proof (local_path_local_part m P HP Hn1) as Hlp. cbv zeta in Hlp.
  by rewrite Hlp.
Qed.

Lemma c_str_cstr (s : cstring) : is_cstr s → c_str s = s.
Proof.
  intros H. unfold c_str. rewrite (kstrlen_cstr _ H). by apply take_ge.
Qed.

(** What a successful [mount] has done. *)
Lemma mount_shape
    (source target fs_type : cstring) (m_flags : Z) (k k' : kernel) :
  mount source target fs_type m_flags k = Ok 0%Z k' →
  ∃ f res,
    filesystems k !! fs_type = Some f
    ∧ res ≠ (-1)%Z
    ∧ (c_str target ∉ name <$> omap id (default [] (mountpoints k)))
    ∧ mountpoints k'
      = Some (default [] (mountpoints k)
              ++ [Some {| name := c_str target; fs := f; magic := res |}]).
Proof.
  unfold mount, bind, ht_get_filesystems.
  destruct (filesystems k !! fs_type) as [f|] eqn:Hf; [|done].
  unfold call_op.
  destruct (fs_ops f !! OP_mount) as [[| |impl]|]; try done.
  set (res := impl (calls k) _).
  destruct (res =? -1)%Z eqn:Hres; [done|].
  apply Z.eqb_neq in Hres.
  unfold ht_add_mountpoints. cbn [mountpoints add_call name].
  destruct (bool_decide _) eqn:Hcol; [done|].
  apply bool_decide_eq_false in Hcol.
  cbn [Z.eqb]. unfold kprint, modify, ret.
  intros H. injection H as <-. by exists f, res.
Qed.

Lemma mount_lock
    (source target fs_type : cstring) (m_flags r : Z) (k k' : kernel) :
  mount source target fs_type m_flags k = Ok r k' →
  mountpoints_lock k' = mountpoints_lock k.
Proof.
  unfold mount, bind, ht_get_filesystems.
  destruct (filesystems k !! fs_type) as [f|]; [|by intros [= _ <-]].
  unfold call_op.
  destruct (fs_ops f !! OP_mount) as [[| |impl]|]; try done.
  { unfold vfs_call_invalid, bind, kprint, modify, ret. simpl.
    by intros [= _ <-]. }
  destruct (_ =? -1)%Z; [by intros [= _ <-]|].
  unfold ht_add_mountpoints. destruct (bool_decide _); [by intros [= _ <-]|].
  cbn [Z.eqb]. unfold kprint, modify, ret. by intros [= _ <-].
Qed.

End mount_results.



(** X15.  A mount that succeeded is what the resolver finds next: after
    [mount] has returned 0 for a non-empty target that fits the record's
    name array, resolving that target returns the record just added
    (the driver registered under the type name, the target as name)
    with the local path of the mountpoint's root, whatever else is
    mounted. *)
Theorem mount_then_resolve
    (source target fs_type : cstring) (m_flags : Z) (k k' : kernel) :
  kstrlen target < MNT_NAME_SIZE →
  mount source target fs_type m_flags k = Ok 0%Z k' →
  mountpoints_lock k = false →
  (Z.of_nat (length (default [] (mountpoints k))) < SIZE_MAX)%Z →
  is_cstr target → target ≠ [] →
  (∀ m, Some m ∈ default [] (mountpoints k) → is_cstr (name m)) →
  ∃ m,
    vfs_get_mountpoint target k' = Ok (Some m, Some (local_part m target)) k'
    ∧ name m = target
    ∧ filesystems k !! fs_type = Some (fs m)
    ∧ local_part m target = (if (1 <? length target)%nat then cs "/" else target).
Proof.
  intros _ Hmount Hlock Hsize Ht Hne Hold.
  assert (mountpoints_lock k' = false) as Hlock'
    by (by rewrite (mount_lock _ _ _ _ _ _ _ Hmount)).
  destruct (mount_shape _ _ _ _ _ _ Hmount)
    as (f & res & Hf & Hres & Hfresh & Hk').
  rewrite (c_str_cstr _ Ht) in Hfresh, Hk'.
  set (m := {| name := target; fs := f; magic := res |}) in *.
  exists m. split; [|split; [done|split; [done|]]].
  - apply (resolve_longest_unique k' _ target m Hk'); try done.
    + rewrite length_app. simpl. lia.
    + intros m' Hin. apply elem_of_app in Hin as [Hin|Hin]; [by apply Hold|].
      apply list_elem_of_singleton in Hin. by injection Hin as ->.
    + apply elem_of_app. right. by apply list_elem_of_singleton.
    + split; [done|]. right. left. by apply byte_at_ge.
    + intros m' Hin [Hpre _] Hge. simpl in Hge.
      apply elem_of_app in Hin as [Hin|Hin].
      * exfalso. apply Hfresh.
        assert (name m' = target) as <-.
        { apply (prefix_same_length _ _ target); [done|done|].
          apply prefix_length in Hpre. lia. }
        apply list_elem_of_fmap. exists m'. split; [done|].
        apply list_elem_of_omap. by exists (Some m').
      * apply list_elem_of_singleton in Hin. by injection Hin as ->.
  - unfold local_part. simpl. destruct (1 <? length target)%nat; [|by destruct target].
    by rewrite drop_all.
Qed.

Lemma mount_then_resolve_example :
  let k := set_filesystems (<[cs "fsK" := const_driver "fsK" 4]> ∅) boot in
  let k' :=
    add_log KPRN_INFO (mounted_message (cs "/dev/sda") (cs "/mnt") (cs "fsK"))
      (set_mountpoints
         (Some [Some {| name := cs "/mnt"; fs := const_driver "fsK" 4;
                        magic := 4 |}])
         (add_call (mount_event (const_driver "fsK" 4) (cs "/dev/sda") 0 4)
            k)) in
  ∃ m,
    vfs_get_mountpoint (cs "/mnt") k'
    = Ok (Some m, Some (local_part m (cs "/mnt"))) k'
    ∧ name m = cs "/mnt"
    ∧ filesystems k !! cs "fsK" = Some (fs m)
    ∧ local_part m (cs "/mnt")
      = (if (1 <? length (cs "/mnt"))%nat then cs "/" else cs "/mnt").
Proof.
  intros k k'.
  apply (mount_then_resolve (cs "/dev/sda") (cs "/mnt") (cs "fsK") 0 k k').
  - vm_compute. lia.
  - vm_compute. reflexivity.
  - reflexivity.
  - vm_compute. reflexivity.
  - repeat constructor; discriminate.
  - discriminate.
  - intros m Hin. by apply elem_of_nil in Hin.
Defined.

(** ** The normaliser against the reference semantics *)

Section normaliser_exact.

Lemma step_empty (s : list cstring) : step s [] = s.
Proof. done. Qed.

Lemma step_dot (s : list cstring) : step s [DOT] = s.
Proof. done. Qed.

Lemma step_dotdot (s : list cstring) : step s [DOT; DOT] = removelast s.
Proof. done. Qed.

Lemma step_good (s : list cstring) (g : cstring) :
  good_seg g → step s g = s ++ [g].
Proof.
  intros [H1 _ _ H2 H3]. unfold step.
  by rewrite !bool_decide_eq_false_2.
Qed.

Lemma walk_cons (s : list cstring) (g : cstring) (gs : list cstring) :
  walk s (g :: gs) = walk (step s g) gs.
Proof. done. Qed.

Lemma walk_app (s : list cstring) (gs hs : list cstring) :
  walk s (gs ++ hs) = walk (walk s gs) hs.
Proof. apply foldl_app. Qed.

Lemma walk_good (s : list cstring) (gs : list cstring) :
  Forall good_seg gs → walk s gs = s ++ gs.
Proof.
  intros H. revert s. induction H as [|g gs Hg _ IH]; intros s.
  - by rewrite app_nil_r.
  - rewrite walk_cons, (step_good _ _ Hg), IH, <- app_assoc. done.
Qed.

Lemma walk_segments_render (segs : list cstring) :
  Forall good_seg segs → walk [] (segments (render segs)) = segs.
Proof.
  intros H. destruct segs as [|g segs']; [done|].
  rewrite render_nonempty by done. rewrite segments_join.
  - rewrite walk_cons, step_empty. by apply walk_good.
  - eapply Forall_impl; [exact H|]. by intros ? [].
Qed.

Lemma Forall_removelast {A} (P : A → Prop) (l : list A) :
  Forall P l → Forall P (removelast l).
Proof.
  intros H. destruct (decide (l = [])) as [->|Hne]; [done|].
  destruct (exists_last Hne) as (init & lst & ->).
  rewrite removelast_last. by apply Forall_app in H as [? _].
Qed.

Lemma rewind_last (buf : buffer) (p q : nat) :
  rewind buf p = Some q → q ≤ p ∧ ∀ i, q < i ≤ p → buf i ≠ SLASH.
Proof.
  induction p as [|p IH]; simpl.
  - destruct (buf 0 =? SLASH)%char; [|done]. intros [= <-]. split; [done|lia].
  - destruct (Ascii.eqb_spec (buf (S p)) SLASH) as [|Hne].
    + intros [= <-]. split; [done|lia].
    + intros H. apply IH in H as [Hle Hns]. split; [lia|].
      intros i Hi. destruct (decide (i = S p)) as [->|]; [done|].
      apply Hns. lia.
Qed.

(** Popping with no slash under the write pointer: the written part
    loses exactly its last segment. *)
Lemma rewind_pop (buf : buffer) (p : nat) (segs : list cstring) :
  written buf p = render segs → Forall good_seg segs → buf p ≠ SLASH →
  ∃ q,
    rewind buf p = Some q
    ∧ written buf (if (q =? 0)%nat then S q else q) = render (removelast segs)
    ∧ (if (q =? 0)%nat then S q else q) ≤ p
    ∧ q ≤ (if (q =? 0)%nat then S q else q)
    ∧ ∀ i, q < i ≤ p → buf i ≠ SLASH.
Proof.
  intros Hw Hgood Hclean.
  assert (Hp : p = length (render segs)) by (by rewrite <- Hw, written_length).
  pose proof (render_length_pos segs) as Hne.
  destruct p as [|p0]; [by destruct (render segs)|].
  assert (∃ q, rewind buf (S p0) = Some q
               ∧ written buf (if (q =? 0)%nat then S q else q)
                 = render (removelast segs)
               ∧ (if (q =? 0)%nat then S q else q) ≤ S p0) as (q & Hq & H1 & H2).
  { simpl. destruct (Ascii.eqb_spec (buf (S p0)) SLASH) as [Hs|_]; [done|].
    destruct (decide (segs = [])) as [->|Hsegs].
    - simpl in Hp. injection Hp as ->.
      exists 0. rewrite (rewind_last_slash buf [] [] 0 Hw) by apply not_elem_of_nil.
      simpl. split_and!; done.
    - destruct (exists_last Hsegs) as (init & lst & ->).
      apply Forall_app in Hgood as [Hinit Hlst]. apply Forall_inv in Hlst.
      rewrite render_snoc in Hw. rewrite removelast_last.
      exists (length (join init)).
      rewrite (rewind_last_slash buf lst (join init) p0 Hw) by apply Hlst.
      split; [done|].
      destruct init as [|g0 init'].
      + simpl. rewrite (written_take buf (S p0)) by lia. rewrite Hw.
        split; [done|lia].
      + assert (length (join (g0 :: init')) ≠ 0) by (simpl; lia).
        destruct (Nat.eqb_spec (length (join (g0 :: init'))) 0); [done|].
        apply written_split in Hw as [Hw' _]. split; [done|].
        rewrite Hp, render_snoc, length_app. lia. }
  exists q. split_and!; try done.
  - destruct (q =? 0)%nat; lia.
  - by apply rewind_last.
Qed.

Lemma is_cstr_tail (path : cstring) : is_cstr path → is_cstr (tail path).
Proof. destruct path; [done|]. by intros ?%Forall_inv_tail. Qed.

Lemma is_cstr_first_nul (path : cstring) :
  is_cstr path → byte_at path 0 = NUL → path = [].
Proof.
  destruct path as [|c r]; [done|]. intros H%Forall_inv E. by simpl in E.
Qed.

Lemma dot_test_final_dot (path : cstring) :
  is_cstr path →
  (kstrncmp path [DOT; NUL] 2 =? 0)%Z
  || (kstrncmp path [DOT; SLASH; NUL] 3 =? 0)%Z = true →
  path = [DOT] ∨ path = [DOT; SLASH].
Proof.
  intros Hc [T0|T0]%orb_true_iff;
    pose proof (proj1 (kstrncmp_test _ _ _) T0) as T; clear T0.
  - left. pose proof (T 0 ltac:(lia)) as T0. pose proof (T 1 ltac:(lia)) as T1.
    destruct path as [|a [|b r]]; try done.
    + cbv [byte_at nth] in T0. by subst a.
    + apply Forall_inv_tail, Forall_inv in Hc. by cbv [byte_at nth] in T1.
  - right. pose proof (T 0 ltac:(lia)) as T0. pose proof (T 1 ltac:(lia)) as T1.
    pose proof (T 2 ltac:(lia)) as T2.
    destruct path as [|a [|b [|c r]]]; try done.
    + cbv [byte_at nth] in T0, T1. by subst a b.
    + apply Forall_inv_tail, Forall_inv_tail, Forall_inv in Hc. by cbv [byte_at nth] in T2.
Qed.

Lemma dot_test_final_dotdot (path : cstring) :
  is_cstr path →
  (kstrncmp path [DOT; DOT; NUL] 3 =? 0)%Z
  || (kstrncmp path [DOT; DOT; SLASH; NUL] 4 =? 0)%Z = true →
  path = [DOT; DOT] ∨ path = [DOT; DOT; SLASH].
Proof.
  intros Hc [T0|T0]%orb_true_iff;
    pose proof (proj1 (kstrncmp_test _ _ _) T0) as T; clear T0.
  - left. pose proof (T 0 ltac:(lia)) as T0. pose proof (T 1 ltac:(lia)) as T1.
    pose proof (T 2 ltac:(lia)) as T2.
    destruct path as [|a [|b [|c r]]]; try done.
    + cbv [byte_at nth] in T0, T1. by subst a b.
    + apply Forall_inv_tail, Forall_inv_tail, Forall_inv in Hc. by cbv [byte_at nth] in T2.
  - right. pose proof (T 0 ltac:(lia)) as T0. pose proof (T 1 ltac:(lia)) as T1.
    pose proof (T 2 ltac:(lia)) as T2. pose proof (T 3 ltac:(lia)) as T3.
    destruct path as [|a [|b [|c [|d r]]]]; try done.
    + cbv [byte_at nth] in T0, T1, T2. by subst a b c.
    + apply Forall_inv_tail, Forall_inv_tail, Forall_inv_tail, Forall_inv in Hc.
      by cbv [byte_at nth] in T3.
Qed.

Lemma dot_test_dotdot_slash (path : cstring) :
  (kstrncmp path [DOT; DOT; SLASH] 3 =? 0)%Z = true →
  ∃ r, path = DOT :: DOT :: SLASH :: r.
Proof.
  intros T0. pose proof (proj1 (kstrncmp_test _ _ _) T0) as T. clear T0.
  pose proof (T 0 ltac:(lia)) as T0. pose proof (T 1 ltac:(lia)) as T1.
  pose proof (T 2 ltac:(lia)) as T2.
  destruct path as [|a [|b [|c r]]]; try done.
  cbv [byte_at nth] in T0, T1, T2. subst a b c. by exists r.
Qed.

Lemma dot_test_dot_slash (path : cstring) :
  (kstrncmp path [DOT; SLASH] 2 =? 0)%Z = true →
  ∃ r, path = DOT :: SLASH :: r.
Proof.
  intros T0. pose proof (proj1 (kstrncmp_test _ _ _) T0) as T. clear T0.
  pose proof (T 0 ltac:(lia)) as T0. pose proof (T 1 ltac:(lia)) as T1.
  destruct path as [|a [|b r]]; try done.
  cbv [byte_at nth] in T0, T1. subst a b. by exists r.
Qed.

Lemma segments_single (part : cstring) : SLASH ∉ part → segments part = [part].
Proof.
  intros H. rewrite <- (app_nil_r part) at 1.
  rewrite (segments_app_noslash _ _ H). simpl. by rewrite app_nil_r.
Qed.

Lemma clean_from_insert (buf : buffer) (p : nat) (c : ascii) :
  clean_from buf p → clean_from (<[p := c]> buf) (S p).
Proof.
  intros H i Hi. rewrite fn_lookup_insert_ne by lia. apply H. lia.
Qed.

(** The loop computes the walk: from either entry point, on an output
    buffer with no slash from the write pointer on, it terminates with
    the stack reached by walking the rest of the input. *)
Lemma normalise_exact (fuel : nat) :
  ∀ l path buf p segs part,
    fuel_needed l path ≤ fuel →
    is_cstr path →
    clean_from buf p →
    Forall good_seg segs →
    at_label l path (written buf p) segs part →
    ∃ out, normalise fuel l path buf p = Some out
           ∧ finished out (walk segs (segments (part ++ path)))
               (p + slack l path).
Proof.
  induction fuel as [|fuel IH];
    intros l path buf p segs part Hfuel Hpath Hclean Hgood Hat.
  { destruct l; simpl in Hfuel; lia. }
  destruct l; simpl in Hfuel;
    [destruct Hat as [(-> & Hw & Hsl)|(Hw & Hps & Hpn & Hd1 & Hd2 & Hpe)]
    |destruct Hat as [-> Hw]].
  - (* switch, at a separator *)
    rewrite normalise_switch, Hsl, Ascii.eqb_refl.
    assert (Hnn : byte_at path 0 ≠ NUL) by (by rewrite Hsl).
    pose proof (length_tail_lt path Hnn) as Hlen.
    destruct (IH L_first_run (tail path) buf p segs [])
      as (out & Hn & Hfin); try done.
    + simpl. lia.
    + by apply is_cstr_tail.
    + exists out. split; [done|].
      assert (path = SLASH :: tail path) as Hp.
      { destruct path as [|c r]; [done|]. cbv [byte_at nth] in Hsl.
        by subst c. }
      assert (segments path = [] :: segments (tail path)) as Hseg
        by (by rewrite Hp at 1).
      simpl app in Hfin |- *. rewrite Hseg, walk_cons, step_empty.
      eapply finished_weaken; [|done]. simpl. lia.
  - (* switch, inside or before a segment *)
    rewrite normalise_switch.
    destruct (Ascii.eqb_spec (byte_at path 0) SLASH) as [Hs|Hs].
    { assert (Hnn : byte_at path 0 ≠ NUL) by (by rewrite Hs).
      pose proof (length_tail_lt path Hnn) as Hlen.
      rewrite fseg_stop, app_nil_r in Hd1, Hd2 by (by left).
      assert (Hpart : good_seg part).
      { apply good_seg_part; try done. intros ->. by apply Hpe. }
      destruct (IH L_first_run (tail path) buf p (segs ++ [part]) [])
        as (out & Hn & Hfin); try done.
      - simpl. lia.
      - by apply is_cstr_tail.
      - apply Forall_app. split; [done|by constructor].
      - split; [done|]. by rewrite Hw, render_snoc.
      - exists out. split; [done|].
        assert (path = SLASH :: tail path) as Hp.
        { destruct path as [|c r]; [done|]. cbv [byte_at nth] in Hs.
          by subst c. }
        assert (segments path = [] :: segments (tail path)) as Hseg
          by (by rewrite Hp at 1).
        simpl app in Hfin.
        rewrite (segments_app_noslash _ _ Hps), Hseg.
        rewrite app_nil_r, walk_cons, (step_good _ _ Hpart).
        eapply finished_weaken; [|done]. simpl. lia. }
    destruct (Ascii.eqb_spec (byte_at path 0) NUL) as [Hn|Hn].
    { rewrite fseg_stop, app_nil_r in Hd1, Hd2 by (by right).
      rewrite (is_cstr_first_nul path Hpath Hn), app_nil_r.
      rewrite (segments_single _ Hps), walk_cons. simpl walk.
      destruct (decide (part = [])) as [->|Hpart].
      - rewrite step_empty.
        destruct (decide (segs = [])) as [->|Hne].
        + destruct (term_render buf p [] Hgood Hw) as (out & Ht & Hfin).
          exists out. split; [done|].
          eapply finished_weaken; [|done]. lia.
        + destruct (term_strip buf p (join segs) Hw) as (out & Ht & Ho & Hnul).
          { intros H%join_nil_inv. done. }
          exists out. split; [done|]. unfold finished.
          rewrite render_nonempty by done. split_and!; try done.
          rewrite <- (written_length buf p), Hw, length_app. lia.
      - assert (Hgp : good_seg part) by (by apply good_seg_part).
        rewrite (step_good _ _ Hgp).
        assert (Hgood' : Forall good_seg (segs ++ [part])).
        { apply Forall_app. split; [done|by constructor]. }
        rewrite <- render_snoc in Hw.
        destruct (term_render buf p _ Hgood' Hw) as (out & Ht & Hfin).
        exists out. split; [done|].
        eapply finished_weaken; [|done]. lia. }
    destruct (fseg_step path Hs Hn) as [Hp Hfseg].
    pose proof (length_tail_lt path Hn) as Hlen.
    destruct (IH L_switch (tail path) (<[p := byte_at path 0]> buf) (S p)
                segs (part ++ [byte_at path 0]))
      as (out & Hnorm & Hfin); try done.
    + simpl. lia.
    + by apply is_cstr_tail.
    + by apply clean_from_insert.
    + right. rewrite written_snoc, Hw, <- app_assoc. simpl.
      rewrite Hfseg in Hd1, Hd2.
      split_and!; try done.
      * apply not_elem_of_app. split; [done|].
        intros ?%list_elem_of_singleton. congruence.
      * apply not_elem_of_app. split; [done|].
        intros ?%list_elem_of_singleton. congruence.
      * by rewrite <- app_assoc.
      * by rewrite <- app_assoc.
      * by destruct part.
    + exists out. split; [done|].
      rewrite <- app_assoc in Hfin. simpl app in Hfin. rewrite <- Hp in Hfin.
      eapply finished_weaken; [|done]. simpl. lia.
  - (* first_run *)
    simpl app.
    assert (Hp : p = length (render segs)) by (by rewrite <- Hw, written_length).
    cbn [normalise].
    destruct (Ascii.eqb_spec (byte_at path 0) SLASH) as [Hs|Hs].
    { destruct (IH L_switch path buf p segs []) as (out & Hn & Hfin);
        try done.
      - simpl. lia.
      - by left.
      - exists out. split; [done|].
        eapply finished_weaken; [|done]. simpl. lia. }
    destruct ((kstrncmp path [DOT; NUL] 2 =? 0)%Z
              || (kstrncmp path [DOT; SLASH; NUL] 3 =? 0)%Z) eqn:T1.
    { destruct (term_render buf p segs Hgood Hw) as (out & Ht & Hfin).
      exists out. split; [done|].
      destruct (dot_test_final_dot path Hpath T1) as [->| ->].
      - change (segments [DOT]) with [[DOT]].
        rewrite walk_cons, step_dot.
        eapply finished_weaken; [|done]. lia.
      - change (segments [DOT; SLASH]) with [[DOT]; []].
        rewrite !walk_cons, step_dot, step_empty.
        eapply finished_weaken; [|done]. lia. }
    pose proof T1 as T1'. apply orb_false_iff in T1' as [T1' _].
    destruct ((kstrncmp path [DOT; DOT; NUL] 3 =? 0)%Z
              || (kstrncmp path [DOT; DOT; SLASH; NUL] 4 =? 0)%Z) eqn:T2.
    { destruct (rewind_pop buf p segs Hw Hgood (Hclean p (le_n p)))
        as (q & -> & Hw' & Hle & _ & _).
      destruct (term_render buf _ (removelast segs)
                  (Forall_removelast _ _ Hgood) Hw') as (out & Ht & Hfin).
      exists out. split; [done|].
      destruct (dot_test_final_dotdot path Hpath T2) as [->| ->].
      - change (segments [DOT; DOT]) with [[DOT; DOT]].
        rewrite walk_cons, step_dotdot.
        eapply finished_weaken; [|done]. lia.
      - change (segments [DOT; DOT; SLASH]) with [[DOT; DOT]; []].
        rewrite !walk_cons, step_dotdot, step_empty.
        eapply finished_weaken; [|done]. lia. }
    pose proof T2 as T2'. apply orb_false_iff in T2' as [T2' _].
    destruct (kstrncmp path [DOT; DOT; SLASH] 3 =? 0)%Z eqn:T3.
    { destruct (dot_test_dotdot_slash path T3) as [r ->].
      destruct (rewind_pop buf p segs Hw Hgood (Hclean p (le_n p)))
        as (q & -> & Hw' & Hle & Hq & Hns).
      set (p' := if (q =? 0)%nat then S q else q) in *.
      destruct (IH L_switch (drop 2 (DOT :: DOT :: SLASH :: r))
                  (<[p' := NUL]> buf) p' (removelast segs) [])
        as (out & Hn & Hfin).
      - simpl. simpl in Hfuel. lia.
      - by apply Forall_drop.
      - intros i Hi. destruct (decide (i = p')) as [->|Hne].
        + by rewrite fn_lookup_insert.
        + rewrite fn_lookup_insert_ne by done.
          destruct (decide (i ≤ p)); [apply Hns|apply Hclean]; lia.
      - by apply Forall_removelast.
      - left. by rewrite written_insert_ge.
      - exists out. split; [done|].
        change (segments (DOT :: DOT :: SLASH :: r))
          with ([DOT; DOT] :: segments r).
        rewrite walk_cons, step_dotdot.
        simpl drop in Hfin. simpl app in Hfin.
        change (segments (SLASH :: r)) with ([] :: segments r) in Hfin.
        rewrite walk_cons, step_empty in Hfin.
        eapply finished_weaken; [|done]. simpl. lia. }
    destruct (kstrncmp path [DOT; SLASH] 2 =? 0)%Z eqn:T4.
    { destruct (dot_test_dot_slash path T4) as [r ->].
      destruct (IH L_switch (drop 1 (DOT :: SLASH :: r)) buf p segs [])
        as (out & Hn & Hfin); try done.
      - simpl. simpl in Hfuel. lia.
      - by apply Forall_drop.
      - by left.
      - exists out. split; [done|].
        change (segments (DOT :: SLASH :: r)) with ([DOT] :: segments r).
        rewrite walk_cons, step_dot.
        simpl drop in Hfin. simpl app in Hfin.
        change (segments (SLASH :: r)) with ([] :: segments r) in Hfin.
        rewrite walk_cons, step_empty in Hfin.
        eapply finished_weaken; [|done]. simpl. lia. }
    destruct (dot_tests_fseg path T1' T2' T3 T4) as [Hf1 Hf2].
    destruct p as [|q].
    { pose proof (render_length_pos segs). by destruct (render segs). }
    destruct (negb (q =? 0)%nat && negb (buf q =? SLASH)%char) eqn:Hsep.
    + apply andb_true_iff in Hsep as [Hq _].
      assert (Hne : segs ≠ []).
      { intros ->. simpl in Hp. injection Hp as ->. done. }
      destruct (IH L_switch path (<[S q := SLASH]> buf) (S (S q)) segs [])
        as (out & Hn & Hfin); try done.
      * simpl. lia.
      * by apply clean_from_insert.
      * right. rewrite written_snoc, Hw, render_nonempty by done.
        split_and!; try done; apply not_elem_of_nil.
      * exists out. split; [done|].
        eapply finished_weaken; [|done]. simpl. lia.
    + assert (Hnil : segs = []).
      { destruct (decide (segs = [])) as [|Hne]; [done|]. exfalso.
        pose proof (render_no_trailing_slash segs Hgood Hne) as Hts.
        unfold has_trailing_slash in Hts.
        rewrite <- Hw, written_S, last_snoc in Hts.
        rewrite Hts, andb_true_r in Hsep.
        apply negb_false_iff, Nat.eqb_eq in Hsep. subst q.
        destruct segs as [|g segs']; [done|].
        apply Forall_cons_1 in Hgood as [Hg _].
        destruct g; [by destruct Hg|]. simpl in Hp. lia. }
      subst segs.
      destruct (IH L_switch path buf (S q) [] []) as (out & Hn & Hfin);
        try done.
      * simpl. lia.
      * right. split_and!; try done; apply not_elem_of_nil.
      * exists out. split; [done|].
        eapply finished_weaken; [|done]. simpl. lia.
Qed.

End normaliser_exact.

Section normaliser_results.

Lemma kstrcpy_frame (s : cstring) (buf : buffer) (at_ i : nat) :
  is_cstr s → at_ + length s < i → kstrcpy buf at_ s i = buf i.
Proof.
  intros Hs. revert buf at_. induction Hs as [|c r Hc _ IH]; intros buf at_ Hi.
  - simpl in *. rewrite fn_lookup_insert_ne by lia. done.
  - simpl in *. apply ascii_eqb_false in Hc. rewrite Hc.
    rewrite IH by lia. rewrite fn_lookup_insert_ne by lia. done.
Qed.

(** An absolute input is walked from the root, whatever the working
    directory. *)
Lemma absolute_input_exact (buf : buffer) (path pwd : cstring) :
  clean_from buf 1 → is_cstr path → byte_at path 0 = SLASH →
  absolute_path buf path pwd = Some (render (walk [] (segments path))).
Proof.
  intros Hclean Hpath Habs.
  unfold absolute_path, vfs_get_absolute_path.
  rewrite Habs. change (SLASH =? NUL)%char with false.
  rewrite Ascii.eqb_refl. cbn [negb].
  assert (path = SLASH :: tail path) as Hp.
  { destruct path as [|c r]; [done|]. cbv [byte_at nth] in Habs. by subst c. }
  destruct (normalise_exact (2 * length path + 2) L_first_run (tail path)
              (<[0 := SLASH]> buf) 1 [] []) as (out & -> & Hfin).
  - simpl. destruct path; simpl; lia.
  - by apply is_cstr_tail.
  - intros i Hi. rewrite fn_lookup_insert_ne by lia. by apply Hclean.
  - done.
  - split; [done|].
    change (written (<[0:=SLASH]> buf) 1) with [(<[0:=SLASH]> buf) 0].
    by rewrite fn_lookup_insert.
  - simpl app in Hfin.
    destruct (finished_result out _ _ (length pwd + length path + 2) Hfin)
      as (-> & _ & _).
    { simpl. destruct path; simpl; lia. }
    assert (segments path = [] :: segments (tail path)) as ->
      by (by rewrite Hp at 1).
    by rewrite walk_cons, step_empty.
Qed.

Lemma walk_segments_cwd (pwd : cstring) :
  is_cstr pwd → normalised pwd = true →
  Forall good_seg (walk [] (segments pwd))
  ∧ render (walk [] (segments pwd)) = pwd.
Proof.
  intros Hc Hn.
  destruct (normalised_render pwd Hc Hn) as (segs & Hgood & ->).
  by rewrite (walk_segments_render _ Hgood).
Qed.

Lemma poke_written (g : cstring) (buf : buffer) (p : nat) :
  written (poke buf p g) (p + length g) = written buf p ++ g.
Proof.
  revert buf p. induction g as [|c r IH]; intros buf p; simpl.
  - by rewrite Nat.add_0_r, app_nil_r.
  - replace (p + S (length r)) with (S p + length r) by lia.
    rewrite IH, written_snoc, <- app_assoc. done.
Qed.

Lemma poke_frame (g : cstring) (buf : buffer) (p i : nat) :
  p + length g ≤ i → poke buf p g i = buf i.
Proof.
  revert buf p. induction g as [|c r IH]; intros buf p Hi; simpl in *.
  - done.
  - rewrite IH by lia. rewrite fn_lookup_insert_ne by lia. done.
Qed.

(** Copying a segment: one iteration of the loop per byte. *)
Lemma normalise_copy (g rest : cstring) (fuel : nat) (buf : buffer) (p : nat) :
  SLASH ∉ g → NUL ∉ g →
  normalise (length g + fuel) L_switch (g ++ rest) buf p
  = normalise fuel L_switch rest (poke buf p g) (p + length g).
Proof.
  revert buf p. induction g as [|c r IH]; intros buf p Hs Hn.
  - simpl. by rewrite Nat.add_0_r.
  - apply not_elem_of_cons in Hs as [Hs1 Hs2].
    apply not_elem_of_cons in Hn as [Hn1 Hn2].
    change (length (c :: r) + fuel) with (S (length r + fuel)).
    rewrite normalise_switch.
    change (byte_at ((c :: r) ++ rest) 0) with c.
    assert ((c =? SLASH)%char = false) as -> by (apply ascii_eqb_false; congruence).
    assert ((c =? NUL)%char = false) as -> by (apply ascii_eqb_false; congruence).
    change (tail ((c :: r) ++ rest)) with (r ++ rest).
    rewrite IH by done. simpl. f_equal. lia.
Qed.

Lemma fseg_app_slash (g rest : cstring) :
  SLASH ∉ g → NUL ∉ g → fseg (g ++ SLASH :: rest) = g.
Proof.
  induction g as [|c r IH]; intros Hs Hn.
  - done.
  - apply not_elem_of_cons in Hs as [Hs1 Hs2].
    apply not_elem_of_cons in Hn as [Hn1 Hn2]. cbn [app fseg].
    assert ((c =? SLASH)%char = false) as -> by (apply ascii_eqb_false; congruence).
    assert ((c =? NUL)%char = false) as -> by (apply ascii_eqb_false; congruence).
    cbn [orb]. f_equal. by apply IH.
Qed.

End normaliser_results.

(** X16.  On an output buffer that holds no slash beyond its first
    byte, from a normalised working directory, the normaliser computes
    the lexical walk: the segments of the working directory (none when
    the input is absolute) and then those of the input are taken in
    order from the root, empty segments and [.] being skipped, [..]
    dropping the last name if there is one, any other segment being
    appended; the result is the stack reached, written as a path. *)
Theorem vfs_get_absolute_path_resolves (buf : buffer) (path pwd : cstring) :
  clean_from buf 1 →
  is_cstr path → is_cstr pwd → normalised pwd = true →
  absolute_path buf path pwd = Some (resolve path pwd).
Proof.
  intros Hclean Hpath Hpwd Hnorm. unfold resolve, is_absolute.
  destruct (walk_segments_cwd pwd Hpwd Hnorm) as [Hgood Hrender].
  destruct (Ascii.eqb_spec (byte_at path 0) SLASH) as [Habs|Hrel].
  { by apply absolute_input_exact. }
  rewrite walk_app.
  destruct (kstrcpy_written pwd buf 0 Hpwd) as [Hcopy Hend].
  simpl in Hcopy, Hend.
  unfold absolute_path, vfs_get_absolute_path.
  destruct (Ascii.eqb_spec (byte_at path 0) NUL) as [Hempty|Hnonempty].
  { rewrite (is_cstr_first_nul path Hpath Hempty).
    change (segments []) with [[] : cstring].
    rewrite walk_cons, step_empty. simpl walk. rewrite Hrender.
    f_equal. transitivity (written (kstrcpy buf 0 pwd) (length pwd)); [|done].
    apply buf_cstr_written; [by rewrite Hcopy|done|lia]. }
  apply ascii_eqb_false in Hrel. rewrite Hrel. cbn [negb].
  assert (Hlen : buf_strlen (S (length pwd)) (kstrcpy buf 0 pwd) 0 = length pwd).
  { rewrite (buf_strlen_from _ _ (length pwd) 0); [lia|lia| |done|lia].
    intros j [_ Hj]. apply (written_nonul _ (length pwd)); [|done].
    by rewrite Hcopy. }
  rewrite Hlen. cbn [Nat.add].
  destruct (normalise_exact (2 * length path + 2) L_first_run path
              (kstrcpy buf 0 pwd) (length pwd) (walk [] (segments pwd)) [])
    as (out & -> & Hfin).
  - simpl. lia.
  - done.
  - intros i Hi. destruct (decide (i = length pwd)) as [->|Hne].
    + by rewrite Hend.
    + rewrite kstrcpy_frame by (done || lia). apply Hclean.
      destruct pwd; [done|simpl in *; lia].
  - done.
  - split; [done|]. by rewrite Hcopy, Hrender.
  - simpl app in Hfin.
    destruct (finished_result out _ _ (length pwd + length path + 2) Hfin)
      as (-> & _ & _); [simpl; lia|done].
Qed.

Lemma vfs_get_absolute_path_resolves_example :
  absolute_path (λ _, NUL) (cs "a/../..//b/./c/") (cs "/x/y")
  = Some (resolve (cs "a/../..//b/./c/") (cs "/x/y")).
Proof.
  apply (vfs_get_absolute_path_resolves (λ _, NUL) (cs "a/../..//b/./c/")
           (cs "/x/y")).
  - intros i _. discriminate.
  - repeat constructor; discriminate.
  - repeat constructor; discriminate.
  - reflexivity.
Defined.

(** X17.  Normalising is idempotent: on a buffer without stale
    slashes, a path that is already normalised comes back unchanged,
    whatever the working directory. *)
Theorem vfs_get_absolute_path_idempotent (buf : buffer) (s pwd : cstring) :
  clean_from buf 1 → is_cstr s → normalised s = true →
  absolute_path buf s pwd = Some s.
Proof.
  intros Hclean Hs Hn.
  destruct (walk_segments_cwd s Hs Hn) as [_ Hrender].
  rewrite absolute_input_exact; [by rewrite Hrender|done|done|].
  unfold normalised, is_absolute in Hn.
  apply andb_true_iff in Hn as [Hn _]. apply andb_true_iff in Hn as [Hn _].
  apply andb_true_iff in Hn as [Hn _]. by apply ascii_eqb_true.
Qed.

Lemma vfs_get_absolute_path_idempotent_example :
  absolute_path (λ _, NUL) (cs "/usr/local") (cs "/home") = Some (cs "/usr/local").
Proof.
  apply (vfs_get_absolute_path_idempotent (λ _, NUL) (cs "/usr/local")
           (cs "/home")).
  - intros i _. discriminate.
  - repeat constructor; discriminate.
  - reflexivity.
Defined.

(** X18.  The result depends on what the output buffer held before the
    call: [..] rewinds from the write pointer, a byte not yet written.
    For the input [/g/..], if the byte just past the copied segment
    happens to be a slash the rewind stops there and the result is
    [/g]; on a buffer without stale slashes it is [/]. *)
Theorem vfs_get_absolute_path_reads_stale_byte
    (buf clean : buffer) (g pwd : cstring) :
  good_seg g →
  buf (S (length g)) = SLASH →
  clean_from clean 1 →
  absolute_path buf (SLASH :: g ++ cs "/..") pwd = Some (SLASH :: g)
  ∧ absolute_path clean (SLASH :: g ++ cs "/..") pwd = Some [SLASH].
Proof.
  intros Hg Hstale Hclean.
  assert (Hpath : is_cstr (SLASH :: g ++ cs "/..")).
  { constructor; [done|]. apply Forall_app. split.
    - apply Forall_forall. intros c Hc ->. by apply (gs_nonul g Hg).
    - repeat constructor; discriminate. }
  assert (Hsegs : segments (g ++ cs "/..") = [g; [DOT; DOT]]).
  { rewrite (segments_app_noslash _ _ (gs_noslash g Hg)).
    change (segments (cs "/..")) with [[]; [DOT; DOT]]. cbv iota.
    by rewrite app_nil_r. }
  split.
  2:{ rewrite absolute_input_exact by done.
      change (segments (SLASH :: g ++ cs "/.."))
        with ([] :: segments (g ++ cs "/..")).
      rewrite Hsegs, !walk_cons, step_empty, (step_good _ _ Hg), step_dotdot.
      done. }
  unfold absolute_path, vfs_get_absolute_path.
  change (byte_at (SLASH :: g ++ cs "/..") 0) with SLASH.
  change (SLASH =? NUL)%char with false. rewrite Ascii.eqb_refl. cbn [negb].
  change (tail (SLASH :: g ++ cs "/..")) with (g ++ cs "/..").
  set (buf0 := <[0 := SLASH]> buf).
  assert (length (SLASH :: g ++ cs "/..") = length g + 4) as ->
    by (simpl; rewrite length_app; simpl; lia).
  replace (2 * (length g + 4) + 2)
    with (S (length g + S (S (length g + 7)))) by lia.
  (* first_run: the segment ahead is an ordinary one *)
  assert (Hfseg : fseg (g ++ cs "/..") = g)
    by (apply fseg_app_slash; apply Hg).
  assert (Hrun : ∀ fuel,
            normalise (S fuel) L_first_run (g ++ cs "/..") buf0 1
            = normalise fuel L_switch (g ++ cs "/..") buf0 1).
  { intros fuel. cbn [normalise].
    assert (byte_at (g ++ cs "/..") 0 ≠ SLASH) as Hb.
    { destruct g as [|c r]; [by destruct Hg|]. intros E.
      cbv [byte_at nth app] in E. apply (gs_noslash _ Hg). subst c. by left. }
    apply ascii_eqb_false in Hb. rewrite Hb.
    destruct ((kstrncmp (g ++ cs "/..") [DOT; NUL] 2 =? 0)%Z
              || (kstrncmp (g ++ cs "/..") [DOT; SLASH; NUL] 3 =? 0)%Z) eqn:T1.
    { exfalso. apply Forall_inv_tail in Hpath.
      destruct (dot_test_final_dot _ Hpath T1) as [E|E];
        apply (f_equal length) in E; rewrite length_app in E; simpl in E; lia. }
    destruct ((kstrncmp (g ++ cs "/..") [DOT; DOT; NUL] 3 =? 0)%Z
              || (kstrncmp (g ++ cs "/..") [DOT; DOT; SLASH; NUL] 4 =? 0)%Z)
      eqn:T2.
    { exfalso. apply Forall_inv_tail in Hpath.
      destruct (dot_test_final_dotdot _ Hpath T2) as [E|E];
        apply (f_equal length) in E; rewrite length_app in E; simpl in E;
        destruct g; [by destruct Hg|simpl in E; lia|by destruct Hg|simpl in E; lia]. }
    destruct (kstrncmp (g ++ cs "/..") [DOT; DOT; SLASH] 3 =? 0)%Z eqn:T3.
    { exfalso. destruct (dot_test_dotdot_slash _ T3) as [r E].
      apply (f_equal fseg) in E. rewrite Hfseg in E.
      change (fseg (DOT :: DOT :: SLASH :: r)) with [DOT; DOT] in E.
      by apply (gs_nodotdot g Hg). }
    destruct (kstrncmp (g ++ cs "/..") [DOT; SLASH] 2 =? 0)%Z eqn:T4.
    { exfalso. destruct (dot_test_dot_slash _ T4) as [r E].
      apply (f_equal fseg) in E. rewrite Hfseg in E.
      change (fseg (DOT :: SLASH :: r)) with [DOT] in E.
      by apply (gs_nodot g Hg). }
    done. }
  rewrite Hrun.
  rewrite (normalise_copy g (cs "/..") _ buf0 1 (gs_noslash g Hg) (gs_nonul g Hg)).
  set (buf1 := poke buf0 1 g).
  assert (Hw1 : written buf1 (1 + length g) = SLASH :: g).
  { unfold buf1. rewrite poke_written.
    change (written buf0 1) with [buf0 0]. unfold buf0.
    by rewrite fn_lookup_insert. }
  assert (Hb1 : buf1 (1 + length g) = SLASH).
  { unfold buf1. rewrite poke_frame by lia. unfold buf0.
    rewrite fn_lookup_insert_ne by lia. done. }
  (* switch on the slash, then first_run on [..] *)
  change (normalise (S (S (length g + 7))) L_switch (cs "/..") buf1
            (1 + length g))
    with (match rewind buf1 (1 + length g) with
          | Some p => term buf1 (if (p =? 0)%nat then S p else p)
          | None => None
          end).
  rewrite (rewind_at_slash _ _ Hb1). cbn [Nat.add Nat.eqb].
  destruct (term_keep buf1 (S (length g))) as (out & -> & Hout & Hnul).
  - done.
  - left. change (S (length g)) with (1 + length g). rewrite Hw1.
    destruct (good_seg_snoc g Hg) as (g' & c & -> & Hc & _).
    rewrite app_comm_cons, last_snoc. congruence.
  - f_equal. change (S (length g)) with (1 + length g) in Hout, Hnul.
    rewrite <- Hw1, <- Hout.
    apply buf_cstr_written; [|done|lia].
    rewrite Hout, Hw1. constructor; [done|].
    apply Forall_forall. intros c Hc ->. by apply (gs_nonul g Hg).
Qed.

Lemma vfs_get_absolute_path_reads_stale_byte_example :
  absolute_path (λ _, SLASH) (cs "/a/..") (cs "/") = Some (cs "/a")
  ∧ absolute_path (λ _, NUL) (cs "/a/..") (cs "/") = Some (cs "/").
Proof.
  apply (vfs_get_absolute_path_reads_stale_byte (λ _, SLASH) (λ _, NUL)
           (cs "a") (cs "/")).
  - split; apply (bool_decide_unpack _); vm_compute; exact I.
  - reflexivity.
  - intros i _. discriminate.
Defined.

(** ** Keyboard: invariants *)

Section keyboard_invariants.

Lemma kbd_le_big : KBD_BUF_SIZE ≤ BIG_BUF_SIZE.
Proof. apply Nat.leb_le. by vm_compute. Qed.

Lemma big_buf_size_int : (Z.of_nat BIG_BUF_SIZE < 2 ^ 31)%Z.
Proof. apply Z.ltb_lt. by vm_compute. Qed.

Lemma regular_character_inv (c : ascii) (st : kbd) :
  kbd_wf st →
  kbd_wf (regular_character c st) ∧ unlocked (regular_character c st).
Proof.
  intros [Hk Hb]. unfold regular_character.
  destruct (Nat.eqb_spec (kbd_buf_i st) KBD_BUF_SIZE) as [|Hne]; [done|].
  destruct (flag _ ECHO); (split; [split; simpl; [lia|done]|done]).
Qed.

Lemma dispatch_inv (c : ascii) (st st' : kbd) :
  kbd_wf st → dispatch c st = Done tt st' → kbd_wf st' ∧ unlocked st'.
Proof.
  intros Hwf. pose proof Hwf as [Hk Hb]. unfold dispatch.
  destruct (termios_lock st); [done|].
  assert (Hwf1 : kbd_wf (set_termios_lock true st)) by done.
  destruct (Ascii.eqb_spec c NL) as [->|_].
  - destruct (negb _);
      [intros [= <-]; by apply regular_character_inv|].
    destruct (Nat.eqb_spec (kbd_buf_i (set_termios_lock true st)) KBD_BUF_SIZE)
      as [|Hne]; [intros [= <-]; by apply regular_character_inv|].
    cbv zeta. intros [= <-].
    set (st1 := set_kbd_buf_i (S _) _).
    set (st2 := if flag (c_lflag st1) ECHO then tty_putchar NL st1 else st1).
    assert (Hb2 : big_buf_i st2 = big_buf_i st)
      by (subst st2 st1; by destruct (flag _ ECHO)).
    destruct (commit_loop_spec (kbd_buf_i st2) 0 st2) as (Hci & _ & _);
      [by rewrite Hb2|].
    split; [|done]. split; [apply Nat.le_0_l|].
    change (big_buf_i (out ?s)) with (big_buf_i s).
    change (big_buf_i (set_kbd_buf_i 0 ?s)) with (big_buf_i s).
    change (big_buf_i (commit_loop (kbd_buf_i st2) 0 st2) ≤ BIG_BUF_SIZE).
    rewrite Hci, Hb2. lia.
  - destruct (c =? BS)%char; [|intros [= <-]; by apply regular_character_inv].
    destruct (negb _);
      [intros [= <-]; by apply regular_character_inv|].
    destruct (kbd_buf_i (set_termios_lock true st) =? 0)%nat;
      [intros [= <-]; by apply regular_character_inv|].
    cbv zeta. intros [= <-].
    destruct (flag _ ECHO); (split; [split; simpl in *; [lia|done]|done]).
Qed.

Lemma kbd_handler_inv (b : Z) (st st' : kbd) :
  kbd_wf st → kbd_handler b st = Done tt st' → kbd_wf st' ∧ unlocked st'.
Proof.
  intros Hwf. unfold kbd_handler.
  destruct (kbd_read_lock st); [done|]. cbv zeta.
  destruct (_ && _); [by intros [= <-]|].
  destruct (_ =? CAPSLOCK)%Z; [by intros [= <-]|].
  destruct (_ || _); [by intros [= <-]|].
  destruct (_ || _); [by intros [= <-]|].
  destruct (_ <? MAX_CODE)%Z; [|by intros [= <-]].
  destruct (decode _ _) as [c|]; [|done].
  by apply dispatch_inv.
Qed.

Lemma deliver_inv (scancodes : list Z) (st st' : kbd) :
  kbd_wf st → unlocked st →
  deliver scancodes st = Done tt st' → kbd_wf st' ∧ unlocked st'.
Proof.
  revert st. induction scancodes as [|b rest IH]; intros st Hwf Hun; simpl.
  - by intros [= <-].
  - destruct (kbd_handler b st) as [[] st1| | |] eqn:Hh; try done.
    destruct (kbd_handler_inv _ _ _ Hwf Hh) as [Hwf1 Hun1]. by apply IH.
Qed.

Lemma kbd_handler_not_blocked (b : Z) (st st' : kbd) :
  kbd_handler b st ≠ Blocked st'.
Proof.
  unfold kbd_handler. destruct (kbd_read_lock st); [done|]. cbv zeta.
  destruct (_ && _); [done|]. destruct (_ =? CAPSLOCK)%Z; [done|].
  destruct (_ || _); [done|]. destruct (_ || _); [done|].
  destruct (_ <? MAX_CODE)%Z; [|done].
  destruct (decode _ _) as [c|]; [|done]. unfold dispatch.
  destruct (termios_lock _); [done|]. cbv zeta.
  destruct (c =? NL)%char.
  - destruct (negb _); [done|]. by destruct (_ =? KBD_BUF_SIZE)%nat.
  - destruct (c =? BS)%char; [|done].
    destruct (negb _); [done|]. by destruct (_ =? 0)%nat.
Qed.

Lemma deliver_not_blocked (scancodes : list Z) (st st' : kbd) :
  deliver scancodes st ≠ Blocked st'.
Proof.
  revert st. induction scancodes as [|b rest IH]; intros st; simpl; [done|].
  destruct (kbd_handler b st) as [[] st1| | |] eqn:Hh; try done.
  by apply kbd_handler_not_blocked in Hh.
Qed.

End keyboard_invariants.

(** X19.  Every return of the interrupt handler leaves the raw index
    within [KBD_BUF_SIZE] and the line index within [BIG_BUF_SIZE] when
    they were so before, and both locks free; the same holds after any
    sequence of interrupts. *)
Theorem kbd_handler_keeps_indices_in_bounds
    (b : Z) (scancodes : list Z) (st : kbd) :
  kbd_wf st →
  match kbd_handler b st with
  | Done _ st' => kbd_wf st' ∧ unlocked st'
  | _ => True
  end
  ∧ (unlocked st →
     match deliver scancodes st with
     | Done _ st' => kbd_wf st' ∧ unlocked st'
     | _ => True
     end).
Proof.
  intros Hwf. split.
  - destruct (kbd_handler b st) as [[] st'| | |] eqn:Hh; [|done..].
    by apply (kbd_handler_inv b st).
  - intros Hun.
    destruct (deliver scancodes st) as [[] st'| | |] eqn:Hd; [|done..].
    by apply (deliver_inv scancodes st).
Qed.

Lemma kbd_handler_keeps_indices_in_bounds_example :
  match kbd_handler 0x1c kbd_full with
  | Done _ st' => kbd_wf st' ∧ unlocked st'
  | _ => True
  end
  ∧ (unlocked kbd_full →
     match deliver hi_scancodes kbd_full with
     | Done _ st' => kbd_wf st' ∧ unlocked st'
     | _ => True
     end).
Proof.
  apply (kbd_handler_keeps_indices_in_bounds 0x1c hi_scancodes kbd_full).
  split; [apply Nat.le_refl|apply Nat.le_0_l].
Defined.

Section keyboard_reader_loop.

Lemma cooked_loop_zero
    (yield_then : nat → nat → Z → buffer → kbd → outcome (Z * buffer))
    (count i : nat) (wait : Z) (buf : buffer) (st : kbd) :
  cooked_loop yield_then count 0 i wait buf st
  = Done (to_int (Z.of_nat count), buf) (set_kbd_read_lock false st).
Proof. done. Qed.

(** One iteration of the copy loop of the canonical path. *)
Lemma cooked_loop_step
    (yield_then : nat → nat → Z → buffer → kbd → outcome (Z * buffer))
    (count n i : nat) (wait : Z) (buf : buffer) (st : kbd) :
  cooked_loop yield_then count (S n) i wait buf st
  = if negb (big_buf_i st =? 0)%nat then
      cooked_loop yield_then count n (S i) 0 (<[i := big_buf st 0]> buf)
        (set_big_buf (shift_down (pred (big_buf_i st)) 0 (big_buf st))
           (set_big_buf_i (pred (big_buf_i st)) st))
    else if negb (wait =? 0)%Z then
      yield_then (S n) i wait buf (set_kbd_read_lock false st)
    else Done (to_int (Z.of_nat i), buf) (set_kbd_read_lock false st).
Proof. done. Qed.

Lemma read_cooked_unfold (env : list (list Z)) (count n i : nat) (wait : Z)
    (buf : buffer) (st : kbd) :
  read_cooked env count n i wait buf st
  = if kbd_read_lock st then cooked_resume env count n i wait buf st
    else cooked_loop (cooked_resume env count) count n i wait buf
           (set_kbd_read_lock true st).
Proof. by destruct env. Qed.

Lemma read_raw_unfold (env : list (list Z)) (buf : buffer) (st : kbd) :
  read_raw env buf st
  = let yield_then st :=
      match env with
      | [] => Blocked st
      | scancodes :: env' =>
          match deliver scancodes st with
          | Done _ st => read_raw env' buf st
          | Spinning st => Spinning st
          | Wild_read st => Wild_read st
          | Blocked st => Blocked st
          end
      end in
    if kbd_read_lock st then yield_then st
    else if (kbd_buf_i st =? 0)%nat then
      yield_then (set_kbd_read_lock false (set_kbd_read_lock true st))
    else
      let '(i, buf, st) :=
        drain (kbd_buf_i st) 0 buf (set_kbd_read_lock true st) in
      Done (to_int (Z.of_nat i), buf)
        (set_kbd_read_lock false (set_kbd_buf_i 0 st)).
Proof. by destruct env. Qed.

(** While [kbd_read_lock] is taken no interrupt is served to its end:
    the only sequence the handler gets through is the empty one. *)
Lemma deliver_locked (scancodes : list Z) (st st' : kbd) :
  kbd_read_lock st = true → deliver scancodes st = Done tt st' → st' = st.
Proof.
  intros Hl. destruct scancodes as [|b rest]; simpl.
  - by intros [= <-].
  - unfold kbd_handler. by rewrite Hl.
Qed.

Lemma read_raw_inv (env : list (list Z)) :
  ∀ buf st,
    kbd_wf st → termios_lock st = false →
    reader_post (kbd_read_lock st) (read_raw env buf st).
Proof.
  induction env as [|scancodes env IH]; intros buf st Hwf Ht;
    rewrite read_raw_unfold; cbv zeta;
    destruct (kbd_read_lock st) eqn:Hl.
  - done.
  - destruct (kbd_buf_i st =? 0)%nat; [done|].
    destruct (drain_spec (kbd_buf_i st) 0 buf (set_kbd_read_lock true st))
      as (buf' & kb' & -> & _ & _).
    split; [split; [apply Nat.le_0_l|apply Hwf]|done].
  - destruct (deliver _ _) as [[] st1| | |] eqn:Hd; try done;
      [|by apply deliver_not_blocked in Hd].
    apply (deliver_locked _ _ _ Hl) in Hd as ->.
    specialize (IH buf st Hwf Ht). by rewrite Hl in IH.
  - destruct (kbd_buf_i st =? 0)%nat.
    + destruct (deliver _ _) as [[] st1| | |] eqn:Hd; try done;
        [|by apply deliver_not_blocked in Hd].
      destruct (deliver_inv scancodes
                  (set_kbd_read_lock false (set_kbd_read_lock true st)) st1)
        as [Hwf1 [Hl1 Ht1]]; try done.
      specialize (IH buf st1 Hwf1 Ht1). by rewrite Hl1 in IH.
    + destruct (drain_spec (kbd_buf_i st) 0 buf (set_kbd_read_lock true st))
        as (buf' & kb' & -> & _ & _).
      split; [split; [apply Nat.le_0_l|apply Hwf]|done].
Qed.

Lemma cooked_loop_inv
    (yield_then : nat → nat → Z → buffer → kbd → outcome (Z * buffer))
    (count : nat) :
  (∀ n i wait buf st,
     kbd_wf st → unlocked st → reader_post false (yield_then n i wait buf st)) →
  ∀ n i wait buf st,
    kbd_wf st → termios_lock st = false →
    reader_post false (cooked_loop yield_then count n i wait buf st).
Proof.
  intros Hy n. induction n as [|n IHn]; intros i wait buf st Hwf Ht;
    rewrite ?cooked_loop_zero, ?cooked_loop_step; [done|].
  destruct (negb (big_buf_i st =? 0)%nat).
  - apply IHn; [|done]. destruct Hwf. split; simpl; [done|lia].
  - destruct (negb (wait =? 0)%Z); [|done]. by apply Hy.
Qed.

Lemma read_cooked_inv (env : list (list Z)) (count : nat) :
  ∀ n i wait buf st,
    kbd_wf st → termios_lock st = false →
    reader_post (kbd_read_lock st) (read_cooked env count n i wait buf st).
Proof.
  induction env as [|scancodes env IH]; intros n i wait buf st Hwf Ht;
    rewrite read_cooked_unfold; destruct (kbd_read_lock st) eqn:Hl.
  - done.
  - apply cooked_loop_inv; try done.
    intros n' i' wait' buf' st' Hwf' [Hl' Ht']. done.
  - simpl. destruct (deliver _ _) as [[] st1| | |] eqn:Hd; try done;
      [|by apply deliver_not_blocked in Hd].
    apply (deliver_locked _ _ _ Hl) in Hd as ->.
    specialize (IH n i wait buf st Hwf Ht). by rewrite Hl in IH.
  - apply cooked_loop_inv; try done.
    intros n' i' wait' buf' st' Hwf' Hun'. simpl.
    destruct (deliver _ _) as [[] st1| | |] eqn:Hd; try done;
      [|by apply deliver_not_blocked in Hd].
    destruct (deliver_inv scancodes st' st1) as [Hwf1 [Hl1 Ht1]]; try done.
    specialize (IH n' i' wait' buf' st1 Hwf1 Ht1). by rewrite Hl1 in IH.
Qed.

Lemma read_lock_round_trip (st : kbd) :
  kbd_read_lock st = false →
  set_kbd_read_lock false (set_kbd_read_lock true st) = st.
Proof. destruct st. simpl. by intros ->. Qed.

Lemma termios_lock_round_trip (st : kbd) :
  termios_lock st = false →
  set_termios_lock false (set_termios_lock true st) = st.
Proof. destruct st. simpl. by intros ->. Qed.

(** With [kbd_read_lock] taken, or with nothing to read, each wake-up
    that brought no scancode sends the reader back into [yield]. *)
Lemma read_raw_idle (n : nat) (buf : buffer) (st : kbd) :
  kbd_read_lock st = true ∨ kbd_buf_i st = 0 →
  read_raw (replicate n []) buf st = Blocked st.
Proof.
  intros H.
  induction n as [|n IH]; rewrite read_raw_unfold; cbv zeta;
    cbn [replicate deliver]; destruct (kbd_read_lock st) eqn:Hl; try done;
    destruct H as [H|H]; try done; rewrite H; cbn [Nat.eqb];
    by rewrite read_lock_round_trip.
Qed.

Lemma read_cooked_idle (n count c i : nat) (buf : buffer) (st : kbd) :
  kbd_read_lock st = true ∨ big_buf_i st = 0 →
  read_cooked (replicate n []) count (S c) i 1 buf st = Blocked st.
Proof.
  intros H.
  induction n as [|n IH]; rewrite read_cooked_unfold;
    destruct (kbd_read_lock st) eqn:Hl;
    try (by cbn [replicate deliver cooked_resume]);
    destruct H as [H|H]; try done;
    rewrite cooked_loop_step; cbn [big_buf_i set_kbd_read_lock];
    rewrite H; cbn [Nat.eqb negb Z.eqb];
    rewrite read_lock_round_trip by done;
    by cbn [replicate deliver cooked_resume].
Qed.

End keyboard_reader_loop.

(** X20.  [kbd_read] never sleeps and never returns with a lock in its
    hands.  Whenever it returns, both [kbd_read_lock] and
    [termios_lock] are free.  Whenever it is suspended in [yield], at
    any of its five yield sites (waiting for input or waiting for
    [kbd_read_lock], in either mode), [termios_lock] is free and
    [kbd_read_lock] is as it was when [kbd_read] was called: free if it
    was free, and not taken by the reader if another party held it.
    The two indices stay within their arrays throughout.  And the
    waits are sleeps: a reader that finds [kbd_read_lock] taken, or
    nothing to read, goes back into [yield] at every wake-up that
    brought no scancode, the state being exactly the one it found. *)
Theorem kbd_read_releases_locks
    (env : list (list Z)) (buf : buffer) (count : nat) (st : kbd) :
  kbd_wf st →
  match kbd_read env buf count st with
  | Done _ st' => kbd_wf st' ∧ unlocked st'
  | Blocked st' =>
      kbd_wf st' ∧ termios_lock st' = false
      ∧ kbd_read_lock st' = kbd_read_lock st
  | _ => True
  end
  ∧ (termios_lock st = false →
     kbd_read_lock st = true
     ∨ (if flag (c_lflag st) ICANON then big_buf_i st = 0 ∧ 0 < count
        else kbd_buf_i st = 0) →
     ∀ n, kbd_read (replicate n []) buf count st = Blocked st).
Proof.
  intros Hwf. split.
  - unfold kbd_read.
    destruct (termios_lock st); [done|]. cbv zeta.
    destruct (negb _).
    + by apply (read_raw_inv env buf
                  (set_termios_lock false (set_termios_lock true st))).
    + by apply (read_cooked_inv env count count 0 1 buf
                  (set_termios_lock false (set_termios_lock true st))).
  - intros Ht Hidle n. unfold kbd_read. rewrite Ht. cbv zeta.
    cbn [c_lflag set_termios_lock].
    rewrite (termios_lock_round_trip _ Ht).
    destruct (flag (c_lflag st) ICANON); cbn [negb].
    + destruct count as [|c].
      * destruct Hidle as [Hl|[_ Hc]]; [|lia].
        induction n as [|n IH]; rewrite read_cooked_unfold, Hl;
          by cbn [replicate deliver cooked_resume].
      * apply read_cooked_idle. destruct Hidle as [?|[? _]]; auto.
    + by apply read_raw_idle.
Qed.

Lemma kbd_read_releases_locks_example :
  match kbd_read [[]; hi_scancodes] (λ _, NUL) 8 (kbd_init ICANON) with
  | Done _ st' => kbd_wf st' ∧ unlocked st'
  | Blocked st' =>
      kbd_wf st' ∧ termios_lock st' = false
      ∧ kbd_read_lock st' = false
  | _ => True
  end
  ∧ kbd_read [[]; []; []] (λ _, NUL) 8 (kbd_init ICANON)
    = Blocked (kbd_init ICANON).
Proof.
  destruct (kbd_read_releases_locks [[]; hi_scancodes] (λ _, NUL) 8
              (kbd_init ICANON)) as [Hpost Hidle].
  { split; apply Nat.le_0_l. }
  split; [exact Hpost|].
  apply (Hidle eq_refl (or_intror (conj eq_refl (Nat.lt_0_succ 7))) 3).
Defined.

(** X21.  Scancodes that stand for no character: a modifier key, a code
    of [MAX_CODE] or more (key releases among them), and [0x2e] while
    control is active.  The handler returns without touching either
    buffer, either index or the terminal; a modifier code flips its
    latch, press and release alike, and no other latch changes. *)
Theorem kbd_handler_ignores_non_characters (b : Z) (st : kbd) :
  kbd_read_lock st = false →
  (is_modifier (b mod 256)
   ∨ (MAX_CODE ≤ b mod 256)%Z
   ∨ (ctrl_active st ≠ 0 ∧ b mod 256 = 0x2e)%Z) →
  ∃ st',
    kbd_handler b st = Done tt st'
    ∧ same_buffers st st'
    ∧ unlocked st'
    ∧ toggled (b mod 256 = CAPSLOCK)%Z (capslock_active st)
        (capslock_active st')
    ∧ toggled (is_shift (b mod 256)) (shift_active st) (shift_active st')
    ∧ toggled (is_ctrl (b mod 256)) (ctrl_active st) (ctrl_active st').
Proof.
  intros Hl Hcode. unfold kbd_handler. rewrite Hl. cbv zeta.
  set (code := (b mod 256)%Z) in *.
  change (ctrl_active (set_kbd_read_lock true st)) with (ctrl_active st).
  unfold is_modifier, is_shift, is_ctrl, toggled, MAX_CODE, CAPSLOCK,
    LEFT_SHIFT, RIGHT_SHIFT, LEFT_SHIFT_REL, RIGHT_SHIFT_REL, LEFT_CTRL,
    LEFT_CTRL_REL in *.
  destruct (Z.eqb_spec (ctrl_active st) 0) as [Hc|Hc];
    destruct (Z.eqb_spec code 46) as [H46|H46]; cbn [negb andb];
    try (eexists; split; [reflexivity|];
         split; [done|]; split; [done|]; simpl;
         repeat split; intros; solve [done|lia|exfalso; lia]).
  all: destruct (Z.eqb_spec code 58) as [H58|H58];
    try (eexists; split; [reflexivity|];
         split; [done|]; split; [done|]; simpl;
         repeat split; intros; solve [done|lia|exfalso; lia]).
  all: destruct (Z.eqb_spec code 42) as [H42|H42];
    destruct (Z.eqb_spec code 54) as [H54|H54];
    destruct (Z.eqb_spec code 170) as [H170|H170];
    destruct (Z.eqb_spec code 182) as [H182|H182]; cbn [orb];
    try (eexists; split; [reflexivity|];
         split; [done|]; split; [done|]; simpl;
         repeat split; intros; solve [done|lia|exfalso; lia]).
  all: destruct (Z.eqb_spec code 29) as [H29|H29];
    destruct (Z.eqb_spec code 157) as [H157|H157]; cbn [orb];
    try (eexists; split; [reflexivity|];
         split; [done|]; split; [done|]; simpl;
         repeat split; intros; solve [done|lia|exfalso; lia]).
  all: destruct (Z.ltb_spec code 87) as [Hlt|Hge];
    try (eexists; split; [reflexivity|];
         split; [done|]; split; [done|]; simpl;
         repeat split; intros; solve [done|lia|exfalso; lia]).
  all: exfalso; lia.
Qed.

Lemma kbd_handler_ignores_non_characters_example :
  ∃ st',
    kbd_handler 0xaa (kbd_init ICANON) = Done tt st'
    ∧ same_buffers (kbd_init ICANON) st'
    ∧ unlocked st'
    ∧ toggled (0xaa mod 256 = CAPSLOCK)%Z 0 (capslock_active st')
    ∧ toggled (is_shift (0xaa mod 256)) 0 (shift_active st')
    ∧ toggled (is_ctrl (0xaa mod 256)) 0 (ctrl_active st').
Proof.
  apply (kbd_handler_ignores_non_characters 0xaa (kbd_init ICANON)).
  - reflexivity.
  - left. right. left. right. right. left. reflexivity.
Defined.

Section keyboard_tables.

Lemma table_sizes :
  length ascii_nomod = Z.to_nat TABLE_SIZE
  ∧ length ascii_shift = Z.to_nat TABLE_SIZE
  ∧ length ascii_shift_capslock = Z.to_nat TABLE_SIZE
  ∧ length ascii_capslock = Z.to_nat TABLE_SIZE.
Proof. by vm_compute. Qed.

Lemma decode_bounds (code : Z) (st : kbd) :
  (0 ≤ code)%Z →
  ((code < TABLE_SIZE)%Z → is_Some (decode code st))
  ∧ ((TABLE_SIZE ≤ code)%Z → decode code st = None).
Proof.
  intros H0. destruct table_sizes as (H1 & H2 & H3 & H4).
  unfold decode. split; intros Hc.
  - repeat destruct (_ && _); apply lookup_lt_is_Some_2; lia.
  - repeat destruct (_ && _); apply lookup_ge_None_2; lia.
Qed.

End keyboard_tables.

(** X22.  The decoding tables have [TABLE_SIZE] entries but the handler
    admits every scancode below [MAX_CODE]: a code below [TABLE_SIZE]
    is decoded within its table, while for each code above
    [TABLE_SIZE] and below [MAX_CODE] the handler indexes past the
    table's end, whatever the modifiers. *)
Theorem kbd_handler_table_overrun (b : Z) (st : kbd) :
  kbd_read_lock st = false →
  ((0 ≤ b mod 256 < TABLE_SIZE)%Z → is_Some (decode (b mod 256) st))
  ∧ ((TABLE_SIZE < b mod 256 < MAX_CODE)%Z →
     kbd_handler b st = Wild_read (set_kbd_read_lock true st)).
Proof.
  intros Hl. split.
  - intros [H0 H1]. by apply decode_bounds.
  - intros [H0 H1]. unfold kbd_handler. rewrite Hl. cbv zeta.
    set (code := (b mod 256)%Z) in *.
    unfold TABLE_SIZE, MAX_CODE, CAPSLOCK, LEFT_SHIFT, RIGHT_SHIFT,
      LEFT_SHIFT_REL, RIGHT_SHIFT_REL, LEFT_CTRL, LEFT_CTRL_REL in *.
    replace (code =? 46)%Z with false by (symmetry; apply Z.eqb_neq; lia).
    rewrite andb_false_r.
    replace (code =? 58)%Z with false by (symmetry; apply Z.eqb_neq; lia).
    replace (code =? 42)%Z with false by (symmetry; apply Z.eqb_neq; lia).
    replace (code =? 54)%Z with false by (symmetry; apply Z.eqb_neq; lia).
    replace (code =? 170)%Z with false by (symmetry; apply Z.eqb_neq; lia).
    replace (code =? 182)%Z with false by (symmetry; apply Z.eqb_neq; lia).
    replace (code =? 29)%Z with false by (symmetry; apply Z.eqb_neq; lia).
    replace (code =? 157)%Z with false by (symmetry; apply Z.eqb_neq; lia).
    replace (code <? 87)%Z with true by (symmetry; apply Z.ltb_lt; lia).
    cbn [orb].
    destruct (decode_bounds code (set_kbd_read_lock true st)) as [_ Hnone];
      [lia|].
    rewrite Hnone; [done|]. unfold TABLE_SIZE. lia.
Qed.

Lemma kbd_handler_table_overrun_example :
  ((0 ≤ 0x3b mod 256 < TABLE_SIZE)%Z →
   is_Some (decode (0x3b mod 256) (kbd_init ICANON)))
  ∧ ((TABLE_SIZE < 0x3b mod 256 < MAX_CODE)%Z →
     kbd_handler 0x3b (kbd_init ICANON)
     = Wild_read (set_kbd_read_lock true (kbd_init ICANON))).
Proof.
  apply (kbd_handler_table_overrun 0x3b (kbd_init ICANON)). reflexivity.
Defined.

Section keyboard_characters.

Lemma regular_character_spec (c : ascii) (st : kbd) :
  let st' := regular_character c st in
  same_line_buf st st' ∧ unlocked st'
  ∧ c_lflag st' = c_lflag st
  ∧ (kbd_buf_i st = KBD_BUF_SIZE →
     kbd_buf_i st' = kbd_buf_i st ∧ kbd_buf st' = kbd_buf st
     ∧ tty st' = tty st)
  ∧ (kbd_buf_i st ≠ KBD_BUF_SIZE →
     kbd_buf_i st' = S (kbd_buf_i st)
     ∧ kbd_buf st' = <[kbd_buf_i st := c]> (kbd_buf st)
     ∧ tty st' = tty st ++ (if flag (c_lflag st) ECHO then [c] else [])).
Proof.
  unfold regular_character.
  destruct (Nat.eqb_spec (kbd_buf_i st) KBD_BUF_SIZE) as [Hfull|Hroom].
  - by split_and!.
  - simpl c_lflag. destruct (flag (c_lflag st) ECHO); split_and!; try done.
    intros _. simpl. by rewrite app_nil_r.
Qed.

Lemma dispatch_regular (c : ascii) (st : kbd) :
  termios_lock st = false →
  flag (c_lflag st) ICANON = false ∨ (c ≠ NL ∧ c ≠ BS) →
  dispatch c st = Done tt (regular_character c (set_termios_lock true st)).
Proof.
  intros Hl Hc. unfold dispatch. rewrite Hl. simpl c_lflag.
  destruct Hc as [->|[H1 H2]].
  - simpl negb. by destruct (c =? NL)%char, (c =? BS)%char.
  - apply ascii_eqb_false in H1, H2. by rewrite H1, H2.
Qed.

Lemma decode_newline (st : kbd) : decode 0x1c st = Some NL.
Proof.
  unfold decode.
  destruct (capslock_active st =? 0)%Z, (shift_active st =? 0)%Z; done.
Qed.

(** The newline case with room in the raw buffer. *)
Lemma dispatch_newline_spec (st : kbd) :
  flag (c_lflag st) ICANON = true →
  termios_lock st = false →
  kbd_buf_i st ≠ KBD_BUF_SIZE →
  big_buf_i st ≤ BIG_BUF_SIZE →
  let raw := <[kbd_buf_i st := NL]> (kbd_buf st) in
  let k := S (kbd_buf_i st) `min` (BIG_BUF_SIZE - big_buf_i st) in
  ∃ st', dispatch NL st = Done tt st'
         ∧ kbd_buf st' = raw ∧ kbd_buf_i st' = 0
         ∧ big_buf_i st' = big_buf_i st + k
         ∧ (∀ j, j < k → big_buf st' (big_buf_i st + j) = raw j)
         ∧ (∀ j, j < big_buf_i st → big_buf st' j = big_buf st j)
         ∧ c_lflag st' = c_lflag st
         ∧ unlocked st'.
Proof.
  intros Hcanon Hlock Hroom Hbig raw k.
  unfold dispatch. rewrite Hlock. change (NL =? NL)%char with true.
  cbv iota. simpl c_lflag. rewrite Hcanon. simpl negb. cbv iota.
  simpl kbd_buf_i.
  destruct (Nat.eqb_spec (kbd_buf_i st) KBD_BUF_SIZE) as [|_]; [done|].
  cbv zeta.
  set (st1 := set_kbd_buf_i (S (kbd_buf_i st)) _).
  set (st2 := if flag (c_lflag st) ECHO then tty_putchar NL st1 else st1).
  assert (H2 : kbd_buf st2 = raw ∧ kbd_buf_i st2 = S (kbd_buf_i st)
               ∧ big_buf st2 = big_buf st ∧ big_buf_i st2 = big_buf_i st
               ∧ c_lflag st2 = c_lflag st).
  { subst st2. by destruct (flag (c_lflag st) ECHO). }
  destruct H2 as (Hraw & Hi2 & Hb2 & Hbi2 & Hfl2).
  rewrite Hi2.
  destruct (commit_loop_spec (S (kbd_buf_i st)) 0 st2) as (Hci & Hcb & Hcu);
    [by rewrite Hbi2|].
  assert (Hfl : c_lflag (commit_loop (S (kbd_buf_i st)) 0 st2) = c_lflag st)
    by (rewrite Hcu; done).
  apply line_update_fields in Hcu as [Hkb Hki].
  rewrite Hbi2 in Hci, Hcb. rewrite Hraw in Hkb, Hcb. rewrite Hb2 in Hcb.
  eexists. split; [reflexivity|].
  change (kbd_buf (out ?s)) with (kbd_buf s).
  change (big_buf (out ?s)) with (big_buf s).
  change (big_buf_i (out ?s)) with (big_buf_i s).
  change (c_lflag (out ?s)) with (c_lflag s).
  change (kbd_buf (set_kbd_buf_i 0 ?s)) with (kbd_buf s).
  change (big_buf (set_kbd_buf_i 0 ?s)) with (big_buf s).
  change (big_buf_i (set_kbd_buf_i 0 ?s)) with (big_buf_i s).
  change (c_lflag (set_kbd_buf_i 0 ?s)) with (c_lflag s).
  split_and!; [done|done|done| | |done|done].
  + intros j Hj. rewrite Hcb. case_decide; [|lia].
    f_equal. lia.
  + intros j Hj. rewrite Hcb. case_decide; [lia|done].
Qed.

Lemma shift_down_spec (n : nat) :
  ∀ j b x,
    shift_down n j b x = if decide (j ≤ x < j + n) then b (S x) else b x.
Proof.
  induction n as [|n IH]; intros j b x; simpl.
  - case_decide; [lia|done].
  - rewrite IH. destruct (decide (x = j)) as [->|Hne].
    + rewrite fn_lookup_insert.
      repeat case_decide; solve [done|exfalso; lia].
    + repeat case_decide; rewrite ?fn_lookup_insert_ne by lia;
        solve [done|exfalso; lia].
Qed.

(** The copy loop of the canonical path while it does not have to
    wait: bytes leave the line buffer from its front, in order. *)
Lemma cooked_loop_fifo
    (yield_then : nat → nat → Z → buffer → kbd → outcome (Z * buffer))
    (count : nat) :
  ∀ n i wait buf st,
    i + n = count →
    n = 0 ∨ wait = 0%Z ∨ 0 < big_buf_i st →
    ∃ buf' bb',
      cooked_loop yield_then count n i wait buf st
      = Done (to_int (Z.of_nat (i + n `min` big_buf_i st)), buf')
          (set_kbd_read_lock false
             (set_big_buf bb'
                (set_big_buf_i (big_buf_i st - n `min` big_buf_i st) st)))
      ∧ (∀ j, buf' j = if decide (i ≤ j < i + n `min` big_buf_i st)
                       then big_buf st (j - i) else buf j)
      ∧ (∀ j, j < big_buf_i st - n `min` big_buf_i st →
              bb' j = big_buf st (j + n `min` big_buf_i st)).
Proof.
  induction n as [|n IH]; intros i wait buf st Hcount Hgo.
  - rewrite cooked_loop_zero. exists buf, (big_buf st).
    rewrite Nat.min_0_l, Nat.sub_0_r, Nat.add_0_r in *. subst count.
    split_and!.
    + by destruct st.
    + intros j. case_decide; [lia|done].
    + intros j _. by rewrite Nat.add_0_r.
  - rewrite cooked_loop_step.
    destruct (Nat.eqb_spec (big_buf_i st) 0) as [Hz|Hnz]; cbn [negb].
    + destruct Hgo as [?|[->|?]]; [done| |lia]. cbn [Z.eqb negb].
      rewrite Nat.min_r, Nat.sub_diag by lia.
      exists buf, (big_buf st). rewrite Hz, Nat.add_0_r.
      split_and!.
      * rewrite <- Hz. by destruct st.
      * intros j. case_decide; [lia|done].
      * intros j Hj. lia.
    + set (st1 := set_big_buf _ _).
      destruct (IH (S i) 0%Z (<[i := big_buf st 0]> buf) st1)
        as (buf' & bb' & -> & Hb & Hbb); [lia|by right; left|].
      change (big_buf_i st1) with (pred (big_buf_i st)) in *.
      change (big_buf st1)
        with (shift_down (pred (big_buf_i st)) 0 (big_buf st)) in *.
      replace (S n `min` big_buf_i st)
        with (S (n `min` pred (big_buf_i st))) by lia.
      exists buf', bb'. split_and!.
      * replace (S i + n `min` pred (big_buf_i st))
          with (i + S (n `min` pred (big_buf_i st))) by lia.
        f_equal. f_equal. subst st1. destruct st; simpl in *.
        unfold set_big_buf, set_big_buf_i. simpl. f_equal. lia.
      * intros j. rewrite Hb. rewrite shift_down_spec.
        destruct (decide (j = i)) as [->|Hne].
        -- rewrite fn_lookup_insert, Nat.sub_diag.
           repeat case_decide; solve [done|exfalso; lia].
        -- rewrite fn_lookup_insert_ne by done.
           repeat case_decide; try solve [done|exfalso; lia].
           f_equal. lia.
      * intros j Hj. rewrite Hbb by lia. rewrite shift_down_spec.
        case_decide; [|exfalso; lia]. f_equal. lia.
Qed.

(** The backspace case on a raw buffer that is not empty. *)
Lemma dispatch_backspace_spec (st : kbd) :
  flag (c_lflag st) ICANON = true →
  termios_lock st = false →
  kbd_buf_i st ≠ 0 →
  ∃ st',
    dispatch BS st = Done tt st'
    ∧ kbd_buf_i st' = pred (kbd_buf_i st)
    ∧ kbd_buf st' = <[pred (kbd_buf_i st) := NUL]> (kbd_buf st)
    ∧ tty st' = tty st ++ (if flag (c_lflag st) ECHO
                           then [BS; " "%char; BS] else [])
    ∧ same_line_buf st st'
    ∧ unlocked st'.
Proof.
  intros Hcanon Hl Hi. unfold dispatch. rewrite Hl.
  change (BS =? NL)%char with false. change (BS =? BS)%char with true.
  cbv iota. simpl c_lflag. rewrite Hcanon. simpl negb. cbv iota.
  simpl kbd_buf_i. apply Nat.eqb_neq in Hi. rewrite Hi. cbv zeta.
  eexists. split; [reflexivity|].
  destruct (flag (c_lflag st) ECHO); simpl; split_and!; try done.
  - by rewrite <- !app_assoc.
  - by rewrite app_nil_r.
Qed.

End keyboard_characters.

(** X23.  Outside canonical mode every decoded character, newline and
    backspace included, and in canonical mode every character other
    than these two, goes through [regular_character]: with room in the
    raw buffer it is stored at the raw index, the index advances by one
    and the character is echoed under [ECHO]; with the raw buffer full
    it is dropped without echo.  The line buffer is never touched and
    both locks are released. *)
Theorem dispatch_appends_character (c : ascii) (st : kbd) :
  termios_lock st = false →
  flag (c_lflag st) ICANON = false ∨ (c ≠ NL ∧ c ≠ BS) →
  ∃ st',
    dispatch c st = Done tt st'
    ∧ same_line_buf st st'
    ∧ unlocked st'
    ∧ (kbd_buf_i st = KBD_BUF_SIZE →
       kbd_buf_i st' = kbd_buf_i st ∧ kbd_buf st' = kbd_buf st
       ∧ tty st' = tty st)
    ∧ (kbd_buf_i st ≠ KBD_BUF_SIZE →
       kbd_buf_i st' = S (kbd_buf_i st)
       ∧ kbd_buf st' = <[kbd_buf_i st := c]> (kbd_buf st)
       ∧ tty st' = tty st ++ (if flag (c_lflag st) ECHO then [c] else [])).
Proof.
  intros Hl Hc. rewrite (dispatch_regular c st Hl Hc).
  destruct (regular_character_spec c (set_termios_lock true st))
    as (H1 & H2 & _ & H3 & H4).
  eexists. split; [reflexivity|]. by split_and!.
Qed.

Lemma dispatch_appends_character_example :
  ∃ st',
    dispatch NL (kbd_init ECHO) = Done tt st'
    ∧ same_line_buf (kbd_init ECHO) st'
    ∧ unlocked st'
    ∧ (0 = KBD_BUF_SIZE →
       kbd_buf_i st' = 0 ∧ kbd_buf st' = (λ _, NUL) ∧ tty st' = [])
    ∧ (0 ≠ KBD_BUF_SIZE →
       kbd_buf_i st' = 1
       ∧ kbd_buf st' = <[0 := NL]> (λ _, NUL)
       ∧ tty st' = [] ++ (if flag ECHO ECHO then [NL] else [])).
Proof.
  apply (dispatch_appends_character NL (kbd_init ECHO)).
  - reflexivity.
  - left. reflexivity.
Defined.

(** X24.  In canonical mode, typing a character and then backspace
    undoes the character: the raw index is back where it was, the slot
    the character took holds zero, nothing else in the raw buffer has
    changed, the line buffer is untouched, and under [ECHO] the
    terminal has received the character followed by backspace, space,
    backspace. *)
Theorem dispatch_type_then_erase (c : ascii) (st : kbd) :
  flag (c_lflag st) ICANON = true →
  termios_lock st = false →
  c ≠ NL → c ≠ BS →
  kbd_buf_i st ≠ KBD_BUF_SIZE →
  ∃ st1 st2,
    dispatch c st = Done tt st1
    ∧ dispatch BS st1 = Done tt st2
    ∧ kbd_buf_i st2 = kbd_buf_i st
    ∧ (∀ j, kbd_buf st2 j
            = if decide (j = kbd_buf_i st) then NUL else kbd_buf st j)
    ∧ tty st2
      = tty st ++ (if flag (c_lflag st) ECHO
                   then [c; BS; " "%char; BS] else [])
    ∧ same_line_buf st st2
    ∧ unlocked st2.
Proof.
  intros Hcanon Hl Hnl Hbs Hroom.
  rewrite (dispatch_regular c st Hl) by (by right).
  destruct (regular_character_spec c (set_termios_lock true st))
    as ([Hli Hlb] & [Hu1 Hu2] & Hfl & _ & Hput).
  destruct (Hput Hroom) as (Hi & Hb & Htty). clear Hput.
  cbn [kbd_buf_i kbd_buf tty c_lflag big_buf big_buf_i set_termios_lock]
    in Hli, Hlb, Hfl, Hi, Hb, Htty.
  destruct (dispatch_backspace_spec
              (regular_character c (set_termios_lock true st)))
    as (st2 & Hd2 & Hi2 & Hb2 & Htty2 & [Hli2 Hlb2] & Hun2).
  { by rewrite Hfl. }
  { done. }
  { rewrite Hi. done. }
  exists (regular_character c (set_termios_lock true st)), st2.
  rewrite Hi in Hi2, Hb2. rewrite Hb in Hb2. rewrite Htty, Hfl in Htty2.
  simpl in Hi2, Hb2.
  split_and!; try done.
  - intros j. rewrite Hb2. destruct (decide (j = kbd_buf_i st)) as [->|Hne].
    + by rewrite fn_lookup_insert.
    + by rewrite !fn_lookup_insert_ne by done.
  - rewrite Htty2. destruct (flag (c_lflag st) ECHO);
      by rewrite <- ?app_assoc, ?app_nil_r.
  - split; congruence.
Qed.

Lemma dispatch_type_then_erase_example :
  ∃ st1 st2,
    dispatch "a"%char (kbd_init (Z.lor ICANON ECHO)) = Done tt st1
    ∧ dispatch BS st1 = Done tt st2
    ∧ kbd_buf_i st2 = 0
    ∧ (∀ j, kbd_buf st2 j = if decide (j = 0) then NUL else NUL)
    ∧ tty st2
      = [] ++ (if flag (Z.lor ICANON ECHO) ECHO
               then ["a"%char; BS; " "%char; BS] else [])
    ∧ same_line_buf (kbd_init (Z.lor ICANON ECHO)) st2
    ∧ unlocked st2.
Proof.
  apply (dispatch_type_then_erase "a"%char (kbd_init (Z.lor ICANON ECHO))).
  - reflexivity.
  - reflexivity.
  - discriminate.
  - discriminate.
  - apply Nat.eqb_neq, kbd_buf_size_pos.
Defined.

(** X25.  In canonical mode with a line pending, [kbd_read] never
    waits: it hands over the first [min count n] bytes of the line
    buffer in order, [n] being the number of bytes pending, moves the
    rest to the front, lowers the line index by as much and returns the
    number of bytes delivered.  The raw buffer is not touched. *)
Theorem kbd_read_cooked_delivers_front
    (env : list (list Z)) (buf : buffer) (count : nat) (st : kbd) :
  flag (c_lflag st) ICANON = true →
  unlocked st →
  0 < big_buf_i st → big_buf_i st ≤ BIG_BUF_SIZE →
  let k := count `min` big_buf_i st in
  ∃ buf' st',
    kbd_read env buf count st = Done (Z.of_nat k, buf') st'
    ∧ (∀ j, j < k → buf' j = big_buf st j)
    ∧ (∀ j, k ≤ j → buf' j = buf j)
    ∧ big_buf_i st' = big_buf_i st - k
    ∧ (∀ j, j < big_buf_i st - k → big_buf st' j = big_buf st (j + k))
    ∧ kbd_buf_i st' = kbd_buf_i st ∧ kbd_buf st' = kbd_buf st
    ∧ unlocked st'.
Proof.
  intros Hcanon [Hl1 Hl2] Hpos Hle k.
  unfold kbd_read. rewrite Hl2. simpl c_lflag. rewrite Hcanon. simpl negb.
  cbv iota zeta. rewrite read_cooked_unfold. simpl kbd_read_lock.
  rewrite Hl1.
  destruct (cooked_loop_fifo
              (cooked_resume env count) count count 0 1 buf
              (set_kbd_read_lock true
                 (set_termios_lock false (set_termios_lock true st))))
    as (buf' & bb' & -> & Hb & Hbb); [done|by right; right|].
  cbn [big_buf_i big_buf set_kbd_read_lock set_termios_lock Nat.add]
    in Hb, Hbb |- *.
  fold k in Hb, Hbb |- *.
  assert (to_int (Z.of_nat k) = Z.of_nat k) as ->.
  { pose proof big_buf_size_int. unfold to_int.
    rewrite Z.mod_small; lia. }
  eexists _, _. split; [reflexivity|]. simpl.
  split_and!; try done.
  - intros j Hj. rewrite Hb. case_decide; [|lia]. f_equal. lia.
  - intros j Hj. rewrite Hb. case_decide; [lia|done].
Qed.

Lemma kbd_read_cooked_delivers_front_example :
  let st := set_big_buf_i 2
              (set_big_buf (<[1 := NL]> (<[0 := "h"%char]> (λ _, NUL)))
                 (kbd_init ICANON)) in
  ∃ buf' st',
    kbd_read [] (λ _, NUL) 1 st = Done (Z.of_nat (1 `min` 2), buf') st'
    ∧ (∀ j, j < 1 `min` 2 → buf' j = big_buf st j)
    ∧ (∀ j, 1 `min` 2 ≤ j → buf' j = NUL)
    ∧ big_buf_i st' = 2 - 1 `min` 2
    ∧ (∀ j, j < 2 - 1 `min` 2 → big_buf st' j = big_buf st (j + 1 `min` 2))
    ∧ kbd_buf_i st' = 0 ∧ kbd_buf st' = (λ _, NUL)
    ∧ unlocked st'.
Proof.
  apply (kbd_read_cooked_delivers_front [] (λ _, NUL) 1
           (set_big_buf_i 2
              (set_big_buf (<[1 := NL]> (<[0 := "h"%char]> (λ _, NUL)))
                 (kbd_init ICANON)))).
  - reflexivity.
  - done.
  - apply Nat.lt_0_succ.
  - apply Nat.leb_le. by vm_compute.
Defined.

(** X26.  A line typed is a line read: in canonical mode with the line
    buffer empty, when the return key arrives behind [n] pending bytes
    a following [kbd_read] of more than [n] bytes returns [n + 1]:
    these bytes in the order typed, then the newline; both buffers are
    empty afterwards. *)
Theorem kbd_line_round_trip
    (env : list (list Z)) (buf : buffer) (count : nat) (st : kbd) :
  flag (c_lflag st) ICANON = true →
  unlocked st →
  kbd_buf_i st < KBD_BUF_SIZE →
  big_buf_i st = 0 →
  kbd_buf_i st < count →
  ∃ st1 buf' st2,
    kbd_handler 0x1c st = Done tt st1
    ∧ kbd_read env buf count st1
      = Done (Z.of_nat (S (kbd_buf_i st)), buf') st2
    ∧ (∀ j, j < kbd_buf_i st → buf' j = kbd_buf st j)
    ∧ buf' (kbd_buf_i st) = NL
    ∧ big_buf_i st2 = 0
    ∧ kbd_buf_i st2 = 0.
Proof.
  intros Hcanon [Hl1 Hl2] Hroom Hempty Hcount.
  pose proof kbd_le_big as Hsizes.
  destruct (dispatch_newline_spec (set_kbd_read_lock true st))
    as (st1 & Hd & Hkb & Hki & Hbi & Hcopy & _ & Hfl & Hu1 & Hu2);
    [done|done|simpl; lia|simpl; lia|].
  cbn [kbd_buf_i kbd_buf big_buf_i big_buf c_lflag set_kbd_read_lock]
    in Hkb, Hbi, Hcopy, Hfl.
  rewrite Hempty in Hbi, Hcopy.
  rewrite Nat.sub_0_r, Nat.min_l in Hbi, Hcopy by lia.
  cbn [Nat.add] in Hbi, Hcopy.
  exists st1.
  assert (kbd_handler 0x1c st = Done tt st1) as ->.
  { unfold kbd_handler. rewrite Hl1.
    change (0x1c mod 256)%Z with 0x1c%Z. cbv beta zeta.
    replace (negb (ctrl_active (set_kbd_read_lock true st) =? 0)%Z
             && (0x1c =? 0x2e)%Z)
      with false by (by rewrite andb_false_r).
    change (0x1c =? CAPSLOCK)%Z with false.
    change ((0x1c =? LEFT_SHIFT)%Z || (0x1c =? RIGHT_SHIFT)%Z
            || (0x1c =? LEFT_SHIFT_REL)%Z || (0x1c =? RIGHT_SHIFT_REL)%Z)
      with false.
    change ((0x1c =? LEFT_CTRL)%Z || (0x1c =? LEFT_CTRL_REL)%Z) with false.
    change (0x1c <? MAX_CODE)%Z with true. cbv iota.
    by rewrite decode_newline. }
  unfold kbd_read. rewrite Hu2. simpl c_lflag. rewrite Hfl, Hcanon.
  simpl negb. cbv iota zeta. rewrite read_cooked_unfold.
  simpl kbd_read_lock. rewrite Hu1.
  destruct (cooked_loop_fifo
              (cooked_resume env count) count count 0 1 buf
              (set_kbd_read_lock true
                 (set_termios_lock false (set_termios_lock true st1))))
    as (buf' & bb' & -> & Hb & _);
    [done|right; right; cbn [big_buf_i set_kbd_read_lock set_termios_lock]; lia|].
  cbn [big_buf_i big_buf set_kbd_read_lock set_termios_lock Nat.add]
    in Hb |- *.
  rewrite Hbi in Hb |- *.
  rewrite Nat.min_r in Hb |- * by lia. rewrite Nat.sub_diag.
  assert (to_int (Z.of_nat (S (kbd_buf_i st)))
          = Z.of_nat (S (kbd_buf_i st))) as ->.
  { pose proof kbd_buf_size_int. unfold to_int.
    rewrite Z.mod_small; lia. }
  eexists _, _. split; [reflexivity|]. split; [reflexivity|]. simpl.
  split_and!; try done.
  - intros j Hj. rewrite Hb. case_decide; [|lia].
    rewrite Nat.sub_0_r. rewrite (Hcopy j) by lia.
    by rewrite fn_lookup_insert_ne by lia.
  - rewrite Hb. case_decide; [|lia].
    rewrite Nat.sub_0_r. rewrite (Hcopy (kbd_buf_i st)) by lia.
    by rewrite fn_lookup_insert.
Qed.

Lemma kbd_line_round_trip_example :
  ∃ st1 buf' st2,
    kbd_handler 0x1c kbd_typed_line = Done tt st1
    ∧ kbd_read [] (λ _, NUL) 8 st1 = Done (Z.of_nat 3, buf') st2
    ∧ (∀ j, j < 2 → buf' j = kbd_buf kbd_typed_line j)
    ∧ buf' 2 = NL
    ∧ big_buf_i st2 = 0
    ∧ kbd_buf_i st2 = 0.
Proof.
  apply (kbd_line_round_trip [] (λ _, NUL) 8 kbd_typed_line).
  - reflexivity.
  - done.
  - apply Nat.ltb_lt. by vm_compute.
  - reflexivity.
  - apply Nat.ltb_lt. by vm_compute.
Defined.
